(** * The macro engine of input-remapper

    A shallow embedding of [inputremapper/injection/macros/macro.py]:
    the values macros are built from, the argument validators, the
    builder methods [add_...] that compile a macro into a list of tasks,
    and [Macro.run], which executes the tasks against a handler.

    Macro objects are mutable and shared by reference (a parent's tasks
    and its [child_macros] point to the same child), so they live in a
    heap keyed by address.  Coroutines are run against a schedule: the
    list of what the event loop does at each suspension of the task. *)

From Stdlib Require Import ZArith Bool List DecimalString.
From Stdlib Require Import Floats.SpecFloat.
From stdpp Require Import base option list strings gmap sets.

Local Open Scope string_scope.
Local Open Scope list_scope.
Local Open Scope Z_scope.

(** ** Python values *)

(** The objects that reach the engine: [None], [int], [float] (an IEEE
    binary64, so with infinities and NaN), [str], [Variable] and [Macro].
    A [Variable] defines neither [__eq__] nor [__hash__], so Python
    tells two of them apart by identity: [VVariable] carries the identity
    [oid] of the object next to its [name].  A [Macro] is the address of
    the object in the heap. *)
Inductive value : Type :=
| VNone
| VInt (z : Z)
| VFloat (f : spec_float)
| VStr (s : string)
| VVariable (oid : nat) (name : string)
| VMacro (addr : nat).

#[global] Instance spec_float_eq_dec : EqDecision spec_float.
Proof. solve_decision. Defined.

#[global] Instance value_eq_dec : EqDecision value.
Proof. solve_decision. Defined.

Definition spec_float_code (f : spec_float) : bool + bool + unit + bool * positive * Z :=
  match f with
  | S754_zero s => inl (inl (inl s))
  | S754_infinity s => inl (inl (inr s))
  | S754_nan => inl (inr tt)
  | S754_finite s m e => inr (s, m, e)
  end.

Definition spec_float_decode (c : bool + bool + unit + bool * positive * Z) : spec_float :=
  match c with
  | inl (inl (inl s)) => S754_zero s
  | inl (inl (inr s)) => S754_infinity s
  | inl (inr _) => S754_nan
  | inr (s, m, e) => S754_finite s m e
  end.

#[global] Instance spec_float_countable : Countable spec_float.
Proof.
  apply (inj_countable' spec_float_code spec_float_decode).
  intros []; reflexivity.
Defined.

Definition value_code (v : value) : unit + Z + spec_float + string + nat * string + nat :=
  match v with
  | VNone => inl (inl (inl (inl (inl tt))))
  | VInt z => inl (inl (inl (inl (inr z))))
  | VFloat f => inl (inl (inl (inr f)))
  | VStr s => inl (inl (inr s))
  | VVariable o n => inl (inr (o, n))
  | VMacro a => inr a
  end.

Definition value_decode (c : unit + Z + spec_float + string + nat * string + nat) : value :=
  match c with
  | inl (inl (inl (inl (inl _)))) => VNone
  | inl (inl (inl (inl (inr z)))) => VInt z
  | inl (inl (inl (inr f))) => VFloat f
  | inl (inl (inr s)) => VStr s
  | inl (inr (o, n)) => VVariable o n
  | inr a => VMacro a
  end.

#[global] Instance value_countable : Countable value.
Proof.
  apply (inj_countable' value_code value_decode).
  intros []; reflexivity.
Defined.

(** *** Floats *)

(** The rational [m * 2^e] of a finite float is compared and truncated
    exactly, through integers. *)
Definition float_is_nan (f : spec_float) : bool :=
  match f with S754_nan => true | _ => false end.

(** [int(f)]: truncation toward zero of a finite float. *)
Definition float_trunc (s : bool) (m : positive) (e : Z) : Z :=
  let mag := if 0 <=? e then Z.pos m * 2 ^ e else Z.pos m / 2 ^ (- e) in
  if s then - mag else mag.

(** The floats that are numbers: neither an infinity nor NaN. *)
Definition is_finite (f : spec_float) : bool :=
  match f with
  | S754_zero _ | S754_finite _ _ _ => true
  | _ => false
  end.

(** [int(f)] of such a float. *)
Definition int_of_float (f : spec_float) : Z :=
  match f with
  | S754_finite s m e => float_trunc s m e
  | _ => 0
  end.

(** [f1 == f2] on floats: NaN differs from everything, itself included;
    the two zeros are equal. *)
Definition float_eqb (f1 f2 : spec_float) : bool :=
  match f1, f2 with
  | S754_nan, _ | _, S754_nan => false
  | S754_zero _, S754_zero _ => true
  | S754_infinity s1, S754_infinity s2 => Bool.eqb s1 s2
  | S754_finite s1 m1 e1, S754_finite s2 m2 e2 =>
      let e := Z.min e1 e2 in
      Bool.eqb s1 s2 && (Z.pos m1 * 2 ^ (e1 - e) =? Z.pos m2 * 2 ^ (e2 - e))
  | _, _ => false
  end.

(** [n == f] for an int and a float: Python compares the exact values. *)
Definition int_float_eqb (n : Z) (f : spec_float) : bool :=
  match f with
  | S754_zero _ => n =? 0
  | S754_finite s m e =>
      let sm := if s then Z.neg m else Z.pos m in
      if 0 <=? e then n =? sm * 2 ^ e else n * 2 ^ (- e) =? sm
  | _ => false
  end.

(** [a == b].  Objects without [__eq__] are compared by identity. *)
Definition py_eq (a b : value) : bool :=
  match a, b with
  | VNone, VNone => true
  | VInt x, VInt y => x =? y
  | VInt x, VFloat f | VFloat f, VInt x => int_float_eqb x f
  | VFloat f, VFloat g => float_eqb f g
  | VStr s, VStr t => String.eqb s t
  | VVariable o1 _, VVariable o2 _ => Nat.eqb o1 o2
  | VMacro m1, VMacro m2 => Nat.eqb m1 m2
  | _, _ => false
  end.

(** ** Exceptions *)

(** [ExpectedParameter] is the [TypeError] of [_type_check]; it names the
    operation and the position of the argument when both are given.
    [HandlerError] stands for any [Exception] raised by the handler. *)
Inductive exn : Type :=
| ExpectedParameter (place : option (string * Z))
| PyTypeError
| PyValueError
| PyKeyError
| PySyntaxError
| PyAttributeError
| PyZeroDivisionError
| PyOverflowError
| TimeoutError
| HandlerError (tag : nat)
| CancelledError.

#[global] Instance exn_eq_dec : EqDecision exn.
Proof. solve_decision. Defined.

(** [isinstance(e, Exception)]: [asyncio.CancelledError] derives from
    [BaseException] only, so [except Exception] lets it through. *)
Definition is_Exception (e : exn) : bool :=
  match e with CancelledError => false | _ => true end.

(** ** The kinds a parameter may have *)

(** The entries of [allowed_types]: [int], [float], [str], [Macro] and
    [None]. *)
Inductive kind : Type := KInt | KFloat | KStr | KMacro | KNone.

Definition isinstance (v : value) (k : kind) : bool :=
  match v, k with
  | VInt _, KInt | VFloat _, KFloat | VStr _, KStr | VMacro _, KMacro => true
  | _, _ => false
  end.

(** The parts of the Python runtime and of the surrounding program that
    the engine calls but does not define. *)
Record Environment : Type := {
  (** [int(s)] for a string; [None] is the [ValueError]. *)
  int_of_str : string -> option Z;
  (** [float(s)] for a string; [None] is the [ValueError]. *)
  float_of_str : string -> option spec_float;
  (** [float(n)] for an int; [None] is the [OverflowError]. *)
  float_of_int : Z -> option spec_float;
  (** [str(f)] for a float. *)
  str_of_float : spec_float -> string;
  (** [str(n)] for an int; [None] is the [ValueError] of an int with
      more digits than [sys.int_max_str_digits] allows, on the Pythons
      that have this limit. *)
  str_of_int : Z -> option string;
  (** [s.upper()] and [s.lower()]. *)
  upper : string -> string;
  lower : string -> string;
  (** [system_mapping.get(symbol)]: the code of a key name. *)
  system_mapping : string -> option Z;
  (** [ecodes[name]] of evdev; [None] is the [KeyError]. *)
  ecodes : string -> option Z
}.

(** The outcome of calling a kind as a constructor inside the [try] of
    [_type_check]: a value, an exception the [except (TypeError,
    ValueError)] swallows, or one it does not. *)
Inductive attempt : Type :=
| Built (v : value)
| Swallowed
| Escaped (e : exn).

(** ** Macros, tasks and the world they run in *)

(** The kernel's event types and relative axes, as [evdev.ecodes] has
    them. *)
Definition EV_KEY : Z := 1.
Definition EV_REL : Z := 2.
Definition REL_X : Z := 0.
Definition REL_Y : Z := 1.
Definition REL_HWHEEL : Z := 6.
Definition REL_WHEEL : Z := 8.

(** The closures the builders append to [self.tasks], one constructor per
    closure, holding what the closure captured. *)
Inductive task : Type :=
| hold_wait_task
| hold_key_task (code : value)
| hold_macro_task (macro : nat)
| modify_task (code : value) (macro : value)
| repeat_task (repeats : value) (macro : value)
| key_task (code : value)
| event_task (type_ code value_ : value)
| keycode_pause_task
| mouse_task (code value_ : Z) (speed : value)
| wheel_task (code value_ : Z) (speed : value)
| wait_task (time : value)
| set_task (variable : string) (value_ : value)
| ifeq_task (variable value_ then_ else_ : value)
| if_eq_task (value_1 value_2 then_ else_ : value)
| if_tap_task (then_ else_ timeout : value)
| if_single_task (then_ else_ timeout : value).

(** An event read from a device, of which [if_single] uses the type and
    the code. *)
Record InputEvent : Type := { ev_type : Z; ev_code : Z; ev_value : Z }.

(** Modelled from the spec: the constants [PRESS] and [PRESS_NEGATIVE] of
    [inputremapper.utils], which is not among the sources.  The spec
    describes the action as a small enum that is only compared for
    equality. *)
Inductive Action : Type := PRESS | PRESS_NEGATIVE | RELEASE | OTHER_ACTION.

(** The fields of a [Macro] object.  [context] is [None] for a macro of
    the frontend; otherwise only one thing is read from it,
    [context.preset.get("macros.keystroke_sleep_ms")], which is what
    [Some] holds. *)
Record Macro : Type := {
  code : option string;
  context : option value;
  tasks : list task;
  _trigger_release_event : bool;
  _trigger_press_event : bool;
  running : bool;
  capabilities : gmap value (gset value);
  child_macros : list value;
  keystroke_sleep_ms : value;
  _new_event_arrived : bool;
  _newest_event : option InputEvent;
  _newest_action : option Action
}.

(** One call [handler(type, code, value)]. *)
Definition emission : Type := value * value * value.

(** The lines the engine writes to the logger. *)
Inductive log_line : Type :=
| log_already_running (code : option string)
| log_macro_failed (code : option string) (e : exn)
| log_already_holding
| log_is (argument val : value)
| log_set_to (variable : string) (resolved : value).

(** What can happen while the task of a macro is suspended: the
    injector presses or releases the trigger of a macro or tells it
    about an event, somebody writes the shared variable store, the
    sleep the task is in elapses, the [wait_for] it is in times out, or
    the task is cancelled. *)
Inductive happening : Type :=
| trigger_pressed (addr : nat)
| trigger_released (addr : nat)
| notified (addr : nat) (event : InputEvent) (action : Action)
| variable_written (name : string) (val : value)
| timer_fires
| deadline_expires
| cancellation.

(** The handler is any object; calling one that is callable may raise,
    depending on what it has been given so far. *)
Inductive Handler : Type :=
| not_callable
| callable (raises : list emission -> emission -> option exn).

(** Modelled from the spec: [macro_variables], an instance of
    [inputremapper.ipc.shared_dict.SharedDict], which is not among the
    sources: a process-wide keyed map where [get] of an unset name gives
    [None]. *)
Record World : Type := {
  heap : gmap nat Macro;
  macro_variables : gmap string value;
  emitted : list emission;
  logged : list log_line;
  schedule : list happening
}.

(** *** The state and error monad of the engine *)

(** A computation returns, raises, or does not finish: [Blocked] when it
    waits for something the schedule never brings, [Exhausted] when the
    fuel of the model ran out, [Dangling] when it follows an address
    with no object behind it. *)
Inductive stop : Type := Blocked | Exhausted | Dangling.

Inductive result (A : Type) : Type :=
| Ok (a : A)
| Raise (e : exn)
| Stop (s : stop).
Arguments Ok {A} a.
Arguments Raise {A} e.
Arguments Stop {A} s.

Definition M (A : Type) : Type := World -> result A * World.

Definition ret {A} (a : A) : M A := fun w => (Ok a, w).
Definition raise {A} (e : exn) : M A := fun w => (Raise e, w).
Definition stop_with {A} (s : stop) : M A := fun w => (Stop s, w).

Definition bind {A B} (m : M A) (k : A -> M B) : M B :=
  fun w =>
    match m w with
    | (Ok a, w') => k a w'
    | (Raise e, w') => (Raise e, w')
    | (Stop s, w') => (Stop s, w')
    end.

Notation "x <- m ;; k" := (bind m (fun x => k))
  (at level 100, m at next level, k at level 200, right associativity).
Notation "m ;;; k" := (bind m (fun _ => k))
  (at level 100, k at level 200, right associativity).

Definition gets {A} (f : World -> A) : M A := fun w => (Ok (f w), w).
Definition modify (f : World -> World) : M unit := fun w => (Ok tt, f w).

(** [try: m except E: h e] for the exceptions [E] selects. *)
Definition try_except {A} (m : M A) (catches : exn -> bool) (h : exn -> M A) : M A :=
  fun w =>
    match m w with
    | (Raise e, w') => if catches e then h e w' else (Raise e, w')
    | r => r
    end.

Definition set_heap (h : gmap nat Macro) (w : World) : World :=
  {| heap := h; macro_variables := macro_variables w; emitted := emitted w;
     logged := logged w; schedule := schedule w |}.

Definition set_macro_variables (s : gmap string value) (w : World) : World :=
  {| heap := heap w; macro_variables := s; emitted := emitted w;
     logged := logged w; schedule := schedule w |}.

Definition set_emitted (t : list emission) (w : World) : World :=
  {| heap := heap w; macro_variables := macro_variables w; emitted := t;
     logged := logged w; schedule := schedule w |}.

Definition set_logged (l : list log_line) (w : World) : World :=
  {| heap := heap w; macro_variables := macro_variables w; emitted := emitted w;
     logged := l; schedule := schedule w |}.

Definition set_schedule (s : list happening) (w : World) : World :=
  {| heap := heap w; macro_variables := macro_variables w; emitted := emitted w;
     logged := logged w; schedule := s |}.

Definition logger (l : log_line) : M unit :=
  modify (fun w => set_logged (logged w ++ [l]) w).

(** Reading and updating the object at an address. *)
Definition the_macro (self : nat) : M Macro :=
  fun w =>
    match heap w !! self with
    | Some m => (Ok m, w)
    | None => (Stop Dangling, w)
    end.

Definition update_macro (self : nat) (f : Macro -> Macro) : M unit :=
  fun w =>
    match heap w !! self with
    | Some m => (Ok tt, set_heap (<[self := f m]> (heap w)) w)
    | None => (Stop Dangling, w)
    end.

Definition with_tasks (x : list task) (m : Macro) : Macro :=
  {| code := code m; context := context m; tasks := x;
     _trigger_release_event := _trigger_release_event m;
     _trigger_press_event := _trigger_press_event m; running := running m;
     capabilities := capabilities m; child_macros := child_macros m;
     keystroke_sleep_ms := keystroke_sleep_ms m;
     _new_event_arrived := _new_event_arrived m;
     _newest_event := _newest_event m; _newest_action := _newest_action m |}.

Definition with_trigger (release press : bool) (m : Macro) : Macro :=
  {| code := code m; context := context m; tasks := tasks m;
     _trigger_release_event := release;
     _trigger_press_event := press; running := running m;
     capabilities := capabilities m; child_macros := child_macros m;
     keystroke_sleep_ms := keystroke_sleep_ms m;
     _new_event_arrived := _new_event_arrived m;
     _newest_event := _newest_event m; _newest_action := _newest_action m |}.

Definition with_running (x : bool) (m : Macro) : Macro :=
  {| code := code m; context := context m; tasks := tasks m;
     _trigger_release_event := _trigger_release_event m;
     _trigger_press_event := _trigger_press_event m; running := x;
     capabilities := capabilities m; child_macros := child_macros m;
     keystroke_sleep_ms := keystroke_sleep_ms m;
     _new_event_arrived := _new_event_arrived m;
     _newest_event := _newest_event m; _newest_action := _newest_action m |}.

Definition with_capabilities (x : gmap value (gset value)) (m : Macro) : Macro :=
  {| code := code m; context := context m; tasks := tasks m;
     _trigger_release_event := _trigger_release_event m;
     _trigger_press_event := _trigger_press_event m; running := running m;
     capabilities := x; child_macros := child_macros m;
     keystroke_sleep_ms := keystroke_sleep_ms m;
     _new_event_arrived := _new_event_arrived m;
     _newest_event := _newest_event m; _newest_action := _newest_action m |}.

Definition with_child_macros (x : list value) (m : Macro) : Macro :=
  {| code := code m; context := context m; tasks := tasks m;
     _trigger_release_event := _trigger_release_event m;
     _trigger_press_event := _trigger_press_event m; running := running m;
     capabilities := capabilities m; child_macros := x;
     keystroke_sleep_ms := keystroke_sleep_ms m;
     _new_event_arrived := _new_event_arrived m;
     _newest_event := _newest_event m; _newest_action := _newest_action m |}.

Definition with_keystroke_sleep_ms (x : value) (m : Macro) : Macro :=
  {| code := code m; context := context m; tasks := tasks m;
     _trigger_release_event := _trigger_release_event m;
     _trigger_press_event := _trigger_press_event m; running := running m;
     capabilities := capabilities m; child_macros := child_macros m;
     keystroke_sleep_ms := x;
     _new_event_arrived := _new_event_arrived m;
     _newest_event := _newest_event m; _newest_action := _newest_action m |}.

Definition with_new_event_arrived (x : bool) (m : Macro) : Macro :=
  {| code := code m; context := context m; tasks := tasks m;
     _trigger_release_event := _trigger_release_event m;
     _trigger_press_event := _trigger_press_event m; running := running m;
     capabilities := capabilities m; child_macros := child_macros m;
     keystroke_sleep_ms := keystroke_sleep_ms m;
     _new_event_arrived := x;
     _newest_event := _newest_event m; _newest_action := _newest_action m |}.

Definition with_newest (e : option InputEvent) (a : option Action) (m : Macro) : Macro :=
  {| code := code m; context := context m; tasks := tasks m;
     _trigger_release_event := _trigger_release_event m;
     _trigger_press_event := _trigger_press_event m; running := running m;
     capabilities := capabilities m; child_macros := child_macros m;
     keystroke_sleep_ms := keystroke_sleep_ms m;
     _new_event_arrived := _new_event_arrived m;
     _newest_event := e; _newest_action := a |}.

Definition lift {A} (r : exn + A) : M A :=
  fun w => match r with inl e => (Raise e, w) | inr a => (Ok a, w) end.

(** ** Validating parameters *)

Definition quote : string := String (Ascii.ascii_of_nat 34) EmptyString.

(** [Variable.__repr__] and [Macro.__repr__]. *)
Definition Variable_repr (name : string) : string :=
  "<Variable " +:+ quote +:+ name +:+ quote +:+ ">".

Definition Macro_repr (w : World) (addr : nat) : string :=
  "<Macro " +:+ quote +:+ default "None" (m ← heap w !! addr; code m) +:+ quote +:+ ">".

(** [re.match(r"^[A-Za-z_][A-Za-z_0-9]*$", name)]: a letter or an
    underscore, then letters, digits and underscores up to the end of the
    string, where [$] also matches in front of one last newline. *)
Definition is_name_start (c : Ascii.ascii) : bool :=
  let n := Ascii.nat_of_ascii c in
  ((65 <=? n) && (n <=? 90) || (97 <=? n) && (n <=? 122) || (n =? 95))%nat.

Definition is_name_char (c : Ascii.ascii) : bool :=
  let n := Ascii.nat_of_ascii c in
  is_name_start c || ((48 <=? n) && (n <=? 57))%nat.

Fixpoint is_name_tail (s : string) : bool :=
  match s with
  | EmptyString => true
  | String c rest =>
      if is_name_char c then is_name_tail rest
      else (Ascii.nat_of_ascii c =? 10)%nat && match rest with EmptyString => true | _ => false end
  end.

Definition variable_name_matches (s : string) : bool :=
  match s with
  | EmptyString => false
  | String c rest => is_name_start c && is_name_tail rest
  end.

(** The decimal numeral of an int. *)
Definition decimal_of_int (z : Z) : string := NilZero.string_of_int (Z.to_int z).

Section Engine.

Variable env : Environment.

(** [str(value)]; [None] is the [ValueError] of an int with too many
    digits. *)
Definition py_str (w : World) (v : value) : option string :=
  match v with
  | VNone => Some "None"
  | VInt z => str_of_int env z
  | VFloat f => Some (str_of_float env f)
  | VStr s => Some s
  | VVariable _ name => Some (Variable_repr name)
  | VMacro a => Some (Macro_repr w a)
  end.

(** [str(value)] as a step of a builder. *)
Definition str (v : value) : M string :=
  fun w => match py_str w v with Some s => (Ok s, w) | None => (Raise PyValueError, w) end.

(** [allowed_type(value)]: [int] truncates a finite float, refuses NaN
    with a [ValueError] and an infinity with an [OverflowError], and
    parses a string; [float] converts an int and parses a string; [str]
    takes anything but an int with too many digits, a [ValueError];
    [Macro(value)] lacks the argument [context], a [TypeError]. *)
Definition construct (w : World) (k : kind) (v : value) : attempt :=
  match k with
  | KInt =>
      match v with
      | VInt z => Built (VInt z)
      | VFloat (S754_zero _) => Built (VInt 0)
      | VFloat (S754_finite s m e) => Built (VInt (float_trunc s m e))
      | VFloat S754_nan => Swallowed
      | VFloat (S754_infinity _) => Escaped PyOverflowError
      | VStr s =>
          match int_of_str env s with Some z => Built (VInt z) | None => Swallowed end
      | _ => Swallowed
      end
  | KFloat =>
      match v with
      | VInt z =>
          match float_of_int env z with
          | Some f => Built (VFloat f)
          | None => Escaped PyOverflowError
          end
      | VFloat f => Built (VFloat f)
      | VStr s =>
          match float_of_str env s with Some f => Built (VFloat f) | None => Swallowed end
      | _ => Swallowed
      end
  | KStr =>
      match py_str w v with
      | Some s => Built (VStr s)
      | None => Swallowed
      end
  | KMacro => Swallowed
  | KNone => Swallowed
  end.

(** The loop of [_type_check] over [allowed_types]; [None] when it ends
    without a [return]. *)
Fixpoint try_allowed_types (w : World) (v : value) (allowed_types : list kind)
  : option (exn + value) :=
  match allowed_types with
  | [] => None
  | KNone :: rest =>
      match v with
      | VNone => Some (inr v)
      | _ => try_allowed_types w v rest
      end
  | allowed_type :: rest =>
      match construct w allowed_type v with
      | Built v' => Some (inr v')
      | Escaped e => Some (inl e)
      | Swallowed =>
          if isinstance v allowed_type then Some (inr v)
          else try_allowed_types w v rest
      end
  end.

Definition _type_check (w : World) (v : value) (allowed_types : list kind)
    (display_name : option string) (position : option Z) : exn + value :=
  match v with
  | VVariable _ _ => inr v
  | _ =>
      match try_allowed_types w v allowed_types with
      | Some r => r
      | None =>
          match py_str w v with
          | None => inl PyValueError
          | Some _ =>
              match display_name, position with
              | Some d, Some p => inl (ExpectedParameter (Some (d, p)))
              | _, _ => inl (ExpectedParameter None)
              end
          end
      end
  end.

Definition _type_check_keyname (w : World) (keyname : value) : exn + value :=
  match keyname with
  | VVariable _ _ => inr keyname
  | _ =>
      match py_str w keyname with
      | None => inl PyValueError
      | Some symbol =>
          match system_mapping env symbol with
          | None => inl PyKeyError
          | Some c => inr (VInt c)
          end
      end
  end.

(** The message of the [SyntaxError] is an f-string over [name]: for an
    int with too many digits it raises a [ValueError] of its own. *)
Definition _type_check_variablename (name : value) : exn + string :=
  match name with
  | VStr s => if variable_name_matches s then inr s else inl PySyntaxError
  | VInt z =>
      match str_of_int env z with
      | Some _ => inl PySyntaxError
      | None => inl PyValueError
      end
  | _ => inl PySyntaxError
  end.

(** The validators as steps of a builder or of a task. *)
Definition type_check (v : value) (allowed_types : list kind)
    (display_name : option string) (position : option Z) : M value :=
  fun w => lift (_type_check w v allowed_types display_name position) w.

Definition type_check_keyname (keyname : value) : M value :=
  fun w => lift (_type_check_keyname w keyname) w.

(** [macro_variables.get(key)]: the names that [set] writes are
    strings, under any other key there is nothing. *)
Definition stored_value (w : World) (key : value) : value :=
  match key with
  | VStr name => default VNone (macro_variables w !! name)
  | _ => VNone
  end.

(** [Variable.resolve]: [macro_variables.get(self.name)]. *)
Definition Variable_resolve (name : string) : M value :=
  gets (fun w => default VNone (macro_variables w !! name)).

Definition _resolve (argument : value) (allowed_types : list kind) : M value :=
  match argument with
  | VVariable _ name =>
      val <- Variable_resolve name ;;
      logger (log_is argument val) ;;;
      match allowed_types with
      | [] => ret val
      | _ => type_check val allowed_types None None
      end
  | _ => ret argument
  end.

(** ** Building a macro *)

(** [Macro.__init__]. *)
Definition Macro_init (code : option string) (context : option value) : Macro :=
  {| code := code; context := context; tasks := [];
     _trigger_release_event := true; _trigger_press_event := false;
     running := false;
     capabilities := {[ VInt EV_KEY := ∅; VInt EV_REL := ∅ ]};
     child_macros := []; keystroke_sleep_ms := VNone;
     _new_event_arrived := false; _newest_event := None;
     _newest_action := None |}.

(** [Macro(code, context)]: a new object at an unused address. *)
Definition new_Macro (code : option string) (context : option value) : M nat :=
  fun w =>
    let addr := fresh (dom (heap w)) in
    (Ok addr, set_heap (<[addr := Macro_init code context]> (heap w)) w).

Definition tasks_append (self : nat) (t : task) : M unit :=
  update_macro self (fun m => with_tasks (tasks m ++ [t]) m).

Definition child_macros_append (self : nat) (macro : value) : M unit :=
  update_macro self (fun m => with_child_macros (child_macros m ++ [macro]) m).

(** [self.capabilities[ev_type].add(code)]; a [KeyError] when the
    dictionary has no such key. *)
Definition capabilities_add (self : nat) (ev_type code : value) : M unit :=
  m <- the_macro self ;;
  match capabilities m !! ev_type with
  | Some codes =>
      update_macro self (with_capabilities (<[ev_type := codes ∪ {[code]}]> (capabilities m)))
  | None => raise PyKeyError
  end.

Definition add_mouse_capabilities (self : nat) : M unit :=
  capabilities_add self (VInt EV_REL) (VInt REL_X) ;;;
  capabilities_add self (VInt EV_REL) (VInt REL_Y) ;;;
  capabilities_add self (VInt EV_REL) (VInt REL_WHEEL) ;;;
  capabilities_add self (VInt EV_REL) (VInt REL_HWHEEL).

Definition add_hold (self : nat) (macro : value) : M unit :=
  type_check macro [KMacro; KStr; KNone] (Some "h (hold)") (Some 1) ;;;
  match macro with
  | VNone => tasks_append self hold_wait_task
  | VMacro child =>
      tasks_append self (hold_macro_task child) ;;;
      child_macros_append self macro
  | _ =>
      code <- type_check_keyname macro ;;
      capabilities_add self (VInt EV_KEY) code ;;;
      tasks_append self (hold_key_task code)
  end.

Definition add_modify (self : nat) (modifier macro : value) : M unit :=
  type_check macro [KMacro] (Some "m (modify)") (Some 2) ;;;
  modifier <- str modifier ;;
  match system_mapping env modifier with
  | None => raise PyKeyError
  | Some code =>
      capabilities_add self (VInt EV_KEY) (VInt code) ;;;
      child_macros_append self macro ;;;
      tasks_append self (modify_task (VInt code) macro)
  end.

Definition add_repeat (self : nat) (repeats macro : value) : M unit :=
  repeats <- type_check repeats [KInt] (Some "r (repeat)") (Some 1) ;;
  type_check macro [KMacro] (Some "r (repeat)") (Some 2) ;;;
  tasks_append self (repeat_task repeats macro) ;;;
  child_macros_append self macro.

Definition add_key (self : nat) (symbol : value) : M unit :=
  type_check_keyname symbol ;;;
  symbol <- str symbol ;;
  let code := match system_mapping env symbol with Some c => VInt c | None => VNone end in
  capabilities_add self (VInt EV_KEY) code ;;;
  tasks_append self (key_task code).

(** [if isinstance(x, str): x = ecodes[x.upper()]]. *)
Definition ecodes_of_name (x : value) : M value :=
  match x with
  | VStr name =>
      match ecodes env (upper env name) with
      | Some c => ret (VInt c)
      | None => raise PyKeyError
      end
  | _ => ret x
  end.

Definition add_event (self : nat) (type_ code value_ : value) : M unit :=
  type_ <- type_check type_ [KInt; KStr] (Some "e (event)") (Some 1) ;;
  code <- type_check code [KInt; KStr] (Some "e (event)") (Some 2) ;;
  value_ <- type_check value_ [KInt; KStr] (Some "e (event)") (Some 3) ;;
  type_ <- ecodes_of_name type_ ;;
  code <- ecodes_of_name code ;;
  m <- the_macro self ;;
  (match capabilities m !! type_ with
   | None => update_macro self (with_capabilities (<[type_ := ∅]> (capabilities m)))
   | Some _ => ret tt
   end) ;;;
  (if py_eq type_ (VInt EV_REL) then
     capabilities_add self (VInt EV_REL) (VInt REL_X) ;;;
     capabilities_add self (VInt EV_REL) (VInt REL_Y) ;;;
     capabilities_add self (VInt EV_REL) (VInt REL_WHEEL)
   else ret tt) ;;;
  capabilities_add self type_ code ;;;
  tasks_append self (event_task type_ code value_) ;;;
  tasks_append self keycode_pause_task.

(** [table[direction.lower()]] for the two tables of directions: only a
    string has [lower], and only four strings are keys. *)
Definition direction_lookup (table : list (string * (Z * Z))) (direction : value)
  : M (Z * Z) :=
  match direction with
  | VStr d =>
      match List.find (fun entry => String.eqb (fst entry) (lower env d)) table with
      | Some entry => ret (snd entry)
      | None => raise PyKeyError
      end
  | _ => raise PyAttributeError
  end.

Definition mouse_directions : list (string * (Z * Z)) :=
  [("up", (REL_Y, -1)); ("down", (REL_Y, 1));
   ("left", (REL_X, -1)); ("right", (REL_X, 1))].

Definition wheel_directions : list (string * (Z * Z)) :=
  [("up", (REL_WHEEL, 1)); ("down", (REL_WHEEL, -1));
   ("left", (REL_HWHEEL, 1)); ("right", (REL_HWHEEL, -1))].

Definition add_mouse (self : nat) (direction speed : value) : M unit :=
  type_check direction [KStr] (Some "mouse") (Some 1) ;;;
  speed <- type_check speed [KInt] (Some "mouse") (Some 2) ;;
  cv <- direction_lookup mouse_directions direction ;;
  add_mouse_capabilities self ;;;
  tasks_append self (mouse_task (fst cv) (snd cv) speed).

Definition add_wheel (self : nat) (direction speed : value) : M unit :=
  type_check direction [KStr] (Some "wheel") (Some 1) ;;;
  speed <- type_check speed [KInt] (Some "wheel") (Some 2) ;;
  cv <- direction_lookup wheel_directions direction ;;
  add_mouse_capabilities self ;;;
  tasks_append self (wheel_task (fst cv) (snd cv) speed).

Definition add_wait (self : nat) (time : value) : M unit :=
  time <- type_check time [KInt; KFloat] (Some "wait") (Some 1) ;;
  tasks_append self (wait_task time).

Definition add_set (self : nat) (variable value_ : value) : M unit :=
  variable <- lift (_type_check_variablename variable) ;;
  tasks_append self (set_task variable value_).

(** [if isinstance(x, Macro): self.child_macros.append(x)]. *)
Definition child_macros_append_if_Macro (self : nat) (x : value) : M unit :=
  match x with
  | VMacro _ => child_macros_append self x
  | _ => ret tt
  end.

Definition add_ifeq (self : nat) (variable value_ then_ else_ : value) : M unit :=
  type_check then_ [KMacro; KNone] (Some "ifeq") (Some 3) ;;;
  type_check else_ [KMacro; KNone] (Some "ifeq") (Some 4) ;;;
  child_macros_append_if_Macro self then_ ;;;
  child_macros_append_if_Macro self else_ ;;;
  tasks_append self (ifeq_task variable value_ then_ else_).

Definition add_if_eq (self : nat) (value_1 value_2 then_ else_ : value) : M unit :=
  type_check then_ [KMacro; KNone] (Some "if_eq") (Some 3) ;;;
  type_check else_ [KMacro; KNone] (Some "if_eq") (Some 4) ;;;
  child_macros_append_if_Macro self then_ ;;;
  child_macros_append_if_Macro self else_ ;;;
  tasks_append self (if_eq_task value_1 value_2 then_ else_).

Definition add_if_tap (self : nat) (then_ else_ timeout : value) : M unit :=
  type_check then_ [KMacro; KNone] (Some "if_tap") (Some 1) ;;;
  type_check else_ [KMacro; KNone] (Some "if_tap") (Some 2) ;;;
  timeout <- type_check timeout [KInt; KFloat] (Some "if_tap") (Some 3) ;;
  child_macros_append_if_Macro self then_ ;;;
  child_macros_append_if_Macro self else_ ;;;
  tasks_append self (if_tap_task then_ else_ timeout).

Definition add_if_single (self : nat) (then_ else_ timeout : value) : M unit :=
  type_check then_ [KMacro; KNone] (Some "if_single") (Some 1) ;;;
  type_check else_ [KMacro; KNone] (Some "if_single") (Some 2) ;;;
  child_macros_append_if_Macro self then_ ;;;
  child_macros_append_if_Macro self else_ ;;;
  tasks_append self (if_single_task then_ else_ timeout).

(** ** Capabilities of a macro and its children *)

(** What the loop over [macro_capabilities] does to [capabilities]: the
    codes of every event type are united. *)
Definition merge_capabilities (a b : gmap value (gset value)) : gmap value (gset value) :=
  union_with (fun x y => Some (x ∪ y)) a b.

(** [Macro.get_capabilities].  The recursion follows [child_macros]; its
    depth is bounded by [fuel].  A child that is not a macro has no such
    method.  [copy.deepcopy(self.capabilities)] is read as the
    capabilities themselves: that is what it is for the ints, the
    strings and the [None] among the types and codes, which are their
    own copies.  A variable among the codes is copied as a new object in
    Python and returned as it is here; what is proved of the result is
    stated for ints. *)
Fixpoint get_capabilities (fuel : nat) (w : World) (self : value)
  : result (gmap value (gset value)) :=
  match fuel with
  | O => Stop Exhausted
  | S fuel' =>
      match self with
      | VMacro addr =>
          match heap w !! addr with
          | None => Stop Dangling
          | Some m =>
              foldl
                (fun acc macro =>
                   match acc with
                   | Ok caps =>
                       match get_capabilities fuel' w macro with
                       | Ok macro_capabilities =>
                           Ok (merge_capabilities caps macro_capabilities)
                       | Raise e => Raise e
                       | Stop s => Stop s
                       end
                   | _ => acc
                   end)
                (Ok (capabilities m)) (child_macros m)
          end
      | _ => Raise PyAttributeError
      end
  end.

(** ** The trigger and the event observer *)

Fixpoint for_each {A} (l : list A) (f : A -> M unit) : M unit :=
  match l with
  | [] => ret tt
  | x :: rest => f x ;;; for_each rest f
  end.

Definition is_holding (m : Macro) : bool := negb (_trigger_release_event m).

Fixpoint press_trigger (fuel : nat) (self : value) : M unit :=
  match fuel with
  | O => stop_with Exhausted
  | S fuel' =>
      match self with
      | VMacro addr =>
          m <- the_macro addr ;;
          if is_holding m then logger log_already_holding
          else
            update_macro addr (with_trigger false true) ;;;
            for_each (child_macros m) (press_trigger fuel')
      | _ => raise PyAttributeError
      end
  end.

Fixpoint release_trigger (fuel : nat) (self : value) : M unit :=
  match fuel with
  | O => stop_with Exhausted
  | S fuel' =>
      match self with
      | VMacro addr =>
          m <- the_macro addr ;;
          update_macro addr (with_trigger true false) ;;;
          for_each (child_macros m) (release_trigger fuel')
      | _ => raise PyAttributeError
      end
  end.

Fixpoint notify (fuel : nat) (event : InputEvent) (action : Action) (self : value) : M unit :=
  match fuel with
  | O => stop_with Exhausted
  | S fuel' =>
      match self with
      | VMacro addr =>
          m <- the_macro addr ;;
          for_each (child_macros m) (notify fuel' event action) ;;;
          update_macro addr
            (fun m => with_new_event_arrived true (with_newest (Some event) (Some action) m))
      | _ => raise PyAttributeError
      end
  end.

(** ** Suspension *)

(** What a happening does to the world.  The calls are made by the
    injector, not by the task of the macro: an exception they raise is
    not the task's, and only their effect on the objects counts.  The
    recursion over the children is as deep as there are objects. *)
Definition happen (h : happening) (w : World) : World :=
  let fuel := S (size (heap w)) in
  match h with
  | trigger_pressed addr => snd (press_trigger fuel (VMacro addr) w)
  | trigger_released addr => snd (release_trigger fuel (VMacro addr) w)
  | notified addr event action => snd (notify fuel event action (VMacro addr) w)
  | variable_written name val =>
      set_macro_variables (<[name := val]> (macro_variables w)) w
  | timer_fires | deadline_expires | cancellation => w
  end.

(** The next thing that happens while the task is suspended, if the
    schedule has one. *)
Definition next_happening : M (option happening) :=
  fun w =>
    match schedule w with
    | [] => (Ok None, w)
    | h :: rest => (Ok (Some h), happen h (set_schedule rest w))
    end.

(** [await asyncio.sleep(delay)]: the task is suspended until the timer
    fires or the task is cancelled.  A schedule that ends first leaves
    the timer to fire with nothing else happening. *)
Fixpoint sleep_through (k : nat) : M unit :=
  match k with
  | O => ret tt
  | S k' =>
      h <- next_happening ;;
      match h with
      | None | Some timer_fires => ret tt
      | Some cancellation => raise CancelledError
      | Some _ => sleep_through k'
      end
  end.

Definition asyncio_sleep : M unit :=
  fun w => sleep_through (length (schedule w)) w.

(** [await event.wait()] on the event [flag] of [self]: returns at once
    when the event is set, otherwise the task is suspended until a
    happening sets it.  Inside [asyncio.wait_for] ([armed]) the deadline
    ends the wait with a [TimeoutError].  A schedule that ends first
    leaves the task waiting.  The waiter resumes with the happening that
    sets the event; asyncio resumes it on a later turn of the loop
    without looking at the event again, so nothing here is proved from
    the event being set when the wait returns. *)
Fixpoint wait_through (k : nat) (self : nat) (flag : Macro -> bool) (armed : bool) : M unit :=
  match k with
  | O => stop_with Blocked
  | S k' =>
      h <- next_happening ;;
      match h with
      | None => stop_with Blocked
      | Some cancellation => raise CancelledError
      | Some deadline_expires =>
          if armed then raise TimeoutError else wait_through k' self flag armed
      | Some _ =>
          m <- the_macro self ;;
          if flag m then ret tt else wait_through k' self flag armed
      end
  end.

Definition Event_wait (self : nat) (flag : Macro -> bool) (armed : bool) : M unit :=
  m <- the_macro self ;;
  if flag m then ret tt
  else fun w => wait_through (length (schedule w)) self flag armed w.

(** [Macro._wait_for_event].  Every round but the first takes at least
    one happening off the schedule, which bounds the rounds by [k]. *)
Fixpoint _wait_for_event (k : nat) (self : nat)
    (filter : option (option InputEvent -> option Action -> exn + bool))
    (armed : bool) : M unit :=
  match k with
  | O => stop_with Blocked
  | S k' =>
      Event_wait self _new_event_arrived armed ;;;
      update_macro self (with_new_event_arrived false) ;;;
      match filter with
      | None => ret tt
      | Some f =>
          m <- the_macro self ;;
          pass <- lift (f (_newest_event m) (_newest_action m)) ;;
          if pass : bool then ret tt else _wait_for_event k' self filter armed
      end
  end.

(** ** Arithmetic of the tasks *)

(** [x / 1000]: a [TypeError] unless [x] is a number, an [OverflowError]
    for an int whose quotient rounds to no float (to [2^1024] or
    beyond).  Time is not modelled: of the quotient only the sign is
    kept, [true] when it is [<= 0]; that includes a positive float
    [m * 2^e] so small that the quotient rounds to zero (at most
    [2^-1075]). *)
Definition div_1000_nonpositive (x : value) : exn + bool :=
  match x with
  | VInt z =>
      if 1000 * (2 ^ 1024 - 2 ^ 970) <=? Z.abs z then inl PyOverflowError
      else inr (z <=? 0)
  | VFloat (S754_zero _) => inr true
  | VFloat (S754_infinity s) => inr s
  | VFloat S754_nan => inr false
  | VFloat (S754_finite s m e) =>
      inr (s || (if 0 <=? e + 1075 then Z.pos m * 2 ^ (e + 1075) <=? 1000
                 else Z.pos m <=? 1000 * 2 ^ (- (e + 1075))))
  | _ => inl PyTypeError
  end.

(** [1 / x]: only whether it raises. *)
Definition reciprocal (x : value) : exn + unit :=
  match x with
  | VInt z => if z =? 0 then inl PyZeroDivisionError else inr tt
  | VFloat (S754_zero _) => inl PyZeroDivisionError
  | VFloat _ => inr tt
  | _ => inl PyTypeError
  end.

(** [bool(x)]. *)
Definition truthy (x : value) : bool :=
  match x with
  | VNone => false
  | VInt z => negb (z =? 0)
  | VFloat (S754_zero _) => false
  | VStr EmptyString => false
  | _ => true
  end.

(** ** Running the tasks *)

(** [handler(type, code, value)]: the call is recorded whether the
    handler returns or raises. *)
Definition call (handler : Handler) (e : emission) : M unit :=
  match handler with
  | not_callable => raise PyTypeError
  | callable raises =>
      fun w =>
        let w' := set_emitted (emitted w ++ [e]) w in
        match raises (emitted w) e with
        | Some x => (Raise x, w')
        | None => (Ok tt, w')
        end
  end.

Definition _keycode_pause (self : nat) : M unit :=
  m <- the_macro self ;;
  lift (div_1000_nonpositive (keystroke_sleep_ms m)) ;;;
  asyncio_sleep.

(** [while self.is_holding(): body]; [k] bounds the rounds. *)
Fixpoint while_holding (k : nat) (self : nat) (body : M unit) : M unit :=
  m <- the_macro self ;;
  if is_holding m then
    match k with
    | O => stop_with Exhausted
    | S k' => body ;;; while_holding k' self body
    end
  else ret tt.

(** [for _ in range(n): body]. *)
Fixpoint repeat_times (n : nat) (body : M unit) : M unit :=
  match n with
  | O => ret tt
  | S n' => body ;;; repeat_times n' body
  end.

(** The [wait] of [add_if_tap]. *)
Definition if_tap_wait (self : nat) : M unit :=
  m <- the_macro self ;;
  if is_holding m then Event_wait self _trigger_release_event true
  else
    Event_wait self _trigger_press_event true ;;;
    Event_wait self _trigger_release_event true.

(** [asyncio.wait_for(inner, timeout)] where [nonpositive] tells whether
    [timeout <= 0], in which case the inner coroutine is cancelled before
    it starts. *)
Definition wait_for (inner : M unit) (nonpositive : bool) : M unit :=
  if nonpositive then raise TimeoutError else inner.

(** The [event_filter] of [add_if_single]. *)
Definition event_filter (triggering_event : Z * Z)
    (event : option InputEvent) (action : option Action) : exn + bool :=
  match event with
  | None => inl PyAttributeError
  | Some ev =>
      if bool_decide ((ev_type ev, ev_code ev) = triggering_event) then inr true
      else
        match action with
        | Some PRESS | Some PRESS_NEGATIVE => inr true
        | _ => inr false
        end
  end.

(** [(self._newest_event.type, self._newest_event.code)]. *)
Definition newest_event_key (self : nat) : M (Z * Z) :=
  m <- the_macro self ;;
  match _newest_event m with
  | None => raise PyAttributeError
  | Some ev => ret (ev_type ev, ev_code ev)
  end.

Definition is_TimeoutError (e : exn) : bool :=
  match e with TimeoutError => true | _ => false end.

(** [if branch is not None: await branch.run(handler)]. *)
Definition run_unless_None (run_child : value -> M unit) (branch : value) : M unit :=
  match branch with
  | VNone => ret tt
  | _ => run_child branch
  end.

(** [if branch: await branch.run(handler)]. *)
Definition run_if_truthy (run_child : value -> M unit) (branch : value) : M unit :=
  if truthy branch then run_child branch else ret tt.

(** One task of the macro [self], called with [handler] and awaited.
    [run_child] is [macro.run(handler)] of another macro; [k] bounds the
    rounds of the loops. *)
Definition run_task (run_child : value -> M unit) (k : nat) (self : nat)
    (handler : Handler) (t : task) : M unit :=
  match t with
  | hold_wait_task => Event_wait self _trigger_release_event false
  | hold_key_task code =>
      resolved_code <- _resolve code [KInt] ;;
      capabilities_add self (VInt EV_KEY) resolved_code ;;;
      call handler (VInt EV_KEY, resolved_code, VInt 1) ;;;
      Event_wait self _trigger_release_event false ;;;
      call handler (VInt EV_KEY, resolved_code, VInt 0)
  | hold_macro_task macro =>
      while_holding k self (run_child (VMacro macro))
  | modify_task code macro =>
      resolved_code <- _resolve code [KInt] ;;
      capabilities_add self (VInt EV_KEY) resolved_code ;;;
      _keycode_pause self ;;;
      call handler (VInt EV_KEY, resolved_code, VInt 1) ;;;
      _keycode_pause self ;;;
      run_child macro ;;;
      _keycode_pause self ;;;
      call handler (VInt EV_KEY, resolved_code, VInt 0) ;;;
      _keycode_pause self
  | repeat_task repeats macro =>
      n <- _resolve repeats [KInt] ;;
      match n with
      | VInt n => repeat_times (Z.to_nat n) (run_child macro)
      | _ => raise PyTypeError
      end
  | key_task code =>
      call handler (VInt EV_KEY, code, VInt 1) ;;;
      _keycode_pause self ;;;
      call handler (VInt EV_KEY, code, VInt 0) ;;;
      _keycode_pause self
  | event_task type_ code value_ => call handler (type_, code, value_)
  | keycode_pause_task => _keycode_pause self
  | mouse_task code value_ speed =>
      speed <- _resolve speed [KInt] ;;
      match speed with
      | VInt speed =>
          while_holding k self
            (call handler (VInt EV_REL, VInt code, VInt (value_ * speed)) ;;;
             _keycode_pause self)
      | _ => raise PyTypeError
      end
  | wheel_task code value_ speed =>
      resolved_speed <- _resolve speed [KInt] ;;
      while_holding k self
        (call handler (VInt EV_REL, VInt code, VInt value_) ;;;
         lift (reciprocal resolved_speed) ;;;
         asyncio_sleep)
  | wait_task time =>
      time <- _resolve time [KInt; KFloat] ;;
      lift (div_1000_nonpositive time) ;;;
      asyncio_sleep
  | set_task variable value_ =>
      resolved_value <- _resolve value_ [] ;;
      logger (log_set_to variable resolved_value) ;;;
      modify (fun w => set_macro_variables (<[variable := value_]> (macro_variables w)) w)
  | ifeq_task variable value_ then_ else_ =>
      set_value <- gets (fun w => stored_value w variable) ;;
      logger (log_is variable set_value) ;;;
      if py_eq set_value value_ then run_unless_None run_child then_
      else run_unless_None run_child else_
  | if_eq_task value_1 value_2 then_ else_ =>
      resolved_value_1 <- _resolve value_1 [] ;;
      resolved_value_2 <- _resolve value_2 [] ;;
      if py_eq resolved_value_1 resolved_value_2 then run_unless_None run_child then_
      else run_unless_None run_child else_
  | if_tap_task then_ else_ timeout =>
      resolved_timeout <- _resolve timeout [KInt; KFloat] ;;
      nonpositive <- lift (div_1000_nonpositive resolved_timeout) ;;
      try_except
        (wait_for (if_tap_wait self) nonpositive ;;;
         run_if_truthy run_child then_)
        is_TimeoutError
        (fun _ => run_if_truthy run_child else_)
  | if_single_task then_ else_ timeout =>
      triggering_event <- newest_event_key self ;;
      resolved_timeout <- _resolve timeout [KInt; KFloat; KNone] ;;
      rounds <- gets (fun w => S (length (schedule w))) ;;
      done <-
        try_except
          (match resolved_timeout with
           | VNone =>
               _wait_for_event rounds self (Some (event_filter triggering_event)) false
           | _ =>
               nonpositive <- lift (div_1000_nonpositive resolved_timeout) ;;
               wait_for
                 (_wait_for_event rounds self (Some (event_filter triggering_event)) true)
                 nonpositive
           end ;;;
           newest_event <- newest_event_key self ;;
           if bool_decide (triggering_event = newest_event) then
             run_if_truthy run_child then_ ;;;
             ret true
           else ret false)
          is_TimeoutError
          (fun _ => ret false) ;;
      if done : bool then ret tt
      else run_if_truthy run_child else_
  end.

(** The loop of [Macro.run] over the tasks: an [Exception] of a task is
    logged with the code of the macro and ends the loop. *)
Fixpoint run_tasks (run_one : task -> M unit) (code : option string) (ts : list task)
  : M unit :=
  match ts with
  | [] => ret tt
  | t :: rest =>
      fun w =>
        match run_one t w with
        | (Ok _, w') => run_tasks run_one code rest w'
        | (Raise e, w') =>
            if is_Exception e then logger (log_macro_failed code e) w'
            else (Raise e, w')
        | (Stop s, w') => (Stop s, w')
        end
  end.

(** [Macro.run].  [fuel] bounds the depth of the calls from a macro into
    its children and the rounds of the loops of a task. *)
Fixpoint run (fuel : nat) (handler : Handler) (self : value) : M unit :=
  match fuel with
  | O => stop_with Exhausted
  | S fuel' =>
      match self with
      | VMacro addr =>
          match handler with
          | not_callable => raise PyValueError
          | callable _ =>
              m <- the_macro addr ;;
              if running m then logger (log_already_running (code m))
              else
                update_macro addr (with_new_event_arrived false) ;;;
                match context m with
                | None => raise PyAttributeError
                | Some sleep_ms =>
                    update_macro addr (with_keystroke_sleep_ms sleep_ms) ;;;
                    update_macro addr (with_running true) ;;;
                    run_tasks (run_task (run fuel' handler) fuel' addr handler)
                      (code m) (tasks m) ;;;
                    update_macro addr (with_running false)
                end
          end
      | _ => raise PyAttributeError
      end
  end.

End Engine.

(** ** An environment for the examples *)

(** [upper] and [lower] on the letters of ASCII. *)
Definition ascii_upper (c : Ascii.ascii) : Ascii.ascii :=
  let n := Ascii.nat_of_ascii c in
  if ((97 <=? n) && (n <=? 122))%nat then Ascii.ascii_of_nat (n - 32) else c.

Definition ascii_lower (c : Ascii.ascii) : Ascii.ascii :=
  let n := Ascii.nat_of_ascii c in
  if ((65 <=? n) && (n <=? 90))%nat then Ascii.ascii_of_nat (n + 32) else c.

Fixpoint string_map (f : Ascii.ascii -> Ascii.ascii) (s : string) : string :=
  match s with
  | EmptyString => EmptyString
  | String c rest => String (f c) (string_map f rest)
  end.

(** Decimal digits to a number, most significant first. *)
Fixpoint digits_value (acc : Z) (s : string) : option Z :=
  match s with
  | EmptyString => Some acc
  | String c rest =>
      let n := Ascii.nat_of_ascii c in
      if ((48 <=? n) && (n <=? 57))%nat
      then digits_value (10 * acc + Z.of_nat (n - 48)) rest
      else None
  end.

(** A decimal numeral with an optional minus sign. *)
Definition decimal_int (s : string) : option Z :=
  match s with
  | EmptyString => None
  | String c rest =>
      if (Ascii.nat_of_ascii c =? 45)%nat then
        match rest with
        | EmptyString => None
        | _ => Z.opp <$> digits_value 0 rest
        end
      else digits_value 0 s
  end.

(** The code of a name in a table. *)
Definition lookup_name (table : list (string * Z)) (name : string) : option Z :=
  snd <$> List.find (fun entry => String.eqb (fst entry) name) table.

(** The tables hold the few names the examples use, with the codes the
    kernel gives them.  [int(s)] reads a decimal numeral with an
    optional minus sign; [float(n)] is exact for an int up to [2^53],
    and the examples convert no other; they neither parse nor print a
    float; [str(n)] is the decimal numeral of an int of at most 4300
    digits, the limit of CPython 3.11. *)
Definition example_env : Environment :=
  {| int_of_str := decimal_int;
     float_of_str := fun _ => None;
     float_of_int := fun z =>
       if Z.abs z <=? 2 ^ 53 then
         match z with
         | Z0 => Some (S754_zero false)
         | Zpos p => Some (S754_finite false p 0)
         | Zneg p => Some (S754_finite true p 0)
         end
       else None;
     str_of_float := fun _ => EmptyString;
     str_of_int := fun z =>
       if Z.abs z <? 10 ^ 4300 then Some (decimal_of_int z) else None;
     upper := string_map ascii_upper;
     lower := string_map ascii_lower;
     system_mapping :=
       lookup_name [("KEY_A", 30); ("KEY_B", 48); ("KEY_LEFTSHIFT", 42)];
     ecodes :=
       lookup_name [("EV_KEY", 1); ("EV_REL", 2); ("REL_X", 0); ("REL_Y", 1);
                    ("REL_HWHEEL", 6); ("REL_WHEEL", 8); ("KEY_A", 30)] |}.

(** The world before anything is built. *)
Definition empty_world : World :=
  {| heap := ∅; macro_variables := ∅; emitted := []; logged := []; schedule := [] |}.

(** A handler that never raises. *)
Definition silent : Handler := callable (fun _ _ => None).

(** The world after [Macro(code, context)] alone: one object, at address
    0, with a preset whose [macros.keystroke_sleep_ms] is 10. *)
Definition one_macro_world (code : string) : World :=
  snd (new_Macro (Some code) (Some (VInt 10)) empty_world).

(** The field [f] of the macro at [addr]. *)
Definition field {A} (f : Macro -> A) (addr : nat) (w : World) : option A :=
  f <$> heap w !! addr.

(** Whether a computation returned, and whether an object is there. *)
Definition is_Ok {A} (r : result A) : bool :=
  match r with Ok _ => true | _ => false end.

Definition is_there {A} (o : option A) : bool :=
  match o with Some _ => true | None => false end.

(** What a computation returned, [d] if it did not return. *)
Definition returned {A} (d : A) (r : result A) : A :=
  match r with Ok a => a | _ => d end.

(** [declares], decided. *)
Definition declaresb (caps : gmap value (gset value)) (ty c : value) : bool :=
  match caps !! ty with
  | Some codes => bool_decide (c ∈ codes)
  | None => false
  end.

(** The float 2.9: [0x4007333333333333]. *)
Definition float_2_9 : spec_float := S754_finite false 6530219459687219 (-51).

(** [set(a, $b)] in a process where [b] holds 5. *)
Definition copy_world : World :=
  set_macro_variables {[ "b" := VInt 5 ]}
    (snd (add_set example_env 0 (VStr "a") (VVariable 0 "b")
            (one_macro_world "set(a, $b)"))).

(** The codes a macro at [addr] declares for [ev_type] itself. *)
Definition own_codes (ev_type : Z) (addr : nat) (w : World) : option (gset value) :=
  m ← heap w !! addr; capabilities m !! VInt ev_type.

(** A macro that is running. *)
Definition running_macro : Macro :=
  with_running true (Macro_init (Some "k(KEY_A)") (Some (VInt 10))).

Definition running_world : World :=
  set_heap {[ 0%nat := running_macro ]} empty_world.

(** ** The claims as predicates *)

(** The first component of the outcome of a builder is an exception. *)
Definition rejected {A} (outcome : result A * World) : Prop :=
  exists e, fst outcome = Raise e.

(** The speed of a wheel task is 0 when the task runs: the literal, or a
    variable that holds 0. *)
Definition resolves_to_zero (speed : value) (w : World) : Prop :=
  speed = VInt 0 \/
  exists oid name, speed = VVariable oid name /\ macro_variables w !! name = Some (VInt 0).

(** [r(2.9, k(KEY_A))]: the child at address 0, the macro at address 1. *)
Definition repeat_world : World :=
  snd ((child <- new_Macro (Some "k(KEY_A)") (Some (VInt 10)) ;;
        add_key example_env child (VStr "KEY_A") ;;;
        new_Macro (Some "r(2.9, k(KEY_A))") (Some (VInt 10))) empty_world).

Definition repeat_macro : Macro :=
  Macro_init (Some "r(2.9, k(KEY_A))") (Some (VInt 10)).

(** [wheel(up, 0)], built, with the trigger pressed. *)
Definition wheel_world : World :=
  happen (trigger_pressed 0)
    (snd (add_wheel example_env 0 (VStr "up") (VInt 0) (one_macro_world "wheel(up, 0)"))).

(** The world in which the loop of [run] over the tasks starts, for the
    macro [m] at [addr] and the pause [sleep_ms] of the preset. *)
Definition started (addr : nat) (m : Macro) (sleep_ms : value) (w : World) : World :=
  set_heap
    (<[addr := with_running true
                 (with_keystroke_sleep_ms sleep_ms (with_new_event_arrived false m))]>
       (heap w)) w.

(** [k(KEY_A).w($t).k(KEY_B)] where nothing has set [t]. *)
Definition failing_world : World :=
  snd ((add_key example_env 0 (VStr "KEY_A") ;;;
        add_wait example_env 0 (VVariable 0 "t") ;;;
        add_key example_env 0 (VStr "KEY_B"))
         (one_macro_world "k(KEY_A).w($t).k(KEY_B)")).

(** Pressing and releasing the key [c]. *)
Definition key_down (c : value) : emission := (VInt EV_KEY, c, VInt 1).
Definition key_up (c : value) : emission := (VInt EV_KEY, c, VInt 0).

(** Every key pressed in the trace is released later in the trace. *)
Definition released_within (trace : list emission) : Prop :=
  forall i c, trace !! i = Some (key_down c) ->
    exists j, (i < j)%nat /\ trace !! j = Some (key_up c).

(** The tasks that press a key themselves. *)
Definition presses_a_key (t : task) : bool :=
  match t with
  | key_task _ | hold_key_task _ | modify_task _ _ => true
  | _ => false
  end.

(** [h(KEY_A)] with the trigger held, in a task that is cancelled while
    it waits for the release. *)
Definition cancelled_hold_world : World :=
  set_schedule [cancellation]
    (happen (trigger_pressed 0)
       (snd (add_hold example_env 0 (VStr "KEY_A") (one_macro_world "h(KEY_A)")))).

(** [set(foo, 30).h($foo)]: the key of the hold is known when the task
    runs. *)
Definition late_world : World :=
  snd ((add_set example_env 0 (VStr "foo") (VInt 30) ;;;
        add_hold example_env 0 (VVariable 0 "foo"))
         (one_macro_world "set(foo, 30).h($foo)")).

(** The world after [set(foo, 30).h($foo)] has run, and the
    capabilities it then has. *)
Definition late_world_after : World :=
  snd (run example_env 2 silent (VMacro 0) late_world).

Definition late_capabilities_after : gmap value (gset value) :=
  returned ∅ (get_capabilities 1 late_world_after (VMacro 0)).

(** The capabilities it has when it is built. *)
Definition late_capabilities_built : gmap value (gset value) :=
  returned ∅ (get_capabilities 1 late_world (VMacro 0)).

(** [h(KEY_A)] with the trigger held and released later. *)
Definition released_hold_world : World :=
  set_schedule [trigger_released 0]
    (happen (trigger_pressed 0)
       (snd (add_hold example_env 0 (VStr "KEY_A") (one_macro_world "h(KEY_A)")))).

Definition released_hold_world_after : World :=
  snd (run_task example_env (run example_env 1 silent) 1 0 silent
         (hold_key_task (VInt 30)) released_hold_world).

(** The macro of [one_macro_world]. *)
Definition one_macro (code : string) : Macro := Macro_init (Some code) (Some (VInt 10)).

(** ** Operands of the comparisons *)

(** What an operand stands for in [w]: a variable for what the store
    holds under its name, anything else for itself. *)
Definition operand_value (w : World) (v : value) : value :=
  match v with
  | VVariable _ name => default VNone (macro_variables w !! name)
  | _ => v
  end.

(** The debug line that resolving an operand writes. *)
Definition resolve_lines (w : World) (v : value) : list log_line :=
  match v with
  | VVariable _ _ => [log_is v (operand_value w v)]
  | _ => []
  end.

(** The world with more lines in the log. *)
Definition with_lines (lines : list log_line) (w : World) : World :=
  set_logged (logged w ++ lines) w.

(** The literals that are equal to themselves: every int, every string,
    and every float but NaN. *)
Definition is_literal (v : value) : bool :=
  match v with
  | VInt _ | VStr _ => true
  | VFloat f => negb (float_is_nan f)
  | _ => false
  end.

(** What may be given as a branch: a macro or nothing. *)
Definition is_branch (b : value) : Prop := b = VNone \/ exists addr, b = VMacro addr.

(** C4 as it is stated: after the task of [set(x, v)], the task of
    [if_eq($x, v, then, else)] does what running [then] does (in a world
    that differs by debug lines of the log at most). *)
Definition takes_then (env : Environment) (x : string) (v : value) : Prop :=
  forall (run_child : value -> M unit) (k self oid : nat) (handler : Handler)
         (then_ else_ : value) (w : World),
    let w1 := snd (run_task env run_child k self handler (set_task x v) w) in
    exists lines,
      run_task env run_child k self handler (if_eq_task (VVariable oid x) v then_ else_) w1
      = run_unless_None run_child then_ (with_lines lines w1).

(** C5 as it is stated for [ifeq]: the stored value of the variable
    named by the first operand is compared with what the second operand
    stands for. *)
Definition ifeq_dereferences (env : Environment) : Prop :=
  forall (run_child : value -> M unit) (k self : nat) (handler : Handler)
         (variable value_ then_ else_ : value) (w : World),
    exists lines,
      run_task env run_child k self handler (ifeq_task variable value_ then_ else_) w
      = run_unless_None run_child
          (if py_eq (stored_value w variable) (operand_value w value_) then then_ else else_)
          (with_lines lines w).

(** A child that only tells the handler who it is. *)
Definition telltale (macro : value) : M unit := call silent (macro, macro, macro).

(** [set(x, nan).if_eq($x, nan, k(KEY_A), k(KEY_B))]: the branches at the
    addresses 0 and 1, the macro at 2. *)
Definition nan_world : World :=
  snd ((a <- new_Macro (Some "k(KEY_A)") (Some (VInt 10)) ;;
        add_key example_env a (VStr "KEY_A") ;;;
        b <- new_Macro (Some "k(KEY_B)") (Some (VInt 10)) ;;
        add_key example_env b (VStr "KEY_B") ;;;
        m <- new_Macro (Some "set(x, nan).if_eq($x, nan, k(KEY_A), k(KEY_B))")
               (Some (VInt 10)) ;;
        add_set example_env m (VStr "x") (VFloat S754_nan) ;;;
        add_if_eq example_env m (VVariable 0 "x") (VFloat S754_nan) (VMacro a) (VMacro b))
         empty_world).

(** A process where [a] and [b] both hold 1. *)
Definition equal_variables_world : World :=
  set_macro_variables {[ "a" := VInt 1; "b" := VInt 1 ]} empty_world.

(** [k(KEY_A)] at 0, [k(KEY_B)] at 1 and an empty macro at 2, to which
    [if_eq($x, 5, k(KEY_A), k(KEY_B))] is then added. *)
Definition branches_world : World :=
  snd ((a <- new_Macro (Some "k(KEY_A)") (Some (VInt 10)) ;;
        add_key example_env a (VStr "KEY_A") ;;;
        b <- new_Macro (Some "k(KEY_B)") (Some (VInt 10)) ;;
        add_key example_env b (VStr "KEY_B") ;;;
        new_Macro (Some "if_eq($x, 5, k(KEY_A), k(KEY_B))") (Some (VInt 10)))
         empty_world).

Definition if_eq_world : World :=
  snd (add_if_eq example_env 2 (VVariable 0 "x") (VInt 5) (VMacro 0) (VMacro 1)
         branches_world).

Definition if_eq_capabilities : gmap value (gset value) :=
  returned ∅ (get_capabilities 2 if_eq_world (VMacro 2)).

(** ** How a world may change while macros run *)

(** The capabilities [caps] declare the code [c] for the event type
    [ty]. *)
Definition declares (caps : gmap value (gset value)) (ty c : value) : Prop :=
  exists codes, caps !! ty = Some codes /\ c ∈ codes.

(** Capabilities grow: event types stay, and so do their codes. *)
Definition caps_le (a b : gmap value (gset value)) : Prop :=
  forall ty codes, a !! ty = Some codes ->
    exists codes', b !! ty = Some codes' /\ codes ⊆ codes'.

(** What running does to an object: the code, the context, the tasks
    and the children stay as they were built, the capabilities grow, the
    other fields change freely. *)
Record macro_le (m m' : Macro) : Prop := {
  le_code : code m' = code m;
  le_context : context m' = context m;
  le_tasks : tasks m' = tasks m;
  le_child_macros : child_macros m' = child_macros m;
  le_capabilities : caps_le (capabilities m) (capabilities m')
}.

(** What running does to the world: the objects stay the same ones and
    change as above, and emissions are only added. *)
Record world_le (w w' : World) : Prop := {
  le_heap : forall addr, option_Forall2 macro_le (heap w !! addr) (heap w' !! addr);
  le_emitted : emitted w `prefix_of` emitted w'
}.

(** The same with nothing emitted. *)
Definition quiet_step (w w' : World) : Prop :=
  world_le w w' /\ emitted w' = emitted w.

(** A computation that emits nothing. *)
Definition quiet {A} (m : M A) : Prop :=
  forall w r w', m w = (r, w') -> quiet_step w w'.

(** A property of worlds that running cannot undo. *)
Definition persistent (P : World -> Prop) : Prop :=
  forall w w', world_le w w' -> P w -> P w'.

(** ** Emissions under a guard *)

(** What [w'] has emitted that [w] had not. *)
Definition emitted_since (w w' : World) : list emission :=
  drop (length (emitted w)) (emitted w').

(** The macros a task runs. *)
Definition runs_macro (t : task) (macro : value) : Prop :=
  match t with
  | hold_macro_task child => macro = VMacro child
  | modify_task _ child | repeat_task _ child => macro = child
  | ifeq_task _ _ then_ else_ | if_eq_task _ _ then_ else_
  | if_tap_task then_ else_ _ | if_single_task then_ else_ _ =>
      macro = then_ \/ macro = else_
  | _ => False
  end.

(** What a task that resolves its key when it runs may get: the key
    that was stored when the task was built, or anything when that is a
    variable. *)
Definition resolves_to (t : task) (code : value) : Prop :=
  match t with
  | hold_key_task key | modify_task key _ =>
      code = key \/ exists oid name, key = VVariable oid name
  | _ => False
  end.

Section Guard.

(** [allowed w e]: the emission [e] is acceptable in the world [w]. *)
Variable allowed : World -> emission -> Prop.

(** A step of the world in which every new emission is allowed. *)
Definition guarded_step (w w' : World) : Prop :=
  world_le w w' /\ forall e, e ∈ emitted_since w w' -> allowed w' e.

(** A computation that, started where [U] holds, only emits what is
    allowed. *)
Definition respects {A} (U : World -> Prop) (m : M A) : Prop :=
  forall w, U w -> forall r w', m w = (r, w') -> guarded_step w w'.

(** [admitted w addr]: the macro at [addr] may run in [w];
    [well_formed w addr t]: the task [t] of that macro is as a builder
    left it. *)
Variable admitted : World -> nat -> Prop.
Variable well_formed : World -> nat -> task -> Prop.

Definition all_well_formed (w : World) : Prop :=
  forall addr m t, heap w !! addr = Some m -> t ∈ tasks m -> well_formed w addr t.

(** Where a macro, given as a value, may be run. *)
Definition may_run (macro : value) (w : World) : Prop :=
  all_well_formed w /\ match macro with VMacro addr => admitted w addr | _ => True end.

(** Where the task [t] of the macro at [self] may be run. *)
Definition may_run_task (self : nat) (t : task) (w : World) : Prop :=
  all_well_formed w /\ admitted w self /\ well_formed w self t.

End Guard.

(** ** Macros as the builders leave them *)

(** What a builder has done for the task [t] it appended to the macro
    [m]: it has declared what the task emits by itself with codes known
    when it was built, and it has registered the macros the task runs as
    children.  For the key of a hold that is what [_type_check_keyname]
    returned, the code of the key or the variable; the key of a modifier
    is never a variable. *)
Definition task_built (m : Macro) (t : task) : Prop :=
  match t with
  | key_task code | hold_key_task code => declares (capabilities m) (VInt EV_KEY) code
  | modify_task code _ =>
      declares (capabilities m) (VInt EV_KEY) code /\ isinstance code KInt = true
  | event_task type_ code _ => declares (capabilities m) type_ code
  | mouse_task code _ _ | wheel_task code _ _ =>
      declares (capabilities m) (VInt EV_REL) (VInt code)
  | _ => True
  end /\
  forall child, runs_macro t (VMacro child) -> VMacro child ∈ child_macros m.

Definition well_built (w : World) : Prop :=
  forall addr m t, heap w !! addr = Some m -> t ∈ tasks m -> task_built m t.

(** A call of a builder, or of the constructor. *)
Inductive building : Type :=
| build_Macro (code : option string) (context : option value)
| build_hold (self : nat) (macro : value)
| build_modify (self : nat) (modifier macro : value)
| build_repeat (self : nat) (repeats macro : value)
| build_key (self : nat) (symbol : value)
| build_event (self : nat) (type_ code value_ : value)
| build_mouse (self : nat) (direction speed : value)
| build_wheel (self : nat) (direction speed : value)
| build_wait (self : nat) (time : value)
| build_set (self : nat) (variable value_ : value)
| build_ifeq (self : nat) (variable value_ then_ else_ : value)
| build_if_eq (self : nat) (value_1 value_2 then_ else_ : value)
| build_if_tap (self : nat) (then_ else_ timeout : value)
| build_if_single (self : nat) (then_ else_ timeout : value).

Definition build (env : Environment) (b : building) : M unit :=
  match b with
  | build_Macro code context => new_Macro code context ;;; ret tt
  | build_hold self macro => add_hold env self macro
  | build_modify self modifier macro => add_modify env self modifier macro
  | build_repeat self repeats macro => add_repeat env self repeats macro
  | build_key self symbol => add_key env self symbol
  | build_event self type_ code value_ => add_event env self type_ code value_
  | build_mouse self direction speed => add_mouse env self direction speed
  | build_wheel self direction speed => add_wheel env self direction speed
  | build_wait self time => add_wait env self time
  | build_set self variable value_ => add_set env self variable value_
  | build_ifeq self variable value_ then_ else_ =>
      add_ifeq env self variable value_ then_ else_
  | build_if_eq self value_1 value_2 then_ else_ =>
      add_if_eq env self value_1 value_2 then_ else_
  | build_if_tap self then_ else_ timeout => add_if_tap env self then_ else_ timeout
  | build_if_single self then_ else_ timeout =>
      add_if_single env self then_ else_ timeout
  end.

(** The worlds that successful calls of the builders produce, starting
    without any macro, and what running makes of them. *)
Inductive built (env : Environment) : World -> Prop :=
| built_nothing w : heap w = ∅ -> built env w
| built_more b w w' : built env w -> build env b w = (Ok tt, w') -> built env w'
| built_ran w w' : built env w -> world_le w w' -> built env w'.

(** The macro at [addr] is [root] or one of its descendants. *)
Inductive reaches (w : World) : nat -> nat -> Prop :=
| reaches_self root : reaches w root root
| reaches_child root m child addr :
    heap w !! root = Some m -> VMacro child ∈ child_macros m ->
    reaches w child addr -> reaches w root addr.

(** For an emission whose type and code are integers: [root] or one of
    its descendants declares the code for the type. *)
Definition covered (root : nat) (w : World) (e : emission) : Prop :=
  forall ty c : Z, e.1.1 = VInt ty -> e.1.2 = VInt c ->
    exists addr m,
      reaches w root addr /\ heap w !! addr = Some m /\
      declares (capabilities m) (VInt ty) (VInt c).

(** The macro [m'] is the macro [m] after a builder has worked on it. *)
Definition rebuilt (m m' : Macro) : Prop :=
  caps_le (capabilities m) (capabilities m') /\
  child_macros m ⊆ child_macros m' /\
  exists more, tasks m' = tasks m ++ more /\ Forall (task_built m') more.

(** The world [w'] is [w] with the object [m'] at [self]. *)
Definition rewrites (self : nat) (m' : Macro) (w w' : World) : Prop :=
  w' = set_heap (<[self := m']> (heap w)) w.

(** A builder that returned has only changed its macro; the macro still
    has its old tasks, capabilities and children, and what came on top
    is as [task_built] says. *)
Definition builds (self : nat) (w w' : World) : Prop :=
  exists m m', heap w !! self = Some m /\ rewrites self m' w w' /\ rebuilt m m'.

(** C2 as it is stated: the capabilities that [get_capabilities] returns
    for a macro once it is built hold the type and code of whatever a
    later run passes to the handler. *)
Definition declared_when_built (env : Environment) (w : World) (root : nat) : Prop :=
  forall fuel depth handler caps r w' (ty c : Z) (v : value),
    get_capabilities depth w (VMacro root) = Ok caps ->
    run env fuel handler (VMacro root) w = (r, w') ->
    (VInt ty, VInt c, v) ∈ emitted_since w w' ->
    declares caps (VInt ty) (VInt c).

(** C6 as it is stated: however a run of the macro at [addr] ends,
    [running] is false afterwards. *)
Definition running_is_cleared_on_every_exit (env : Environment) (w : World) (addr : nat)
  : Prop :=
  forall fuel handler r w',
    run env fuel handler (VMacro addr) w = (r, w') ->
    (forall s, r <> Stop s) ->
    field running addr w' = Some false.

(** ** What a builder does to its macro *)

(** The macro a call of a builder works on; the constructor works on
    none. *)
Definition builder_self (b : building) : option nat :=
  match b with
  | build_Macro _ _ => None
  | build_hold self _ | build_modify self _ _ | build_repeat self _ _
  | build_key self _ | build_event self _ _ _ | build_mouse self _ _
  | build_wheel self _ _ | build_wait self _ | build_set self _ _
  | build_ifeq self _ _ _ _ | build_if_eq self _ _ _ _
  | build_if_tap self _ _ _ | build_if_single self _ _ _ => Some self
  end.

(** [m'] is [m] with tasks appended, children appended and capabilities
    added; every other field is the same. *)
Record extends (m m' : Macro) : Prop := {
  ext_code : code m' = code m;
  ext_context : context m' = context m;
  ext_trigger_release_event : _trigger_release_event m' = _trigger_release_event m;
  ext_trigger_press_event : _trigger_press_event m' = _trigger_press_event m;
  ext_running : running m' = running m;
  ext_keystroke_sleep_ms : keystroke_sleep_ms m' = keystroke_sleep_ms m;
  ext_new_event_arrived : _new_event_arrived m' = _new_event_arrived m;
  ext_newest_event : _newest_event m' = _newest_event m;
  ext_newest_action : _newest_action m' = _newest_action m;
  ext_tasks : tasks m `prefix_of` tasks m';
  ext_child_macros : child_macros m `prefix_of` child_macros m';
  ext_capabilities : caps_le (capabilities m) (capabilities m')
}.

(** A computation that, started where [P] holds, either leaves the world
    as it is or replaces the macro at [self] by an extension of it. *)
Definition grows_from {A} (self : nat) (P : World -> Prop) (c : M A) : Prop :=
  forall w r w', P w -> c w = (r, w') ->
    w' = w \/
    exists m m', heap w !! self = Some m /\ rewrites self m' w w' /\ extends m m'.

Definition grows {A} (self : nat) (c : M A) : Prop := grows_from self (fun _ => True) c.

(** A computation that never changes the world. *)
Definition unchanging {A} (c : M A) : Prop :=
  forall w r w', c w = (r, w') -> w' = w.

(** A computation that changes the world only when it returns, and then
    leaves the macro at [self] there, with [Q]. *)
Definition settles {A} (self : nat) (Q : Macro -> Prop) (c : M A) : Prop :=
  forall w r w', c w = (r, w') ->
    match r with
    | Ok _ => exists m', heap w' !! self = Some m' /\ Q m'
    | _ => w' = w
    end.

(** A computation that returns whenever the macro at [self] is there and
    satisfies [P], leaving it there with [Q]. *)
Definition succeeds {A} (self : nat) (P Q : Macro -> Prop) (c : M A) : Prop :=
  forall w m, heap w !! self = Some m -> P m ->
    exists a w' m', c w = (Ok a, w') /\ heap w' !! self = Some m' /\ Q m'.

(** The capabilities of [m] have an entry for the event type [ty]. *)
Definition has_key (ty : value) (m : Macro) : Prop := is_Some (capabilities m !! ty).

(** ** Names of variables *)

#[global] Instance kind_eq_dec : EqDecision kind.
Proof. solve_decision. Defined.

Definition newline : Ascii.ascii := Ascii.ascii_of_nat 10.

(** What the pattern of [_type_check_variablename] describes: a first
    character that is a letter or an underscore, then letters, digits
    and underscores, then the end of the string or one last newline. *)
Definition legit_name (s : string) : Prop :=
  exists c body ending,
    s = String c (body +:+ ending) /\
    is_name_start c = true /\
    Forall (fun x => is_name_char x = true) (String.list_ascii_of_string body) /\
    (ending = EmptyString \/ ending = String newline EmptyString).

(** ** The trigger and the newest event of a family of macros *)

(** The macro [m] has been told about [event] and [action]. *)
Definition knows (event : InputEvent) (action : Action) (m : Macro) : Prop :=
  _newest_event m = Some event /\ _newest_action m = Some action /\
  _new_event_arrived m = true.

(** The trigger of [m] is released, as [release_trigger] leaves it. *)
Definition released (m : Macro) : Prop :=
  _trigger_release_event m = true /\ _trigger_press_event m = false.

(** The trigger of [m] is held down. *)
Definition held (m : Macro) : Prop := is_holding m = true.

(** The macro at [addr] satisfies [P]. *)
Definition at_macro (addr : nat) (P : Macro -> Prop) (w : World) : Prop :=
  exists m, heap w !! addr = Some m /\ P m.

(** The macro at [addr] is its own descendant. *)
Definition on_a_cycle (w : World) (addr : nat) : Prop :=
  exists m child,
    heap w !! addr = Some m /\ VMacro child ∈ child_macros m /\ reaches w child addr.

(** ** Worlds for the examples *)

(** [if_eq($x, 5, k(KEY_A), k(KEY_B))] at 2 with its branches at 0 and
    1, and the same after the trigger of the macro was pressed. *)
Definition family_macro : Macro := default (Macro_init None None) (heap if_eq_world !! 2%nat).

Definition pressed_family_world : World := happen (trigger_pressed 2) if_eq_world.

Definition pressed_family_macro : Macro :=
  default (Macro_init None None) (heap pressed_family_world !! 2%nat).

(** An event: the key 30 going down. *)
Definition key_30_down : InputEvent := {| ev_type := EV_KEY; ev_code := 30; ev_value := 1 |}.

(** [k(KEY_A)], built. *)
Definition key_world : World :=
  snd (add_key example_env 0 (VStr "KEY_A") (one_macro_world "k(KEY_A)")).

Definition key_macro : Macro := default (Macro_init None None) (heap key_world !! 0%nat).

(** A macro that holds itself: [m.add_hold(m)]. *)
Definition loop_world : World :=
  snd (add_hold example_env 0 (VMacro 0) (one_macro_world "h(...)")).

Definition loop_macro : Macro := default (Macro_init None None) (heap loop_world !! 0%nat).

(** [r(2, $m)]: the macro to repeat is given as a variable. *)
Definition repeat_variable_world : World :=
  snd (add_repeat example_env 0 (VInt 2) (VVariable 0 "m") (one_macro_world "r(2, $m)")).

(** One emission, again and again. *)
Definition only (e : emission) (trace : list emission) : Prop :=
  Forall (fun x => x = e) trace.

(** The speed that a mouse task works with: the literal, or what the
    variable holds in the world [w] in which the task starts, as
    [_resolve] casts it to an int; [None] where the task raises before
    it writes anything. *)
Definition speed_when_started (env : Environment) (w : World) (speed : value) : option Z :=
  match speed with
  | VInt z => Some z
  | VVariable _ name =>
      match _type_check env w (default VNone (macro_variables w !! name)) [KInt] None None with
      | inr (VInt z) => Some z
      | _ => None
      end
  | _ => None
  end.

(** [mouse(up, 4)] in a run that has started, with the trigger held; the
    pause of the task elapses twice, and the trigger is released during
    the second pause. *)
Definition mouse_held_world : World :=
  happen (trigger_pressed 0)
    (snd (add_mouse example_env 0 (VStr "up") (VInt 4) (one_macro_world "mouse(up, 4)"))).

Definition mouse_world : World :=
  set_schedule [timer_fires; trigger_released 0; timer_fires]
    (started 0 (default (Macro_init None None) (heap mouse_held_world !! 0%nat)) (VInt 10)
       mouse_held_world).

(** The same with the speed in the variable [s]: [mouse(up, $s)]. *)
Definition mouse_variable_world : World :=
  set_macro_variables {[ "s" := VInt 4 ]} mouse_world.

(** Some macro reached from [root] declares the code [c] for the event
    type [ty]. *)
Definition declared_below (w : World) (root : nat) (ty c : value) : Prop :=
  exists addr m,
    reaches w root addr /\ heap w !! addr = Some m /\ declares (capabilities m) ty c.

(** The tasks that are a loop [while self.is_holding()]. *)
Definition loops_while_held (t : task) : bool :=
  match t with
  | hold_macro_task _ | mouse_task _ _ _ | wheel_task _ _ _ => true
  | _ => false
  end.

(** The family after it was told that the key 30 went down. *)
Definition notified_family_world : World :=
  snd (notify 2 key_30_down PRESS (VMacro 2) if_eq_world).

(** ** Keys that are bound when the task runs *)

(** The macro [m] has a hold whose key is a variable: the code of the
    key is known when the task runs, not when it is built. *)
Definition binds_key_late (m : Macro) : Prop :=
  exists oid name, hold_key_task (VVariable oid name) ∈ tasks m.

(** The code [c] is one that such a hold may have resolved between [w]
    and [w']: [root] or one of its descendants binds a key late, and in
    [w'] it has declared [c] as the code of a key. *)
Definition bound_late (w w' : World) (root : nat) (c : value) : Prop :=
  exists addr m m',
    reaches w root addr /\ heap w !! addr = Some m /\ binds_key_late m /\
    heap w' !! addr = Some m' /\ declares (capabilities m') (VInt EV_KEY) c.

(** For an emission whose type and code are integers: [root] or one of
    its descendants declares the code for the type in [w], or the
    emission is that of a key that was bound late between [w] and
    [w']. *)
Definition foreseen (w : World) (root : nat) (w' : World) (e : emission) : Prop :=
  forall ty c : Z, e.1.1 = VInt ty -> e.1.2 = VInt c ->
    (exists addr m,
       reaches w root addr /\ heap w !! addr = Some m /\
       declares (capabilities m) (VInt ty) (VInt c)) \/
    (ty = EV_KEY /\ bound_late w w' root (VInt c)).

(** The capabilities of [k(KEY_A)] when it is built. *)
Definition key_capabilities_built : gmap value (gset value) :=
  returned ∅ (get_capabilities 1 key_world (VMacro 0)).

(** * Properties *)

(** ** The monad and the heap *)

Lemma heap_set_heap h w : heap (set_heap h w) = h.
Proof. reflexivity. Qed.

Lemma set_heap_set_heap h1 h2 w : set_heap h2 (set_heap h1 w) = set_heap h2 w.
Proof. reflexivity. Qed.

Lemma the_macro_lookup (self : nat) (m : Macro) (w : World) :
  heap w !! self = Some m -> the_macro self w = (Ok m, w).
Proof. intros H. unfold the_macro. now rewrite H. Qed.

Lemma update_macro_lookup (self : nat) (f : Macro -> Macro) (m : Macro) (w : World) :
  heap w !! self = Some m ->
  update_macro self f w = (Ok tt, set_heap (<[self := f m]> (heap w)) w).
Proof. intros H. unfold update_macro. now rewrite H. Qed.

Lemma lookup_after_update (self : nat) (f : Macro -> Macro) (m : Macro) (w : World) :
  heap (set_heap (<[self := f m]> (heap w)) w) !! self = Some (f m).
Proof. simpl. apply lookup_insert_eq. Qed.

(** Steps through a computation whose reads of the heap are known. *)
Ltac step_macro :=
  repeat first
    [ progress (unfold bind, ret, raise, stop_with, gets, modify, lift, logger)
    | erewrite the_macro_lookup by (simpl; first [eassumption | apply lookup_insert_eq])
    | erewrite update_macro_lookup by (simpl; first [eassumption | apply lookup_insert_eq])
    | progress simpl ].

(** ** Truncation of floats *)

Lemma float_trunc_sign (s : bool) (m : positive) (e : Z) :
  if s then float_trunc s m e <= 0 else 0 <= float_trunc s m e.
Proof.
  unfold float_trunc. destruct (0 <=? e) eqn:He.
  - apply Z.leb_le in He. destruct s; nia.
  - apply Z.leb_gt in He.
    assert (0 <= Z.pos m / 2 ^ (- e)) by (apply Z.div_pos; lia).
    destruct s; lia.
Qed.

(** The magnitude of [int(f)] is the integer part of the magnitude
    [m * 2^e] of [f]. *)
Lemma float_trunc_magnitude (s : bool) (m : positive) (e : Z) :
  (0 <= e -> Z.abs (float_trunc s m e) = Z.pos m * 2 ^ e) /\
  (e < 0 ->
   Z.abs (float_trunc s m e) * 2 ^ (- e) <= Z.pos m
   < (Z.abs (float_trunc s m e) + 1) * 2 ^ (- e)).
Proof.
  unfold float_trunc. split; intros He.
  - apply Z.leb_le in He as Hb. rewrite Hb.
    assert (0 <= Z.pos m * 2 ^ e) by nia.
    destruct s; lia.
  - assert (Hb : (0 <=? e) = false) by (apply Z.leb_gt; lia). rewrite Hb.
    assert (Hp : 0 < 2 ^ (- e)) by (apply Z.pow_pos_nonneg; lia).
    pose proof (Z.div_pos (Z.pos m) (2 ^ (- e)) ltac:(lia) Hp) as Hq.
    pose proof (Z.mul_div_le (Z.pos m) (2 ^ (- e)) Hp) as Hlo.
    pose proof (Z.mul_succ_div_gt (Z.pos m) (2 ^ (- e)) Hp) as Hhi.
    replace (Z.abs (if s then - (Z.pos m / 2 ^ (- e)) else Z.pos m / 2 ^ (- e)))
      with (Z.pos m / 2 ^ (- e)) by (destruct s; lia).
    lia.
Qed.

Lemma type_check_finite_float env w f display_name position :
  is_finite f = true ->
  _type_check env w (VFloat f) [KInt] display_name position = inr (VInt (int_of_float f)).
Proof. destruct f; simpl; intros H; (discriminate || reflexivity). Qed.

Lemma type_check_Macro env w addr display_name position :
  _type_check env w (VMacro addr) [KMacro] display_name position = inr (VMacro addr).
Proof. reflexivity. Qed.

(** ** Evaluating examples *)

Lemma is_Ok_returned {A} (d : A) (r : result A) : is_Ok r = true -> r = Ok (returned d r).
Proof. destruct r; simpl; (discriminate || reflexivity). Qed.

Lemma is_there_default {A} (d : A) (o : option A) : is_there o = true -> o = Some (default d o).
Proof. destruct o; simpl; (discriminate || reflexivity). Qed.

Lemma returns_in_snd {A} (x : result A * World) (a : A) : fst x = Ok a -> x = (Ok a, snd x).
Proof. destruct x as [r w]. simpl. now intros ->. Qed.

Lemma declaresb_declares (caps : gmap value (gset value)) (ty c : value) :
  declaresb caps ty c = true <-> declares caps ty c.
Proof.
  unfold declaresb, declares. destruct (caps !! ty) as [codes |]; split.
  - intros H. apply bool_decide_eq_true in H. eauto.
  - intros (codes' & E & H). inversion E; subst. now apply bool_decide_eq_true.
  - discriminate.
  - intros (codes' & E & _). discriminate.
Qed.

(** ** Builders *)

Lemma capabilities_add_lookup (self : nat) (m : Macro) (ev_type c : value)
    (codes : gset value) (w : World) :
  heap w !! self = Some m ->
  capabilities m !! ev_type = Some codes ->
  capabilities_add self ev_type c w =
    (Ok tt,
     set_heap (<[self := with_capabilities (<[ev_type := codes ∪ {[c]}]> (capabilities m)) m]>
                 (heap w)) w).
Proof.
  intros Hm Hc. unfold capabilities_add. step_macro. rewrite Hc. step_macro. reflexivity.
Qed.

Lemma add_mouse_capabilities_lookup (self : nat) (m : Macro) (codes : gset value) (w : World) :
  heap w !! self = Some m ->
  capabilities m !! VInt EV_REL = Some codes ->
  add_mouse_capabilities self w =
    (Ok tt,
     set_heap
       (<[self := with_capabilities
                    (<[VInt EV_REL :=
                         codes ∪ {[VInt REL_X]} ∪ {[VInt REL_Y]} ∪ {[VInt REL_WHEEL]}
                           ∪ {[VInt REL_HWHEEL]}]> (capabilities m)) m]> (heap w)) w).
Proof.
  intros Hm Hc. unfold add_mouse_capabilities, bind.
  erewrite capabilities_add_lookup by eassumption.
  erewrite capabilities_add_lookup by (simpl; apply lookup_insert_eq).
  erewrite capabilities_add_lookup by (simpl; apply lookup_insert_eq).
  erewrite capabilities_add_lookup by (simpl; apply lookup_insert_eq).
  simpl. rewrite !insert_insert_eq. reflexivity.
Qed.

(** ** Running keeps what was built *)

#[global] Instance caps_le_preorder : PreOrder caps_le.
Proof.
  split.
  - intros a ty codes H. eauto.
  - intros a b c Hab Hbc ty codes H.
    destruct (Hab _ _ H) as (codes' & H' & Hsub).
    destruct (Hbc _ _ H') as (codes'' & H'' & Hsub').
    exists codes''. split; [assumption | set_solver].
Qed.

Lemma caps_le_declares (a b : gmap value (gset value)) (ty c : value) :
  caps_le a b -> declares a ty c -> declares b ty c.
Proof.
  intros Hle (codes & H & Hc). destruct (Hle _ _ H) as (codes' & H' & Hsub).
  exists codes'. split; [assumption | set_solver].
Qed.

Lemma caps_le_insert (caps : gmap value (gset value)) (ty : value) (codes codes' : gset value) :
  caps !! ty = Some codes -> codes ⊆ codes' -> caps_le caps (<[ty := codes']> caps).
Proof.
  intros H Hsub ty' s Hs. destruct (decide (ty = ty')) as [<- | Hne].
  - rewrite lookup_insert_eq. exists codes'. split; [reflexivity |].
    assert (s = codes) by congruence. subst. assumption.
  - rewrite lookup_insert_ne by assumption. eauto.
Qed.

Lemma caps_le_insert_new (caps : gmap value (gset value)) (ty : value) (codes' : gset value) :
  caps !! ty = None -> caps_le caps (<[ty := codes']> caps).
Proof.
  intros H ty' s Hs. destruct (decide (ty = ty')) as [<- | Hne].
  - congruence.
  - rewrite lookup_insert_ne by assumption. eauto.
Qed.

#[global] Instance macro_le_preorder : PreOrder macro_le.
Proof.
  split.
  - intros m. split; reflexivity.
  - intros a b c [] []. split; try congruence. etransitivity; eassumption.
Qed.

#[global] Instance world_le_preorder : PreOrder world_le.
Proof.
  split.
  - intros w. split; [intros addr | ]; reflexivity.
  - intros a b c [Hab Eab] [Hbc Ebc]. split.
    + intros addr. etransitivity; [apply Hab | apply Hbc].
    + etransitivity; eassumption.
Qed.

#[global] Instance quiet_step_preorder : PreOrder quiet_step.
Proof.
  split.
  - intros w. split; reflexivity.
  - intros a b c [Hab Eab] [Hbc Ebc]. split; [etransitivity; eassumption | congruence].
Qed.

Lemma world_le_lookup (w w' : World) (addr : nat) (m : Macro) :
  world_le w w' -> heap w !! addr = Some m ->
  exists m', heap w' !! addr = Some m' /\ macro_le m m'.
Proof.
  intros [H _] Hm. specialize (H addr). rewrite Hm in H. inversion H; subst. eauto.
Qed.

Lemma world_le_lookup_inv (w w' : World) (addr : nat) (m' : Macro) :
  world_le w w' -> heap w' !! addr = Some m' ->
  exists m, heap w !! addr = Some m /\ macro_le m m'.
Proof.
  intros [H _] Hm. specialize (H addr). rewrite Hm in H. inversion H; subst. eauto.
Qed.

(** Replacing an object by a later state of it. *)
Lemma quiet_step_update (w : World) (addr : nat) (m m' : Macro) :
  heap w !! addr = Some m -> macro_le m m' ->
  quiet_step w (set_heap (<[addr := m']> (heap w)) w).
Proof.
  intros Hm Hle. split; [split |]; simpl; try reflexivity.
  intros a. destruct (decide (addr = a)) as [<- | Hne].
  - rewrite lookup_insert_eq, Hm. now constructor.
  - rewrite lookup_insert_ne by assumption. reflexivity.
Qed.

(** *** The rules for computations that emit nothing *)

Lemma bind_inv {A B} (m : M A) (k : A -> M B) (w w' : World) (r : result B) :
  bind m k w = (r, w') ->
  (exists a w1, m w = (Ok a, w1) /\ k a w1 = (r, w')) \/
  (exists e, m w = (Raise e, w') /\ r = Raise e) \/
  (exists s, m w = (Stop s, w') /\ r = Stop s).
Proof.
  unfold bind. destruct (m w) as [[a | e | s] w1]; intros H.
  - left. eauto.
  - right. left. inversion H. eauto.
  - right. right. inversion H. eauto.
Qed.

Lemma quiet_ret {A} (a : A) : quiet (ret a).
Proof. intros w r w' H. inversion H. reflexivity. Qed.

Lemma quiet_raise {A} (e : exn) : quiet (@raise A e).
Proof. intros w r w' H. inversion H. reflexivity. Qed.

Lemma quiet_stop_with {A} (s : stop) : quiet (@stop_with A s).
Proof. intros w r w' H. inversion H. reflexivity. Qed.

Lemma quiet_gets {A} (f : World -> A) : quiet (gets f).
Proof. intros w r w' H. inversion H. reflexivity. Qed.

Lemma quiet_lift {A} (x : exn + A) : quiet (lift x).
Proof. intros w r w' H. destruct x; inversion H; reflexivity. Qed.

Lemma quiet_bind {A B} (m : M A) (k : A -> M B) :
  quiet m -> (forall a, quiet (k a)) -> quiet (bind m k).
Proof.
  intros Hm Hk w r w' H.
  apply bind_inv in H as [(a & w1 & H1 & H2) | [(e & H1 & _) | (s & H1 & _)]].
  - etransitivity; [eapply Hm | eapply Hk]; eassumption.
  - eapply Hm; eassumption.
  - eapply Hm; eassumption.
Qed.

Lemma quiet_try_except {A} (m : M A) (catches : exn -> bool) (h : exn -> M A) :
  quiet m -> (forall e, quiet (h e)) -> quiet (try_except m catches h).
Proof.
  intros Hm Hh w r w' H. unfold try_except in H.
  destruct (m w) as [[a | e | s] w1] eqn:E.
  - inversion H; subst. eapply Hm; eassumption.
  - destruct (catches e).
    + etransitivity; [eapply Hm | eapply Hh]; eassumption.
    + inversion H; subst. eapply Hm; eassumption.
  - inversion H; subst. eapply Hm; eassumption.
Qed.

Lemma quiet_logger (l : log_line) : quiet (logger l).
Proof.
  intros w r w' H. inversion H. split; [split |]; simpl; reflexivity.
Qed.

Lemma quiet_step_set_macro_variables (s : gmap string value) (w : World) :
  quiet_step w (set_macro_variables s w).
Proof. split; [split |]; simpl; reflexivity. Qed.

Lemma quiet_step_set_schedule (s : list happening) (w : World) :
  quiet_step w (set_schedule s w).
Proof. split; [split |]; simpl; reflexivity. Qed.

Lemma quiet_the_macro (self : nat) : quiet (the_macro self).
Proof.
  intros w r w' H. unfold the_macro in H.
  destruct (heap w !! self); inversion H; reflexivity.
Qed.

Lemma quiet_update_macro (self : nat) (f : Macro -> Macro) :
  (forall m, macro_le m (f m)) -> quiet (update_macro self f).
Proof.
  intros Hf w r w' H. unfold update_macro in H.
  destruct (heap w !! self) as [m |] eqn:Hm; inversion H; subst.
  - eapply quiet_step_update; eauto.
  - reflexivity.
Qed.

Lemma macro_le_with_trigger (a b : bool) (m : Macro) : macro_le m (with_trigger a b m).
Proof. split; reflexivity. Qed.

Lemma macro_le_with_running (a : bool) (m : Macro) : macro_le m (with_running a m).
Proof. split; reflexivity. Qed.

Lemma macro_le_with_keystroke_sleep_ms (a : value) (m : Macro) :
  macro_le m (with_keystroke_sleep_ms a m).
Proof. split; reflexivity. Qed.

Lemma macro_le_with_new_event_arrived (a : bool) (m : Macro) :
  macro_le m (with_new_event_arrived a m).
Proof. split; reflexivity. Qed.

Lemma macro_le_with_newest (e : option InputEvent) (a : option Action) (m : Macro) :
  macro_le m (with_newest e a m).
Proof. split; reflexivity. Qed.

Lemma macro_le_with_capabilities (caps : gmap value (gset value)) (m : Macro) :
  caps_le (capabilities m) caps -> macro_le m (with_capabilities caps m).
Proof. intros H. split; try reflexivity. exact H. Qed.

Lemma quiet_capabilities_add (self : nat) (ty c : value) : quiet (capabilities_add self ty c).
Proof.
  intros w r w' H. unfold capabilities_add in H.
  apply bind_inv in H as [(m & w1 & H1 & H2) | [(e & H1 & _) | (s & H1 & _)]];
    try (eapply quiet_the_macro; eassumption).
  unfold the_macro in H1. destruct (heap w !! self) as [m0 |] eqn:Hm; inversion H1; subst.
  destruct (capabilities m !! ty) as [codes |] eqn:Hc.
  - unfold update_macro in H2. rewrite Hm in H2. inversion H2; subst.
    eapply quiet_step_update; [eassumption |].
    apply macro_le_with_capabilities. eapply caps_le_insert; [eassumption | set_solver].
  - inversion H2. reflexivity.
Qed.

(** After [capabilities_add] has returned, the code is declared. *)
Lemma capabilities_add_declares (self : nat) (ty c : value) (w w' : World) :
  capabilities_add self ty c w = (Ok tt, w') ->
  exists m', heap w' !! self = Some m' /\ declares (capabilities m') ty c.
Proof.
  unfold capabilities_add, bind, the_macro, update_macro.
  destruct (heap w !! self) as [m |] eqn:Hm; [| discriminate].
  destruct (capabilities m !! ty) as [codes |] eqn:Hc; [| discriminate].
  rewrite Hm. intros H. inversion H; subst. simpl.
  rewrite lookup_insert_eq. eexists. split; [reflexivity |].
  exists (codes ∪ {[c]}). simpl. rewrite lookup_insert_eq. split; [reflexivity | set_solver].
Qed.

Create HintDb quiet discriminated.

#[global] Hint Resolve quiet_ret quiet_raise quiet_stop_with quiet_gets quiet_lift
  quiet_logger quiet_the_macro quiet_capabilities_add : quiet.
#[global] Hint Resolve macro_le_with_trigger macro_le_with_running
  macro_le_with_keystroke_sleep_ms macro_le_with_new_event_arrived
  macro_le_with_newest : quiet.

(** Proves that a computation built from quiet parts is quiet. *)
Ltac quiet_tac :=
  repeat first
    [ assumption
    | solve [auto with quiet]
    | apply quiet_bind; [| intros ?]
    | apply quiet_try_except; [| intros ?]
    | apply quiet_update_macro; intros ?; auto with quiet
    | match goal with
      | |- quiet (match ?x with _ => _ end) => destruct x
      | |- quiet (if ?x then _ else _) => destruct x
      end ].

Lemma quiet_type_check (env : Environment) (v : value) (allowed_types : list kind)
    (display_name : option string) (position : option Z) :
  quiet (type_check env v allowed_types display_name position).
Proof. intros w r w' H. unfold type_check in H. eapply quiet_lift; eassumption. Qed.

Lemma quiet_resolve (env : Environment) (argument : value) (allowed_types : list kind) :
  quiet (_resolve env argument allowed_types).
Proof.
  unfold _resolve, Variable_resolve. destruct argument; auto with quiet.
  quiet_tac. apply quiet_type_check.
Qed.

Lemma quiet_for_each {A} (l : list A) (f : A -> M unit) :
  (forall x, quiet (f x)) -> quiet (for_each l f).
Proof. intros Hf. induction l; simpl; quiet_tac; auto. Qed.

Lemma quiet_press_trigger (fuel : nat) (self : value) : quiet (press_trigger fuel self).
Proof.
  revert self. induction fuel; intros self; simpl; [auto with quiet |].
  destruct self; auto with quiet. quiet_tac. now apply quiet_for_each.
Qed.

Lemma quiet_release_trigger (fuel : nat) (self : value) : quiet (release_trigger fuel self).
Proof.
  revert self. induction fuel; intros self; simpl; [auto with quiet |].
  destruct self; auto with quiet. quiet_tac. now apply quiet_for_each.
Qed.

Lemma quiet_notify (fuel : nat) (event : InputEvent) (action : Action) (self : value) :
  quiet (notify fuel event action self).
Proof.
  revert self. induction fuel; intros self; simpl; [auto with quiet |].
  destruct self; auto with quiet. quiet_tac.
  - now apply quiet_for_each.
  - etransitivity; [apply macro_le_with_newest | apply macro_le_with_new_event_arrived].
Qed.

Lemma quiet_step_happen (h : happening) (w : World) : quiet_step w (happen h w).
Proof.
  destruct h; unfold happen; try reflexivity;
    try match goal with
        | |- quiet_step _ (snd ?x) => destruct x eqn:E; cbn [snd]
        end.
  - eapply quiet_press_trigger; eassumption.
  - eapply quiet_release_trigger; eassumption.
  - eapply quiet_notify; eassumption.
  - apply quiet_step_set_macro_variables.
Qed.

Lemma quiet_next_happening : quiet next_happening.
Proof.
  intros w r w' H. unfold next_happening in H.
  destruct (schedule w); inversion H; subst; [reflexivity |].
  etransitivity; [apply (quiet_step_set_schedule l) | apply quiet_step_happen].
Qed.

#[global] Hint Resolve quiet_type_check quiet_resolve quiet_next_happening : quiet.

Lemma quiet_sleep_through (k : nat) : quiet (sleep_through k).
Proof. induction k; simpl; quiet_tac. Qed.

Lemma quiet_asyncio_sleep : quiet asyncio_sleep.
Proof. intros w r w' H. eapply quiet_sleep_through; eassumption. Qed.

Lemma quiet_wait_through (k self : nat) (flag : Macro -> bool) (armed : bool) :
  quiet (wait_through k self flag armed).
Proof. induction k; simpl; quiet_tac. Qed.

Lemma quiet_Event_wait (self : nat) (flag : Macro -> bool) (armed : bool) :
  quiet (Event_wait self flag armed).
Proof.
  unfold Event_wait. quiet_tac.
  intros w r w' H. eapply quiet_wait_through; eassumption.
Qed.

#[global] Hint Resolve quiet_asyncio_sleep quiet_Event_wait : quiet.

Lemma quiet_wait_for_event (k self : nat)
    (filter : option (option InputEvent -> option Action -> exn + bool)) (armed : bool) :
  quiet (_wait_for_event k self filter armed).
Proof. induction k; cbn [_wait_for_event]; quiet_tac. Qed.

Lemma quiet_keycode_pause (self : nat) : quiet (_keycode_pause self).
Proof. unfold _keycode_pause. quiet_tac. Qed.

Lemma quiet_newest_event_key (self : nat) : quiet (newest_event_key self).
Proof. unfold newest_event_key. quiet_tac. Qed.

Lemma quiet_if_tap_wait (self : nat) : quiet (if_tap_wait self).
Proof. unfold if_tap_wait. quiet_tac. Qed.

Lemma quiet_wait_for (inner : M unit) (nonpositive : bool) :
  quiet inner -> quiet (wait_for inner nonpositive).
Proof. intros H. unfold wait_for. destruct nonpositive; auto with quiet. Qed.

#[global] Hint Resolve quiet_wait_for_event quiet_keycode_pause quiet_newest_event_key
  quiet_if_tap_wait quiet_wait_for : quiet.

(** ** Emitting only what is allowed *)

Lemma emitted_since_refl (w : World) : emitted_since w w = [].
Proof. unfold emitted_since. apply drop_all. Qed.

Lemma emitted_since_app (w : World) (more : list emission) (w' : World) :
  emitted w' = emitted w ++ more -> emitted_since w w' = more.
Proof. intros H. unfold emitted_since. rewrite H. apply drop_app_length. Qed.

Lemma emitted_since_prefix (w w' : World) :
  emitted w `prefix_of` emitted w' -> emitted w' = emitted w ++ emitted_since w w'.
Proof. intros [more H]. now rewrite (emitted_since_app _ _ _ H). Qed.

Lemma emitted_since_trans (w w1 w2 : World) :
  world_le w w1 -> world_le w1 w2 ->
  emitted_since w w2 = emitted_since w w1 ++ emitted_since w1 w2.
Proof.
  intros [_ H1] [_ H2].
  apply emitted_since_app.
  rewrite (emitted_since_prefix _ _ H2) at 1.
  rewrite (emitted_since_prefix _ _ H1) at 1.
  now rewrite app_assoc.
Qed.

Lemma emitted_since_quiet (w w' : World) : quiet_step w w' -> emitted_since w w' = [].
Proof. intros [_ H]. unfold emitted_since. rewrite H. apply drop_all. Qed.

Section Guard_rules.

Variable allowed : World -> emission -> Prop.
Hypothesis allowed_persistent : forall e, persistent (fun w => allowed w e).

Lemma guarded_step_refl (w : World) : guarded_step allowed w w.
Proof.
  split; [reflexivity |]. rewrite emitted_since_refl. intros e H. inversion H.
Qed.

Lemma guarded_step_trans (w w1 w2 : World) :
  guarded_step allowed w w1 -> guarded_step allowed w1 w2 -> guarded_step allowed w w2.
Proof.
  intros [L1 A1] [L2 A2]. split; [etransitivity; eassumption |].
  intros e. rewrite (emitted_since_trans _ _ _ L1 L2), elem_of_app.
  intros [H | H]; [| auto].
  eapply allowed_persistent; [exact L2 | auto].
Qed.

Lemma guarded_step_quiet (w w' : World) : quiet_step w w' -> guarded_step allowed w w'.
Proof.
  intros H. split; [apply H |]. rewrite (emitted_since_quiet _ _ H).
  intros e He. inversion He.
Qed.

Lemma respects_quiet {A} (U : World -> Prop) (m : M A) : quiet m -> respects allowed U m.
Proof. intros H w _ r w' E. apply guarded_step_quiet. eapply H; eassumption. Qed.

Lemma respects_weaken {A} (U U' : World -> Prop) (m : M A) :
  (forall w, U' w -> U w) -> respects allowed U m -> respects allowed U' m.
Proof. intros HU H w Hw. apply H. auto. Qed.

(** Sequencing, where the first part establishes [Q] for the second. *)
Lemma respects_bind_with {A B} (U : World -> Prop) (Q : A -> World -> Prop)
    (m : M A) (k : A -> M B) :
  persistent U ->
  respects allowed U m ->
  (forall w a w', U w -> m w = (Ok a, w') -> Q a w') ->
  (forall a, respects allowed (fun w => U w /\ Q a w) (k a)) ->
  respects allowed U (bind m k).
Proof.
  intros PU Hm HQ Hk w Hw r w' E.
  apply bind_inv in E as [(a & w1 & E1 & E2) | [(e & E1 & _) | (s & E1 & _)]].
  - pose proof (Hm _ Hw _ _ E1) as G1.
    eapply guarded_step_trans; [exact G1 |].
    eapply Hk; [| exact E2]. split; [| eauto].
    eapply PU; [apply G1 | exact Hw].
  - eapply Hm; eassumption.
  - eapply Hm; eassumption.
Qed.

Lemma respects_bind {A B} (U : World -> Prop) (m : M A) (k : A -> M B) :
  persistent U ->
  respects allowed U m ->
  (forall a, respects allowed U (k a)) ->
  respects allowed U (bind m k).
Proof.
  intros PU Hm Hk.
  apply (respects_bind_with U (fun _ _ => True)); auto.
  intros a. eapply respects_weaken; [| apply Hk]. now intros w [H _].
Qed.

Lemma respects_try_except {A} (U : World -> Prop) (m : M A)
    (catches : exn -> bool) (h : exn -> M A) :
  persistent U ->
  respects allowed U m ->
  (forall e, respects allowed U (h e)) ->
  respects allowed U (try_except m catches h).
Proof.
  intros PU Hm Hh w Hw r w' E. unfold try_except in E.
  destruct (m w) as [[a | e | s] w1] eqn:E1.
  - inversion E; subst. eapply Hm; eassumption.
  - pose proof (Hm _ Hw _ _ E1) as G1. destruct (catches e).
    + eapply guarded_step_trans; [exact G1 |].
      eapply Hh; [| exact E]. eapply PU; [apply G1 | exact Hw].
    + inversion E; subst. exact G1.
  - inversion E; subst. eapply Hm; eassumption.
Qed.

Lemma respects_call (U : World -> Prop) (handler : Handler) (e : emission) :
  (forall w, U w -> allowed w e) -> respects allowed U (call handler e).
Proof.
  intros HU w Hw r w' E. destruct handler as [| raises]; simpl in E.
  - inversion E. apply guarded_step_refl.
  - assert (Hle : world_le w (set_emitted (emitted w ++ [e]) w)).
    { split; [intros addr; reflexivity | now exists [e]]. }
    assert (w' = set_emitted (emitted w ++ [e]) w) as ->.
    { destruct (raises (emitted w) e); now inversion E. }
    split; [exact Hle |].
    rewrite (emitted_since_app w [e]) by reflexivity.
    intros e' He'. apply list_elem_of_singleton in He' as ->.
    eapply allowed_persistent; [exact Hle | auto].
Qed.

Lemma respects_for_each {A} (U : World -> Prop) (l : list A) (f : A -> M unit) :
  persistent U ->
  (forall x, respects allowed U (f x)) -> respects allowed U (for_each l f).
Proof.
  intros PU Hf. induction l; simpl.
  - apply respects_quiet, quiet_ret.
  - apply respects_bind; auto.
Qed.

Lemma respects_repeat_times (U : World -> Prop) (n : nat) (body : M unit) :
  persistent U ->
  respects allowed U body -> respects allowed U (repeat_times n body).
Proof.
  intros PU Hb. induction n; simpl.
  - apply respects_quiet, quiet_ret.
  - apply respects_bind; auto.
Qed.

Lemma respects_while_holding (U : World -> Prop) (k self : nat) (body : M unit) :
  persistent U ->
  respects allowed U body -> respects allowed U (while_holding k self body).
Proof.
  intros PU Hb. induction k; simpl.
  - apply respects_bind; [assumption | apply respects_quiet, quiet_the_macro |].
    intros m. destruct (is_holding m); apply respects_quiet; auto with quiet.
  - apply respects_bind; [assumption | apply respects_quiet, quiet_the_macro |].
    intros m. destruct (is_holding m); [| apply respects_quiet; auto with quiet].
    apply respects_bind; auto.
Qed.

End Guard_rules.

Lemma persistent_and (P Q : World -> Prop) :
  persistent P -> persistent Q -> persistent (fun w => P w /\ Q w).
Proof. intros HP HQ w w' Hle [? ?]. split; [eapply HP | eapply HQ]; eassumption. Qed.

Lemma persistent_True : persistent (fun _ => True).
Proof. now intros w w' _ _. Qed.

Lemma persistent_declares (self : nat) (ty c : value) :
  persistent (fun w => exists m, heap w !! self = Some m /\ declares (capabilities m) ty c).
Proof.
  intros w w' Hle (m & Hm & Hd).
  destruct (world_le_lookup _ _ _ _ Hle Hm) as (m' & Hm' & Hmm).
  exists m'. split; [assumption |].
  eapply caps_le_declares; [apply Hmm | assumption].
Qed.

Lemma persistent_tasks (self : nat) (m : Macro) :
  persistent (fun w => exists m', heap w !! self = Some m' /\ tasks m' = tasks m).
Proof.
  intros w w' Hle (m1 & Hm & Ht).
  destruct (world_le_lookup _ _ _ _ Hle Hm) as (m' & Hm' & Hmm).
  exists m'. split; [assumption |]. rewrite <- Ht. apply Hmm.
Qed.

Section Guarded_run.

Variable env : Environment.
Variable allowed : World -> emission -> Prop.
Variable admitted : World -> nat -> Prop.
Variable well_formed : World -> nat -> task -> Prop.

Hypothesis allowed_persistent : forall e, persistent (fun w => allowed w e).
Hypothesis admitted_persistent : forall addr, persistent (fun w => admitted w addr).
Hypothesis well_formed_persistent :
  forall addr t, persistent (fun w => well_formed w addr t).

(** What the tasks that emit by themselves may emit. *)
Hypothesis key_allowed : forall w self code v,
  admitted w self -> well_formed w self (key_task code) ->
  allowed w (VInt EV_KEY, code, v).
Hypothesis event_allowed : forall w self type_ code v,
  admitted w self -> well_formed w self (event_task type_ code v) ->
  allowed w (type_, code, v).
Hypothesis mouse_allowed : forall w self code value_ speed v,
  admitted w self -> well_formed w self (mouse_task code value_ speed) ->
  allowed w (VInt EV_REL, VInt code, v).
Hypothesis wheel_allowed : forall w self code value_ speed v,
  admitted w self -> well_formed w self (wheel_task code value_ speed) ->
  allowed w (VInt EV_REL, VInt code, v).
(** What a task has resolved its key to and its macro has declared for
    [EV_KEY], it may emit. *)
Hypothesis declared_allowed : forall w self t m code v,
  admitted w self -> well_formed w self t -> resolves_to t code ->
  heap w !! self = Some m ->
  declares (capabilities m) (VInt EV_KEY) code ->
  allowed w (VInt EV_KEY, code, v).
(** The macros a task runs may run. *)
Hypothesis child_admitted : forall w self t child,
  admitted w self -> well_formed w self t -> runs_macro t (VMacro child) ->
  admitted w child.

Local Abbreviation can_run := (may_run admitted well_formed).
Local Abbreviation can_run_task := (may_run_task admitted well_formed).
Local Abbreviation respects_bind' := (respects_bind allowed allowed_persistent).
Local Abbreviation respects_call' := (respects_call allowed allowed_persistent).
Local Abbreviation respects_try_except' := (respects_try_except allowed allowed_persistent).
Local Abbreviation respects_while_holding' :=
  (respects_while_holding allowed allowed_persistent).
Local Abbreviation respects_repeat_times' :=
  (respects_repeat_times allowed allowed_persistent).

Lemma persistent_all_well_formed : persistent (all_well_formed well_formed).
Proof.
  intros w w' Hle H addr m' t Hm' Ht.
  destruct (world_le_lookup_inv _ _ _ _ Hle Hm') as (m & Hm & Hmm).
  eapply well_formed_persistent; [exact Hle |].
  eapply H; [exact Hm |]. rewrite <- (le_tasks _ _ Hmm). exact Ht.
Qed.

Lemma persistent_may_run (macro : value) : persistent (can_run macro).
Proof.
  apply persistent_and; [apply persistent_all_well_formed |].
  destruct macro; try apply persistent_True. apply admitted_persistent.
Qed.

Lemma persistent_may_run_task (self : nat) (t : task) : persistent (can_run_task self t).
Proof.
  apply persistent_and; [apply persistent_all_well_formed |].
  apply persistent_and; [apply admitted_persistent | apply well_formed_persistent].
Qed.

(** What [_resolve] returns for an argument that is no variable is the
    argument. *)
Lemma resolve_from (argument : value) (allowed_types : list kind) (w w' : World)
    (resolved : value) :
  _resolve env argument allowed_types w = (Ok resolved, w') ->
  resolved = argument \/ exists oid name, argument = VVariable oid name.
Proof.
  destruct argument; simpl; try (intros [= <- _]; now left).
  intros _. right. eauto.
Qed.

Section Task.

Variable run_child : value -> M unit.
Hypothesis run_child_respects : forall macro, respects allowed (can_run macro) (run_child macro).

Variables (k self : nat) (handler : Handler).

Lemma respects_run_child (t : task) (macro : value) :
  runs_macro t macro -> respects allowed (can_run_task self t) (run_child macro).
Proof.
  intros Hruns. eapply respects_weaken; [| apply run_child_respects].
  intros w (Hall & Hadm & Hwf). split; [assumption |].
  destruct macro; try exact I. eapply child_admitted; eassumption.
Qed.

Lemma respects_run_unless_None (t : task) (branch : value) :
  runs_macro t branch -> respects allowed (can_run_task self t) (run_unless_None run_child branch).
Proof.
  intros H. unfold run_unless_None.
  destruct branch; try (now apply respects_run_child).
  apply respects_quiet, quiet_ret.
Qed.

Lemma respects_run_if_truthy (t : task) (branch : value) :
  runs_macro t branch -> respects allowed (can_run_task self t) (run_if_truthy run_child branch).
Proof.
  intros H. unfold run_if_truthy.
  destruct (truthy branch); [now apply respects_run_child |].
  apply respects_quiet, quiet_ret.
Qed.

(** A key that the task has just declared is pressed and released
    around [inner]. *)
Lemma respects_declared_key (t : task) (code : value) (before inner after : M unit) :
  resolves_to t code ->
  respects allowed (can_run_task self t) before ->
  respects allowed (can_run_task self t) inner ->
  respects allowed (can_run_task self t) after ->
  respects allowed (can_run_task self t)
    (capabilities_add self (VInt EV_KEY) code ;;;
     before ;;;
     call handler (VInt EV_KEY, code, VInt 1) ;;;
     inner ;;;
     call handler (VInt EV_KEY, code, VInt 0) ;;;
     after).
Proof.
  intros Hcode Hbefore Hinner Hafter.
  pose proof (persistent_may_run_task self t) as PU.
  pose proof (persistent_declares self (VInt EV_KEY) code) as PQ.
  pose proof (persistent_and _ _ PU PQ) as PUQ.
  apply (respects_bind_with allowed allowed_persistent _
           (fun _ w => exists m, heap w !! self = Some m /\
                                 declares (capabilities m) (VInt EV_KEY) code)).
  - exact PU.
  - apply respects_quiet, quiet_capabilities_add.
  - intros w [] w' _ E. eapply capabilities_add_declares; eassumption.
  - intros _.
    assert (Hcall : forall v,
              respects allowed
                (fun w => can_run_task self t w /\
                          exists m, heap w !! self = Some m /\
                                    declares (capabilities m) (VInt EV_KEY) code)
                (call handler (VInt EV_KEY, code, v))).
    { intros v. apply respects_call'.
      intros w [(_ & Hadm & Hwf) (m & Hm & Hd)]. eapply declared_allowed; eassumption. }
    assert (Hweak : forall m : M unit,
              respects allowed (can_run_task self t) m ->
              respects allowed
                (fun w => can_run_task self t w /\
                          exists m, heap w !! self = Some m /\
                                    declares (capabilities m) (VInt EV_KEY) code) m).
    { intros m Hm. eapply respects_weaken; [| exact Hm]. now intros w [H _]. }
    repeat (apply respects_bind'; [assumption | auto | intros _]); auto.
Qed.

Lemma run_task_respects (t : task) :
  respects allowed (can_run_task self t) (run_task env run_child k self handler t).
Proof.
  pose proof (persistent_may_run_task self t) as PU.
  assert (Hq : forall A (m : M A), quiet m -> respects allowed (can_run_task self t) m).
  { intros A m. apply respects_quiet. }
  destruct t; cbn [run_task].
  - (* hold_wait_task *) auto with quiet.
  - (* hold_key_task *)
    apply (respects_bind_with allowed allowed_persistent _
             (fun resolved_code _ => resolves_to (hold_key_task code0) resolved_code));
      [assumption | auto with quiet | intros w a w' _ E; eapply resolve_from, E
      | intros resolved_code].
    pose proof (respects_declared_key (hold_key_task code0) resolved_code (ret tt)
                  (Event_wait self _trigger_release_event false) (ret tt)) as H.
    intros w [Hw Hcode] r w' E.
    eapply (H Hcode ltac:(auto with quiet) ltac:(auto with quiet)
              ltac:(auto with quiet) w Hw r w').
    rewrite <- E. unfold bind, ret.
    destruct (capabilities_add self (VInt EV_KEY) resolved_code w) as [[[] | |] w1]; try reflexivity.
    destruct (call handler (VInt EV_KEY, resolved_code, VInt 1) w1) as [[[] | |] w2]; try reflexivity.
    destruct (Event_wait self _trigger_release_event false w2) as [[[] | |] w3]; try reflexivity.
    destruct (call handler (VInt EV_KEY, resolved_code, VInt 0) w3) as [[[] | |] w4]; reflexivity.
  - (* hold_macro_task *)
    apply respects_while_holding'; [assumption |].
    now apply respects_run_child.
  - (* modify_task *)
    apply (respects_bind_with allowed allowed_persistent _
             (fun resolved_code _ => resolves_to (modify_task code0 macro) resolved_code));
      [assumption | auto with quiet | intros w a w' _ E; eapply resolve_from, E
      | intros resolved_code].
    pose proof (respects_declared_key (modify_task code0 macro) resolved_code
                  (_keycode_pause self)
                  (_keycode_pause self ;;; run_child macro ;;; _keycode_pause self)
                  (_keycode_pause self)) as H.
    assert (Hinner : respects allowed (can_run_task self (modify_task code0 macro))
                       (_keycode_pause self ;;; run_child macro ;;; _keycode_pause self)).
    { repeat (apply respects_bind'; [assumption | auto with quiet | intros _]);
        auto with quiet.
      now apply respects_run_child. }
    intros w [Hw Hcode] r w' E.
    eapply (H Hcode ltac:(auto with quiet) Hinner ltac:(auto with quiet) w Hw r w').
    rewrite <- E. unfold bind.
    destruct (capabilities_add self (VInt EV_KEY) resolved_code w) as [[[] | |] w1]; try reflexivity.
    destruct (_keycode_pause self w1) as [[[] | |] w2]; try reflexivity.
    destruct (call handler (VInt EV_KEY, resolved_code, VInt 1) w2) as [[[] | |] w3]; try reflexivity.
    destruct (_keycode_pause self w3) as [[[] | |] w4]; try reflexivity.
    destruct (run_child macro w4) as [[[] | |] w5]; try reflexivity.
  - (* repeat_task *)
    apply respects_bind'; [assumption | auto with quiet | intros n].
    destruct n; auto with quiet.
    apply respects_repeat_times'; [assumption |].
    now apply respects_run_child.
  - (* key_task *)
    assert (Hcall : forall v, respects allowed (can_run_task self (key_task code0))
                                (call handler (VInt EV_KEY, code0, v))).
    { intros v. apply respects_call'.
      intros w (_ & Hadm & Hwf). eapply key_allowed; eassumption. }
    repeat (apply respects_bind'; [assumption | auto with quiet | intros _]);
      auto with quiet.
  - (* event_task *)
    apply respects_call'.
    intros w (_ & Hadm & Hwf). eapply event_allowed; eassumption.
  - (* keycode_pause_task *) auto with quiet.
  - (* mouse_task *)
    apply respects_bind'; [assumption | auto with quiet | intros s].
    destruct s; auto with quiet.
    apply respects_while_holding'; [assumption |].
    apply respects_bind'; [assumption | | auto with quiet].
    apply respects_call'.
    intros w (_ & Hadm & Hwf). eapply mouse_allowed; eassumption.
  - (* wheel_task *)
    apply respects_bind'; [assumption | auto with quiet | intros s].
    apply respects_while_holding'; [assumption |].
    apply respects_bind'; [assumption | | intros _].
    + apply respects_call'.
      intros w (_ & Hadm & Hwf). eapply wheel_allowed; eassumption.
    + apply Hq. quiet_tac.
  - (* wait_task *) apply Hq. quiet_tac.
  - (* set_task *)
    apply Hq. quiet_tac.
    intros w r w' E. inversion E. apply quiet_step_set_macro_variables.
  - (* ifeq_task *)
    apply respects_bind'; [assumption | auto with quiet | intros set_value].
    apply respects_bind'; [assumption | auto with quiet | intros _].
    destruct (py_eq set_value value_); apply respects_run_unless_None; simpl; auto.
  - (* if_eq_task *)
    apply respects_bind'; [assumption | auto with quiet | intros v1].
    apply respects_bind'; [assumption | auto with quiet | intros v2].
    destruct (py_eq v1 v2); apply respects_run_unless_None; simpl; auto.
  - (* if_tap_task *)
    apply respects_bind'; [assumption | auto with quiet | intros resolved_timeout].
    apply respects_bind'; [assumption | auto with quiet | intros nonpositive].
    apply respects_try_except'; [assumption | |].
    + apply respects_bind'; [assumption | auto with quiet | intros _].
      apply respects_run_if_truthy; simpl; auto.
    + intros _. apply respects_run_if_truthy; simpl; auto.
  - (* if_single_task *)
    apply respects_bind'; [assumption | auto with quiet | intros triggering_event].
    apply respects_bind'; [assumption | auto with quiet | intros resolved_timeout].
    apply respects_bind'; [assumption | auto with quiet | intros rounds].
    apply respects_bind'; [assumption | | intros done].
    + apply respects_try_except'; [assumption | | auto with quiet].
      apply respects_bind'; [assumption | | intros _].
      * apply Hq. destruct resolved_timeout; quiet_tac.
      * apply respects_bind'; [assumption | auto with quiet | intros newest_event].
        destruct (bool_decide (triggering_event = newest_event)); auto with quiet.
        apply respects_bind'; [assumption | | auto with quiet].
        apply respects_run_if_truthy; simpl; auto.
    + destruct done; auto with quiet.
      apply respects_run_if_truthy; simpl; auto.
Qed.

End Task.

Lemma respects_run_tasks (U : World -> Prop) (run_one : task -> M unit)
    (code : option string) (ts : list task) :
  persistent U ->
  (forall t, t ∈ ts -> respects allowed U (run_one t)) ->
  respects allowed U (run_tasks run_one code ts).
Proof.
  intros PU. induction ts as [| t rest IH]; intros Hts; cbn [run_tasks].
  - apply respects_quiet, quiet_ret.
  - intros w Hw r w' E.
    destruct (run_one t w) as [[[] | e | s] w1] eqn:E1.
    + pose proof (Hts t ltac:(left) w Hw _ _ E1) as G1.
      eapply guarded_step_trans; [assumption | exact G1 |].
      eapply IH; [| | exact E].
      * intros t' Ht'. apply Hts. now right.
      * eapply PU; [apply G1 | exact Hw].
    + pose proof (Hts t ltac:(left) w Hw _ _ E1) as G1.
      destruct (is_Exception e).
      * eapply guarded_step_trans; [assumption | exact G1 |].
        apply guarded_step_quiet. eapply quiet_logger; eassumption.
      * inversion E; subst. exact G1.
    + inversion E; subst. eapply (Hts t ltac:(left)); eassumption.
Qed.

(** Running a macro that may run emits only what is allowed, and keeps
    what was built. *)
Theorem run_respects (fuel : nat) (handler : Handler) (macro : value) :
  respects allowed (can_run macro) (run env fuel handler macro).
Proof.
  revert macro. induction fuel as [| fuel IH]; intros macro; cbn [run].
  - apply respects_quiet, quiet_stop_with.
  - destruct macro as [| | | | | addr]; try (apply respects_quiet, quiet_raise).
    destruct handler as [| raises]; [apply respects_quiet, quiet_raise |].
    pose proof (persistent_may_run (VMacro addr)) as PU.
    apply (respects_bind_with allowed allowed_persistent _
             (fun m w => exists m', heap w !! addr = Some m' /\ tasks m' = tasks m)).
    + exact PU.
    + apply respects_quiet, quiet_the_macro.
    + intros w m w' _ E. unfold the_macro in E.
      destruct (heap w !! addr) as [m0 |] eqn:Hm; inversion E; subst. eauto.
    + intros m.
      pose proof (persistent_and _ _ PU (persistent_tasks addr m)) as PUQ.
      destruct (running m); [apply respects_quiet, quiet_logger |].
      apply respects_bind'; [exact PUQ | apply respects_quiet; quiet_tac | intros _].
      destruct (context m) as [sleep_ms |]; [| apply respects_quiet, quiet_raise].
      apply respects_bind'; [exact PUQ | apply respects_quiet; quiet_tac | intros _].
      apply respects_bind'; [exact PUQ | apply respects_quiet; quiet_tac | intros _].
      apply respects_bind'; [exact PUQ | | intros _; apply respects_quiet; quiet_tac].
      apply respects_run_tasks; [exact PUQ |].
      intros t Ht w [[Hall Hadm] (m' & Hm' & Htasks)].
      apply (run_task_respects (run env fuel (callable raises)) IH fuel addr
               (callable raises) t w).
      split; [exact Hall | split; [exact Hadm |]].
      eapply Hall; [exact Hm' |]. rewrite Htasks. exact Ht.
Qed.

End Guarded_run.

(** *** Running keeps what was built *)

(** With every emission allowed, the theorem says how the world changes
    in any run. *)
Lemma run_world_le (env : Environment) (fuel : nat) (handler : Handler) (macro : value)
    (w w' : World) (r : result unit) :
  run env fuel handler macro w = (r, w') -> world_le w w'.
Proof.
  intros E.
  assert (H : respects (fun _ _ => True)
                (may_run (fun _ _ => True) (fun _ _ _ => True) macro)
                (run env fuel handler macro)).
  { apply run_respects; repeat intro; exact I. }
  eapply H; [| exact E].
  split; [repeat intro; exact I | destruct macro; exact I].
Qed.

Lemma run_task_world_le (env : Environment) (fuel k self : nat) (handler : Handler)
    (t : task) (w w' : World) (r : result unit) :
  run_task env (run env fuel handler) k self handler t w = (r, w') -> world_le w w'.
Proof.
  intros E.
  assert (H : respects (fun _ _ => True)
                (may_run_task (fun _ _ => True) (fun _ _ _ => True) self t)
                (run_task env (run env fuel handler) k self handler t)).
  { apply run_task_respects; try (repeat intro; exact I).
    intros macro w0 _ r0 w0' E0.
    split; [eapply run_world_le; eassumption | repeat intro; exact I]. }
  eapply H; [| exact E].
  split; [repeat intro; exact I | split; exact I].
Qed.

(** ** The loop over the tasks *)

Lemma bind_ok_inv {A B} (m : M A) (k : A -> M B) (w w' : World) (b : B) :
  bind m k w = (Ok b, w') ->
  exists a w1, m w = (Ok a, w1) /\ k a w1 = (Ok b, w').
Proof.
  intros H. apply bind_inv in H as [H | [(e & _ & H) | (s & _ & H)]];
    [assumption | discriminate | discriminate].
Qed.

(** When the tasks before [t] return and [t] raises an [Exception], the
    loop logs it and ends there. *)
Lemma run_tasks_failure (run_one : task -> M unit) (code : option string)
    (pre post : list task) (t : task) (e : exn) (w0 w1 w2 : World) :
  for_each pre run_one w0 = (Ok tt, w1) ->
  run_one t w1 = (Raise e, w2) ->
  is_Exception e = true ->
  run_tasks run_one code (pre ++ t :: post) w0 =
    (Ok tt, set_logged (logged w2 ++ [log_macro_failed code e]) w2).
Proof.
  revert w0. induction pre as [| p pre IH]; intros w0 Hpre Ht He.
  - simpl in Hpre. inversion Hpre; subst. simpl. rewrite Ht, He. reflexivity.
  - simpl in Hpre. apply bind_ok_inv in Hpre as ([] & wp & Hp & Hrest).
    simpl. rewrite Hp. now apply IH.
Qed.

(** What is no [Exception] leaves the loop as the task raised it. *)
Lemma run_tasks_escape (run_one : task -> M unit) (code : option string)
    (pre post : list task) (t : task) (e : exn) (w0 w1 w2 : World) :
  for_each pre run_one w0 = (Ok tt, w1) ->
  run_one t w1 = (Raise e, w2) ->
  is_Exception e = false ->
  run_tasks run_one code (pre ++ t :: post) w0 = (Raise e, w2).
Proof.
  revert w0. induction pre as [| p pre IH]; intros w0 Hpre Ht He.
  - simpl in Hpre. inversion Hpre; subst. simpl. rewrite Ht, He. reflexivity.
  - simpl in Hpre. apply bind_ok_inv in Hpre as ([] & wp & Hp & Hrest).
    simpl. rewrite Hp. now apply IH.
Qed.

(** When all tasks return, the loop returns in the world they leave. *)
Lemma run_tasks_all_return (run_one : task -> M unit) (code : option string)
    (ts : list task) (w0 w1 : World) :
  for_each ts run_one w0 = (Ok tt, w1) ->
  run_tasks run_one code ts w0 = (Ok tt, w1).
Proof.
  revert w0. induction ts as [| t ts IH]; intros w0 H; simpl in *.
  - exact H.
  - apply bind_ok_inv in H as ([] & wp & Hp & Hrest). rewrite Hp. now apply IH.
Qed.

Lemma for_each_world_le {A} (l : list A) (f : A -> M unit) (w w' : World) (r : result unit) :
  (forall x w1 w2 r, f x w1 = (r, w2) -> world_le w1 w2) ->
  for_each l f w = (r, w') -> world_le w w'.
Proof.
  intros Hf. revert w. induction l as [| x l IH]; intros w H; simpl in H.
  - inversion H. reflexivity.
  - apply bind_inv in H as [(a & w1 & H1 & H2) | [(e & H1 & _) | (s & H1 & _)]].
    + etransitivity; [eapply Hf; eassumption | eapply IH; eassumption].
    + eapply Hf; eassumption.
    + eapply Hf; eassumption.
Qed.

(** [run] up to the loop over the tasks. *)
Lemma run_unfold (env : Environment) (fuel : nat)
    (raises : list emission -> emission -> option exn) (addr : nat) (m : Macro)
    (sleep_ms : value) (w : World) :
  heap w !! addr = Some m ->
  running m = false ->
  context m = Some sleep_ms ->
  run env (S fuel) (callable raises) (VMacro addr) w =
    (run_tasks (run_task env (run env fuel (callable raises)) fuel addr (callable raises))
       (code m) (tasks m) ;;;
     update_macro addr (with_running false)) (started addr m sleep_ms w).
Proof.
  intros Hm Hr Hc. cbn [run]. unfold bind at 1.
  rewrite (the_macro_lookup _ _ _ Hm), Hr.
  unfold bind at 1. rewrite (update_macro_lookup _ _ _ _ Hm). rewrite Hc.
  unfold bind at 1.
  erewrite update_macro_lookup by (simpl; apply lookup_insert_eq).
  unfold bind at 1.
  erewrite update_macro_lookup by (simpl; apply lookup_insert_eq).
  unfold started. simpl. rewrite !insert_insert_eq. reflexivity.
Qed.

(** ** What a task emits *)

Lemma call_ok_inv (handler : Handler) (e : emission) (w w' : World) :
  call handler e w = (Ok tt, w') -> emitted w' = emitted w ++ [e].
Proof.
  destruct handler as [| raises]; simpl; [discriminate |].
  destruct (raises (emitted w) e); [discriminate |].
  intros H. inversion H. reflexivity.
Qed.

Lemma quiet_emitted {A} (m : M A) (w w' : World) (r : result A) :
  quiet m -> m w = (r, w') -> emitted w' = emitted w.
Proof. intros Hq H. eapply Hq; eassumption. Qed.

Lemma run_emitted (env : Environment) (fuel : nat) (handler : Handler) (macro : value)
    (w w' : World) (r : result unit) :
  run env fuel handler macro w = (r, w') ->
  emitted w' = emitted w ++ emitted_since w w'.
Proof. intros H. apply emitted_since_prefix. eapply run_world_le; eassumption. Qed.

(** ** What the builders leave *)

Lemma task_built_mono (m m' : Macro) (t : task) :
  caps_le (capabilities m) (capabilities m') ->
  child_macros m ⊆ child_macros m' ->
  task_built m t -> task_built m' t.
Proof.
  intros Hc Hch [Hd Hr]. split.
  - destruct t; try exact I;
      try (destruct Hd as [Hd Hint]; split; [| exact Hint]);
      eapply caps_le_declares; eassumption.
  - intros child H. apply Hch, Hr, H.
Qed.

Lemma persistent_well_built : persistent well_built.
Proof.
  intros w w' Hle H addr m' t Hm' Ht.
  destruct (world_le_lookup_inv _ _ _ _ Hle Hm') as (m & Hm & Hmm).
  eapply task_built_mono; [apply Hmm | now rewrite (le_child_macros _ _ Hmm) |].
  eapply H; [exact Hm |]. now rewrite <- (le_tasks _ _ Hmm).
Qed.

Lemma well_built_rebuilt (self : nat) (m m' : Macro) (w w' : World) :
  well_built w -> heap w !! self = Some m ->
  rewrites self m' w w' -> rebuilt m m' ->
  well_built w'.
Proof.
  intros Hw Hm -> (Hc & Hch & more & Ht & Hmore) addr m1 t Hm1 Hin. simpl in Hm1.
  destruct (decide (self = addr)) as [<- | Hne].
  - rewrite lookup_insert_eq in Hm1. inversion Hm1; subst m1.
    rewrite Ht in Hin. apply elem_of_app in Hin as [Hin | Hin].
    + eapply task_built_mono; [exact Hc | exact Hch | eapply Hw; eassumption].
    + rewrite Forall_forall in Hmore. auto.
  - rewrite lookup_insert_ne in Hm1 by assumption. eapply Hw; eassumption.
Qed.

Lemma rewrites_start (self : nat) (m : Macro) (w : World) :
  heap w !! self = Some m -> rewrites self m w w.
Proof.
  intros H. unfold rewrites. rewrite (insert_id _ _ _ H). now destruct w.
Qed.

Lemma chain_update_macro (self : nat) (f : Macro -> Macro) (m1 : Macro) (w w1 w2 : World)
    (r : result unit) :
  rewrites self m1 w w1 ->
  update_macro self f w1 = (r, w2) ->
  r = Ok tt /\ rewrites self (f m1) w w2.
Proof.
  intros -> H. unfold update_macro in H. simpl in H.
  rewrite lookup_insert_eq in H. inversion H; subst. split; [reflexivity |].
  unfold rewrites. simpl. now rewrite insert_insert_eq.
Qed.

Lemma chain_capabilities_add (self : nat) (ty c : value) (m1 : Macro) (w w1 w2 : World) :
  rewrites self m1 w w1 ->
  capabilities_add self ty c w1 = (Ok tt, w2) ->
  exists codes,
    capabilities m1 !! ty = Some codes /\
    rewrites self (with_capabilities (<[ty := codes ∪ {[c]}]> (capabilities m1)) m1) w w2.
Proof.
  intros R H. unfold capabilities_add in H.
  apply bind_ok_inv in H as (m & w' & Hthe & H).
  unfold the_macro in Hthe. rewrite R in Hthe. simpl in Hthe.
  rewrite lookup_insert_eq in Hthe. inversion Hthe; subst m w'. clear Hthe.
  destruct (capabilities m1 !! ty) as [codes |] eqn:Hc; [| discriminate].
  exists codes. split; [reflexivity |].
  rewrite <- R in H. eapply chain_update_macro; eassumption.
Qed.

Lemma type_check_same (env : Environment) (v : value) (allowed_types : list kind)
    (display_name : option string) (position : option Z) (w w' : World) (r : result value) :
  type_check env v allowed_types display_name position w = (r, w') -> w' = w.
Proof.
  unfold type_check, lift. destruct (_type_check _ _ _ _ _ _); intros H; now inversion H.
Qed.

Lemma type_check_keyname_same (env : Environment) (v : value) (w w' : World)
    (r : result value) :
  type_check_keyname env v w = (r, w') -> w' = w.
Proof.
  unfold type_check_keyname, lift. destruct (_type_check_keyname _ _ _); intros H;
    now inversion H.
Qed.

Lemma type_check_keyname_value (env : Environment) (v c : value) (w w' : World) :
  type_check_keyname env v w = (Ok c, w') ->
  w' = w /\ ((exists oid name, v = VVariable oid name /\ c = v) \/ exists n, c = VInt n).
Proof.
  intros H. split; [eapply type_check_keyname_same; eassumption |].
  unfold type_check_keyname, lift, _type_check_keyname in H.
  destruct v;
    try (destruct (py_str _ _ _); [| discriminate];
         destruct (system_mapping _ _); inversion H; eauto).
  inversion H; subst. left. eauto.
Qed.

Lemma str_inv (env : Environment) (v : value) (s : string) (w w' : World) :
  str env v w = (Ok s, w') -> py_str env w v = Some s /\ w' = w.
Proof. unfold str. destruct (py_str env w v); intros H; inversion H; auto. Qed.

Lemma str_same (env : Environment) (v : value) (w w' : World) (r : result string) :
  str env v w = (r, w') -> w' = w.
Proof. unfold str. destruct (py_str env w v); intros H; now inversion H. Qed.

Lemma lift_same {A} (x : exn + A) (w w' : World) (r : result A) :
  lift x w = (r, w') -> w' = w.
Proof. destruct x; intros H; now inversion H. Qed.

Lemma gets_inv {A} (f : World -> A) (w w' : World) (a : A) :
  gets f w = (Ok a, w') -> a = f w /\ w' = w.
Proof. intros H. inversion H. auto. Qed.

Lemma the_macro_inv (self : nat) (m : Macro) (w w' : World) :
  the_macro self w = (Ok m, w') -> heap w !! self = Some m /\ w' = w.
Proof.
  unfold the_macro. destruct (heap w !! self); intros H; inversion H; auto.
Qed.

Lemma ecodes_of_name_same (env : Environment) (x : value) (w w' : World) (r : result value) :
  ecodes_of_name env x w = (r, w') -> w' = w.
Proof.
  unfold ecodes_of_name. destruct x; try (intros H; now inversion H).
  destruct (ecodes _ _); intros H; now inversion H.
Qed.

Lemma direction_lookup_same (env : Environment) (table : list (string * (Z * Z)))
    (direction : value) (w w' : World) (r : result (Z * Z)) :
  direction_lookup env table direction w = (r, w') -> w' = w.
Proof.
  unfold direction_lookup. destruct direction; try (intros H; now inversion H).
  destruct (List.find _ _); intros H; now inversion H.
Qed.

Lemma update_macro_is_Some (self : nat) (f : Macro -> Macro) (w w' : World) :
  update_macro self f w = (Ok tt, w') -> is_Some (heap w !! self).
Proof. unfold update_macro. destruct (heap w !! self); [eauto | discriminate]. Qed.

Lemma capabilities_add_is_Some (self : nat) (ty c : value) (w w' : World) :
  capabilities_add self ty c w = (Ok tt, w') -> is_Some (heap w !! self).
Proof.
  unfold capabilities_add, bind, the_macro. destruct (heap w !! self); [eauto | discriminate].
Qed.

Lemma chain_tasks_append (self : nat) (t : task) (m1 : Macro) (w w1 w2 : World) :
  rewrites self m1 w w1 ->
  tasks_append self t w1 = (Ok tt, w2) ->
  rewrites self (with_tasks (tasks m1 ++ [t]) m1) w w2.
Proof. intros R H. eapply (chain_update_macro _ _ _ _ _ _ _ R H). Qed.

Lemma chain_child_macros_append (self : nat) (c : value) (m1 : Macro) (w w1 w2 : World) :
  rewrites self m1 w w1 ->
  child_macros_append self c w1 = (Ok tt, w2) ->
  rewrites self (with_child_macros (child_macros m1 ++ [c]) m1) w w2.
Proof. intros R H. eapply (chain_update_macro _ _ _ _ _ _ _ R H). Qed.

Lemma chain_child_macros_append_if_Macro (self : nat) (c : value) (m1 : Macro)
    (w w1 w2 : World) :
  rewrites self m1 w w1 ->
  child_macros_append_if_Macro self c w1 = (Ok tt, w2) ->
  exists m2,
    rewrites self m2 w w2 /\ capabilities m2 = capabilities m1 /\
    tasks m2 = tasks m1 /\ child_macros m1 ⊆ child_macros m2 /\
    (forall child, c = VMacro child -> c ∈ child_macros m2).
Proof.
  intros R H. destruct c; simpl in H;
    try (inversion H; subst; exists m1; repeat split; auto; discriminate).
  exists (with_child_macros (child_macros m1 ++ [VMacro addr]) m1).
  split; [eapply chain_child_macros_append; eassumption |].
  simpl. repeat split; auto; set_solver.
Qed.

Lemma rebuilt_one_task (m m' : Macro) (t : task) :
  caps_le (capabilities m) (capabilities m') ->
  child_macros m ⊆ child_macros m' ->
  tasks m' = tasks m ++ [t] ->
  task_built m' t ->
  rebuilt m m'.
Proof.
  intros Hc Hch Ht Hb. split; [exact Hc | split; [exact Hch |]].
  exists [t]. split; [exact Ht | now constructor].
Qed.

Lemma declares_insert (caps : gmap value (gset value)) (ty c : value) (codes : gset value) :
  c ∈ codes -> declares (<[ty := codes]> caps) ty c.
Proof. intros H. exists codes. now rewrite lookup_insert_eq. Qed.

(** The branch of [add_hold] for the name of a key. *)
Lemma hold_key_builds (env : Environment) (self : nat) (macro : value) (w w' : World) :
  (code <- type_check_keyname env macro ;;
   capabilities_add self (VInt EV_KEY) code ;;;
   tasks_append self (hold_key_task code)) w = (Ok tt, w') ->
  builds self w w'.
Proof.
  intros H.
  apply bind_ok_inv in H as (c & w1 & H1 & H).
  apply type_check_keyname_same in H1 as ->.
  apply bind_ok_inv in H as ([] & w2 & H2 & H).
  destruct (capabilities_add_is_Some _ _ _ _ _ H2) as [m Hm].
  destruct (chain_capabilities_add _ _ _ _ _ _ _ (rewrites_start _ _ _ Hm) H2)
    as (codes & Hc & R2).
  pose proof (chain_tasks_append _ _ _ _ _ _ R2 H) as R.
  eexists m, _. split; [exact Hm | split; [exact R |]].
  eapply rebuilt_one_task; simpl; [| reflexivity | reflexivity |].
  - eapply caps_le_insert; [exact Hc | set_solver].
  - split; [apply declares_insert; set_solver | intros ch []].
Qed.

Lemma add_hold_builds (env : Environment) (self : nat) (macro : value) (w w' : World) :
  add_hold env self macro w = (Ok tt, w') -> builds self w w'.
Proof.
  intros H. unfold add_hold in H.
  apply bind_ok_inv in H as (x & w1 & H1 & H). apply type_check_same in H1 as ->.
  destruct macro as [| z | f | s | oid name | child].
  - destruct (update_macro_is_Some _ _ _ _ H) as [m Hm].
    pose proof (chain_tasks_append _ _ _ _ _ _ (rewrites_start _ _ _ Hm) H) as R.
    eexists m, _. split; [exact Hm | split; [exact R |]].
    eapply rebuilt_one_task; simpl; [reflexivity | reflexivity | reflexivity |].
    split; [exact I | intros c []].
  - eapply hold_key_builds; eassumption.
  - eapply hold_key_builds; eassumption.
  - eapply hold_key_builds; eassumption.
  - eapply hold_key_builds; eassumption.
  - apply bind_ok_inv in H as ([] & w1 & H1 & H).
    destruct (update_macro_is_Some _ _ _ _ H1) as [m Hm].
    pose proof (chain_tasks_append _ _ _ _ _ _ (rewrites_start _ _ _ Hm) H1) as R1.
    pose proof (chain_child_macros_append _ _ _ _ _ _ R1 H) as R.
    eexists m, _. split; [exact Hm | split; [exact R |]].
    eapply rebuilt_one_task; simpl; [reflexivity | set_solver | reflexivity |].
    split; [exact I |]. simpl. intros c ->. set_solver.
Qed.

Lemma add_modify_builds (env : Environment) (self : nat) (modifier macro : value)
    (w w' : World) :
  add_modify env self modifier macro w = (Ok tt, w') -> builds self w w'.
Proof.
  intros H. unfold add_modify in H.
  apply bind_ok_inv in H as (x & w1 & H1 & H). apply type_check_same in H1 as ->.
  apply bind_ok_inv in H as (name & w1 & H1 & H). apply str_same in H1 as ->.
  destruct (system_mapping env _) as [code |]; [| discriminate].
  apply bind_ok_inv in H as ([] & w2 & H2 & H).
  apply bind_ok_inv in H as ([] & w3 & H3 & H).
  destruct (capabilities_add_is_Some _ _ _ _ _ H2) as [m Hm].
  destruct (chain_capabilities_add _ _ _ _ _ _ _ (rewrites_start _ _ _ Hm) H2)
    as (codes & Hc & R2).
  pose proof (chain_child_macros_append _ _ _ _ _ _ R2 H3) as R3.
  pose proof (chain_tasks_append _ _ _ _ _ _ R3 H) as R.
  eexists m, _. split; [exact Hm | split; [exact R |]].
  eapply rebuilt_one_task; simpl; [| set_solver | reflexivity |].
  - eapply caps_le_insert; [exact Hc | set_solver].
  - split; [split; [apply declares_insert; set_solver | reflexivity] |].
    simpl. intros c <-. set_solver.
Qed.

Lemma add_repeat_builds (env : Environment) (self : nat) (repeats macro : value)
    (w w' : World) :
  add_repeat env self repeats macro w = (Ok tt, w') -> builds self w w'.
Proof.
  intros H. unfold add_repeat in H.
  apply bind_ok_inv in H as (n & w1 & H1 & H). apply type_check_same in H1 as ->.
  apply bind_ok_inv in H as (x & w1 & H1 & H). apply type_check_same in H1 as ->.
  apply bind_ok_inv in H as ([] & w2 & H2 & H).
  destruct (update_macro_is_Some _ _ _ _ H2) as [m Hm].
  pose proof (chain_tasks_append _ _ _ _ _ _ (rewrites_start _ _ _ Hm) H2) as R2.
  pose proof (chain_child_macros_append _ _ _ _ _ _ R2 H) as R.
  eexists m, _. split; [exact Hm | split; [exact R |]].
  eapply rebuilt_one_task; simpl; [reflexivity | set_solver | reflexivity |].
  split; [exact I |]. simpl. intros c <-. set_solver.
Qed.

Lemma add_key_builds (env : Environment) (self : nat) (symbol : value) (w w' : World) :
  add_key env self symbol w = (Ok tt, w') -> builds self w w'.
Proof.
  intros H. unfold add_key in H.
  apply bind_ok_inv in H as (x & w1 & H1 & H). apply type_check_keyname_same in H1 as ->.
  apply bind_ok_inv in H as (name & w1 & H1 & H). apply str_same in H1 as ->.
  apply bind_ok_inv in H as ([] & w2 & H2 & H).
  destruct (capabilities_add_is_Some _ _ _ _ _ H2) as [m Hm].
  destruct (chain_capabilities_add _ _ _ _ _ _ _ (rewrites_start _ _ _ Hm) H2)
    as (codes & Hc & R2).
  pose proof (chain_tasks_append _ _ _ _ _ _ R2 H) as R.
  eexists m, _. split; [exact Hm | split; [exact R |]].
  eapply rebuilt_one_task; simpl; [| reflexivity | reflexivity |].
  - eapply caps_le_insert; [exact Hc | set_solver].
  - split; [| intros ch []]. simpl. apply declares_insert. set_solver.
Qed.

Lemma add_wait_builds (env : Environment) (self : nat) (time : value) (w w' : World) :
  add_wait env self time w = (Ok tt, w') -> builds self w w'.
Proof.
  intros H. unfold add_wait in H.
  apply bind_ok_inv in H as (x & w1 & H1 & H). apply type_check_same in H1 as ->.
  destruct (update_macro_is_Some _ _ _ _ H) as [m Hm].
  pose proof (chain_tasks_append _ _ _ _ _ _ (rewrites_start _ _ _ Hm) H) as R.
  eexists m, _. split; [exact Hm | split; [exact R |]].
  eapply rebuilt_one_task; simpl; [reflexivity | reflexivity | reflexivity |].
  split; [exact I | intros ch []].
Qed.

Lemma add_set_builds (env : Environment) (self : nat) (variable value_ : value)
    (w w' : World) :
  add_set env self variable value_ w = (Ok tt, w') -> builds self w w'.
Proof.
  intros H. unfold add_set in H.
  apply bind_ok_inv in H as (x & w1 & H1 & H). apply lift_same in H1 as ->.
  destruct (update_macro_is_Some _ _ _ _ H) as [m Hm].
  pose proof (chain_tasks_append _ _ _ _ _ _ (rewrites_start _ _ _ Hm) H) as R.
  eexists m, _. split; [exact Hm | split; [exact R |]].
  eapply rebuilt_one_task; simpl; [reflexivity | reflexivity | reflexivity |].
  split; [exact I | intros ch []].
Qed.

Lemma child_macros_append_if_Macro_is_Some (self : nat) (c : value) (w w' : World) :
  child_macros_append_if_Macro self c w = (Ok tt, w') ->
  is_Some (heap w' !! self) -> is_Some (heap w !! self).
Proof.
  intros H Hs. destruct c; simpl in H; try (inversion H; subst; exact Hs).
  eapply update_macro_is_Some. exact H.
Qed.

(** The common end of the four conditionals: both branches are
    registered when they are macros, then the task is appended. *)
Lemma branches_build (self : nat) (then_ else_ : value) (t : task) (w w' : World) :
  (forall macro, runs_macro t macro -> macro = then_ \/ macro = else_) ->
  match t with
  | key_task _ | hold_key_task _ | modify_task _ _ | event_task _ _ _
  | mouse_task _ _ _ | wheel_task _ _ _ => False
  | _ => True
  end ->
  (child_macros_append_if_Macro self then_ ;;;
   child_macros_append_if_Macro self else_ ;;;
   tasks_append self t) w = (Ok tt, w') ->
  builds self w w'.
Proof.
  intros Hruns Hquiet H.
  apply bind_ok_inv in H as ([] & w1 & H1 & H).
  apply bind_ok_inv in H as ([] & w2 & H2 & H).
  destruct (update_macro_is_Some _ _ _ _ H) as [m2 Hm2].
  assert (Hm : is_Some (heap w !! self)).
  { eapply child_macros_append_if_Macro_is_Some; [exact H1 |].
    eapply child_macros_append_if_Macro_is_Some; [exact H2 | eauto]. }
  destruct Hm as [m Hm].
  destruct (chain_child_macros_append_if_Macro _ _ _ _ _ _ (rewrites_start _ _ _ Hm) H1)
    as (ma & Ra & Hca & Hta & Hcha & Hthen).
  destruct (chain_child_macros_append_if_Macro _ _ _ _ _ _ Ra H2)
    as (mb & Rb & Hcb & Htb & Hchb & Helse).
  pose proof (chain_tasks_append _ _ _ _ _ _ Rb H) as R.
  eexists m, _. split; [exact Hm | split; [exact R |]].
  eapply rebuilt_one_task; simpl.
  - rewrite Hcb, Hca. reflexivity.
  - set_solver.
  - now rewrite Htb, Hta.
  - split; [destruct t; try exact I; destruct Hquiet |].
    simpl. intros child Hc. destruct (Hruns _ Hc) as [E | E].
    + apply Hchb. rewrite E. eapply Hthen. symmetry. exact E.
    + rewrite E. eapply Helse. symmetry. exact E.
Qed.

Lemma add_ifeq_builds (env : Environment) (self : nat) (variable value_ then_ else_ : value)
    (w w' : World) :
  add_ifeq env self variable value_ then_ else_ w = (Ok tt, w') -> builds self w w'.
Proof.
  intros H. unfold add_ifeq in H.
  apply bind_ok_inv in H as (x & w1 & H1 & H). apply type_check_same in H1 as ->.
  apply bind_ok_inv in H as (y & w1 & H1 & H). apply type_check_same in H1 as ->.
  eapply branches_build; [| | exact H]; simpl; auto.
Qed.

Lemma add_if_eq_builds (env : Environment) (self : nat) (value_1 value_2 then_ else_ : value)
    (w w' : World) :
  add_if_eq env self value_1 value_2 then_ else_ w = (Ok tt, w') -> builds self w w'.
Proof.
  intros H. unfold add_if_eq in H.
  apply bind_ok_inv in H as (x & w1 & H1 & H). apply type_check_same in H1 as ->.
  apply bind_ok_inv in H as (y & w1 & H1 & H). apply type_check_same in H1 as ->.
  eapply branches_build; [| | exact H]; simpl; auto.
Qed.

Lemma add_if_tap_builds (env : Environment) (self : nat) (then_ else_ timeout : value)
    (w w' : World) :
  add_if_tap env self then_ else_ timeout w = (Ok tt, w') -> builds self w w'.
Proof.
  intros H. unfold add_if_tap in H.
  apply bind_ok_inv in H as (x & w1 & H1 & H). apply type_check_same in H1 as ->.
  apply bind_ok_inv in H as (y & w1 & H1 & H). apply type_check_same in H1 as ->.
  apply bind_ok_inv in H as (z & w1 & H1 & H). apply type_check_same in H1 as ->.
  eapply branches_build; [| | exact H]; simpl; auto.
Qed.

Lemma add_if_single_builds (env : Environment) (self : nat) (then_ else_ timeout : value)
    (w w' : World) :
  add_if_single env self then_ else_ timeout w = (Ok tt, w') -> builds self w w'.
Proof.
  intros H. unfold add_if_single in H.
  apply bind_ok_inv in H as (x & w1 & H1 & H). apply type_check_same in H1 as ->.
  apply bind_ok_inv in H as (y & w1 & H1 & H). apply type_check_same in H1 as ->.
  eapply branches_build; [| | exact H]; simpl; auto.
Qed.

(** The same steps of a chain, keeping only what matters of the new
    state of the macro. *)
Lemma chain_capabilities_add_facts (self : nat) (ty c : value) (m1 : Macro)
    (w w1 w2 : World) :
  rewrites self m1 w w1 ->
  capabilities_add self ty c w1 = (Ok tt, w2) ->
  exists m2,
    rewrites self m2 w w2 /\ caps_le (capabilities m1) (capabilities m2) /\
    declares (capabilities m2) ty c /\
    tasks m2 = tasks m1 /\ child_macros m2 = child_macros m1.
Proof.
  intros R H. destruct (chain_capabilities_add _ _ _ _ _ _ _ R H) as (codes & Hc & R2).
  eexists. split; [exact R2 |]. simpl. repeat split.
  - eapply caps_le_insert; [exact Hc | set_solver].
  - apply declares_insert. set_solver.
Qed.

Lemma chain_add_mouse_capabilities (self : nat) (m1 : Macro) (w w1 w2 : World) :
  rewrites self m1 w w1 ->
  add_mouse_capabilities self w1 = (Ok tt, w2) ->
  exists m2,
    rewrites self m2 w w2 /\ caps_le (capabilities m1) (capabilities m2) /\
    (forall c, c ∈ [REL_X; REL_Y; REL_WHEEL; REL_HWHEEL] ->
       declares (capabilities m2) (VInt EV_REL) (VInt c)) /\
    tasks m2 = tasks m1 /\ child_macros m2 = child_macros m1.
Proof.
  intros R H. unfold add_mouse_capabilities in H.
  apply bind_ok_inv in H as ([] & wa & Ha & H).
  apply bind_ok_inv in H as ([] & wb & Hb & H).
  apply bind_ok_inv in H as ([] & wc & Hc & Hd).
  destruct (chain_capabilities_add_facts _ _ _ _ _ _ _ R Ha) as (ma & Ra & La & Da & Ta & Ca).
  destruct (chain_capabilities_add_facts _ _ _ _ _ _ _ Ra Hb) as (mb & Rb & Lb & Db & Tb & Cb).
  destruct (chain_capabilities_add_facts _ _ _ _ _ _ _ Rb Hc) as (mc & Rc & Lc & Dc & Tc & Cc).
  destruct (chain_capabilities_add_facts _ _ _ _ _ _ _ Rc Hd) as (md & Rd & Ld & Dd & Td & Cd).
  exists md. split; [exact Rd |]. repeat split.
  - repeat (etransitivity; [eassumption |]). reflexivity.
  - intros c Hin. repeat (apply elem_of_cons in Hin as [-> | Hin]).
    + eapply caps_le_declares; [| exact Da]. etransitivity; [exact Lb |].
      etransitivity; [exact Lc | exact Ld].
    + eapply caps_le_declares; [| exact Db]. etransitivity; [exact Lc | exact Ld].
    + eapply caps_le_declares; [exact Ld | exact Dc].
    + exact Dd.
    + inversion Hin.
  - congruence.
  - congruence.
Qed.

Lemma direction_lookup_code (env : Environment) (table : list (string * (Z * Z)))
    (direction : value) (cv : Z * Z) (w w' : World) :
  direction_lookup env table direction w = (Ok cv, w') ->
  w' = w /\ cv.1 ∈ (fun entry => entry.2.1) <$> table.
Proof.
  intros H. split; [eapply direction_lookup_same; exact H |].
  unfold direction_lookup in H. destruct direction; try discriminate.
  destruct (List.find _ _) as [entry |] eqn:Hf; [| discriminate].
  inversion H; subst. apply List.find_some in Hf as [Hin _].
  apply list_elem_of_fmap. exists entry. split; [reflexivity |].
  now apply list_elem_of_In.
Qed.

Lemma add_mouse_builds (env : Environment) (self : nat) (direction speed : value)
    (w w' : World) :
  add_mouse env self direction speed w = (Ok tt, w') -> builds self w w'.
Proof.
  intros H. unfold add_mouse in H.
  apply bind_ok_inv in H as (x & w1 & H1 & H). apply type_check_same in H1 as ->.
  apply bind_ok_inv in H as (s & w1 & H1 & H). apply type_check_same in H1 as ->.
  apply bind_ok_inv in H as (cv & w1 & H1 & H).
  apply direction_lookup_code in H1 as [-> Hcode].
  apply bind_ok_inv in H as ([] & w2 & H2 & H).
  assert (Hm : is_Some (heap w !! self)).
  { unfold add_mouse_capabilities in H2. apply bind_ok_inv in H2 as ([] & ? & Ha & _).
    eapply capabilities_add_is_Some; exact Ha. }
  destruct Hm as [m Hm].
  destruct (chain_add_mouse_capabilities _ _ _ _ _ (rewrites_start _ _ _ Hm) H2)
    as (m2 & R2 & L2 & D2 & T2 & C2).
  pose proof (chain_tasks_append _ _ _ _ _ _ R2 H) as R.
  eexists m, _. split; [exact Hm | split; [exact R |]].
  eapply rebuilt_one_task; simpl; [exact L2 | now rewrite C2 | now rewrite T2 |].
  split; [| intros ch []]. simpl. apply D2.
  cbn in Hcode. clear -Hcode. rewrite !elem_of_cons in *. tauto.
Qed.

Lemma add_wheel_builds (env : Environment) (self : nat) (direction speed : value)
    (w w' : World) :
  add_wheel env self direction speed w = (Ok tt, w') -> builds self w w'.
Proof.
  intros H. unfold add_wheel in H.
  apply bind_ok_inv in H as (x & w1 & H1 & H). apply type_check_same in H1 as ->.
  apply bind_ok_inv in H as (s & w1 & H1 & H). apply type_check_same in H1 as ->.
  apply bind_ok_inv in H as (cv & w1 & H1 & H).
  apply direction_lookup_code in H1 as [-> Hcode].
  apply bind_ok_inv in H as ([] & w2 & H2 & H).
  assert (Hm : is_Some (heap w !! self)).
  { unfold add_mouse_capabilities in H2. apply bind_ok_inv in H2 as ([] & ? & Ha & _).
    eapply capabilities_add_is_Some; exact Ha. }
  destruct Hm as [m Hm].
  destruct (chain_add_mouse_capabilities _ _ _ _ _ (rewrites_start _ _ _ Hm) H2)
    as (m2 & R2 & L2 & D2 & T2 & C2).
  pose proof (chain_tasks_append _ _ _ _ _ _ R2 H) as R.
  eexists m, _. split; [exact Hm | split; [exact R |]].
  eapply rebuilt_one_task; simpl; [exact L2 | now rewrite C2 | now rewrite T2 |].
  split; [| intros ch []]. simpl. apply D2.
  cbn in Hcode. clear -Hcode. rewrite !elem_of_cons in *. tauto.
Qed.

Lemma add_event_builds (env : Environment) (self : nat) (type_ code value_ : value)
    (w w' : World) :
  add_event env self type_ code value_ w = (Ok tt, w') -> builds self w w'.
Proof.
  intros H. unfold add_event in H.
  apply bind_ok_inv in H as (ty0 & w1 & H1 & H). apply type_check_same in H1 as ->.
  apply bind_ok_inv in H as (c0 & w1 & H1 & H). apply type_check_same in H1 as ->.
  apply bind_ok_inv in H as (v & w1 & H1 & H). apply type_check_same in H1 as ->.
  apply bind_ok_inv in H as (ty & w1 & H1 & H). apply ecodes_of_name_same in H1 as ->.
  apply bind_ok_inv in H as (c & w1 & H1 & H). apply ecodes_of_name_same in H1 as ->.
  apply bind_ok_inv in H as (m & w1 & H1 & H). apply the_macro_inv in H1 as [Hm ->].
  apply bind_ok_inv in H as ([] & w1 & H1 & H).
  apply bind_ok_inv in H as ([] & w2 & H2 & H).
  apply bind_ok_inv in H as ([] & w3 & H3 & H).
  apply bind_ok_inv in H as ([] & w4 & H4 & H5).
  pose proof (rewrites_start _ _ _ Hm) as R0.
  (* the key for the type *)
  assert (exists m1, rewrites self m1 w w1 /\ caps_le (capabilities m) (capabilities m1) /\
                     tasks m1 = tasks m /\ child_macros m1 = child_macros m)
    as (m1 & R1 & L1 & T1 & C1).
  { destruct (capabilities m !! ty) eqn:Hty.
    - inversion H1; subst w1. exists m. repeat split; [exact R0 | reflexivity].
    - destruct (chain_update_macro _ _ _ _ _ _ _ R0 H1) as [_ R1].
      eexists. split; [exact R1 |]. simpl. repeat split.
      now apply caps_le_insert_new. }
  (* the footprint of a mouse *)
  assert (exists m2, rewrites self m2 w w2 /\ caps_le (capabilities m1) (capabilities m2) /\
                     tasks m2 = tasks m1 /\ child_macros m2 = child_macros m1)
    as (m2 & R2 & L2 & T2 & C2).
  { destruct (py_eq ty (VInt EV_REL)).
    - apply bind_ok_inv in H2 as ([] & wa & Ha & H2).
      apply bind_ok_inv in H2 as ([] & wb & Hb & Hc).
      destruct (chain_capabilities_add_facts _ _ _ _ _ _ _ R1 Ha)
        as (ma & Ra & La & _ & Ta & Ca).
      destruct (chain_capabilities_add_facts _ _ _ _ _ _ _ Ra Hb)
        as (mb & Rb & Lb & _ & Tb & Cb).
      destruct (chain_capabilities_add_facts _ _ _ _ _ _ _ Rb Hc)
        as (mc & Rc & Lc & _ & Tc & Cc).
      exists mc. repeat split; [exact Rc | | congruence | congruence].
      etransitivity; [exact La |]. etransitivity; [exact Lb | exact Lc].
    - inversion H2; subst w2. exists m1. repeat split; [exact R1 | reflexivity]. }
  destruct (chain_capabilities_add_facts _ _ _ _ _ _ _ R2 H3) as (m3 & R3 & L3 & D3 & T3 & C3).
  pose proof (chain_tasks_append _ _ _ _ _ _ R3 H4) as R4.
  pose proof (chain_tasks_append _ _ _ _ _ _ R4 H5) as R.
  eexists m, _. split; [exact Hm | split; [exact R |]].
  split; [| split]; simpl.
  - etransitivity; [exact L1 |]. etransitivity; [exact L2 | exact L3].
  - now rewrite C3, C2, C1.
  - exists [event_task ty c v; keycode_pause_task]. split.
    + rewrite T3, T2, T1, <- app_assoc. reflexivity.
    + repeat constructor; simpl; try exact D3; intros ch [].
Qed.

Lemma new_Macro_well_built (code : option string) (context : option value)
    (w w' : World) (addr : nat) :
  well_built w -> new_Macro code context w = (Ok addr, w') -> well_built w'.
Proof.
  intros Hw H. unfold new_Macro in H. inversion H; subst. clear H.
  intros a m t Hm Ht. simpl in Hm.
  destruct (decide (fresh (dom (heap w)) = a)) as [<- | Hne].
  - rewrite lookup_insert_eq in Hm. inversion Hm; subst. inversion Ht.
  - rewrite lookup_insert_ne in Hm by assumption. eapply Hw; eassumption.
Qed.

Lemma builds_well_built (self : nat) (w w' : World) :
  well_built w -> builds self w w' -> well_built w'.
Proof. intros Hw (m & m' & Hm & R & Hr). eapply well_built_rebuilt; eassumption. Qed.

(** Every successful call of a builder keeps the macros well built. *)
Lemma build_well_built (env : Environment) (b : building) (w w' : World) :
  well_built w -> build env b w = (Ok tt, w') -> well_built w'.
Proof.
  intros Hw H. destruct b; simpl in H.
  - apply bind_ok_inv in H as (addr & w1 & H1 & H). inversion H; subst.
    eapply new_Macro_well_built; eassumption.
  - eapply builds_well_built; [exact Hw | eapply add_hold_builds; exact H].
  - eapply builds_well_built; [exact Hw | eapply add_modify_builds; exact H].
  - eapply builds_well_built; [exact Hw | eapply add_repeat_builds; exact H].
  - eapply builds_well_built; [exact Hw | eapply add_key_builds; exact H].
  - eapply builds_well_built; [exact Hw | eapply add_event_builds; exact H].
  - eapply builds_well_built; [exact Hw | eapply add_mouse_builds; exact H].
  - eapply builds_well_built; [exact Hw | eapply add_wheel_builds; exact H].
  - eapply builds_well_built; [exact Hw | eapply add_wait_builds; exact H].
  - eapply builds_well_built; [exact Hw | eapply add_set_builds; exact H].
  - eapply builds_well_built; [exact Hw | eapply add_ifeq_builds; exact H].
  - eapply builds_well_built; [exact Hw | eapply add_if_eq_builds; exact H].
  - eapply builds_well_built; [exact Hw | eapply add_if_tap_builds; exact H].
  - eapply builds_well_built; [exact Hw | eapply add_if_single_builds; exact H].
Qed.

(** The macros the builders produce are well built, before and after
    they run. *)
Theorem built_well_built (env : Environment) (w : World) : built env w -> well_built w.
Proof.
  induction 1 as [w Hempty | b w w' _ IH Hb | w w' _ IH Hle].
  - intros addr m t Hm. rewrite Hempty, lookup_empty in Hm. discriminate.
  - eapply build_well_built; eassumption.
  - eapply persistent_well_built; eassumption.
Qed.

(** ** The capabilities of a macro and its descendants *)

Lemma caps_le_merge_l (a b : gmap value (gset value)) : caps_le a (merge_capabilities a b).
Proof.
  intros ty codes H. unfold merge_capabilities. rewrite lookup_union_with, H.
  destruct (b !! ty) as [codes' |]; simpl; eexists; (split; [reflexivity | set_solver]).
Qed.

Lemma caps_le_merge_r (a b : gmap value (gset value)) : caps_le b (merge_capabilities a b).
Proof.
  intros ty codes H. unfold merge_capabilities. rewrite lookup_union_with, H.
  destruct (a !! ty) as [codes' |]; simpl; eexists; (split; [reflexivity | set_solver]).
Qed.

(** What the loop of [get_capabilities] over the children returns holds
    what it started from and what every child returned. *)
Lemma get_capabilities_loop (fuel : nat) (w : World) (children : list value)
    (acc : result (gmap value (gset value))) (caps : gmap value (gset value)) :
  foldl
    (fun acc macro =>
       match acc with
       | Ok caps =>
           match get_capabilities fuel w macro with
           | Ok macro_capabilities => Ok (merge_capabilities caps macro_capabilities)
           | Raise e => Raise e
           | Stop s => Stop s
           end
       | _ => acc
       end) acc children = Ok caps ->
  exists start,
    acc = Ok start /\ caps_le start caps /\
    forall child, child ∈ children ->
      exists child_caps,
        get_capabilities fuel w child = Ok child_caps /\ caps_le child_caps caps.
Proof.
  revert acc. induction children as [| x rest IH]; intros acc H; simpl in H.
  - exists caps. split; [exact H | split; [reflexivity |]]. intros child Hin. inversion Hin.
  - destruct (IH _ H) as (mid & Hmid & Hle & Hrest).
    destruct acc as [start | |]; try discriminate.
    destruct (get_capabilities fuel w x) as [cx | |] eqn:Hx; try discriminate.
    inversion Hmid; subst mid.
    exists start. split; [reflexivity | split].
    + etransitivity; [apply caps_le_merge_l | exact Hle].
    + intros child Hin. apply elem_of_cons in Hin as [-> | Hin]; [| auto].
      exists cx. split; [exact Hx |].
      etransitivity; [apply caps_le_merge_r | exact Hle].
Qed.

Lemma get_capabilities_children (fuel : nat) (w : World) (addr : nat) (m : Macro)
    (caps : gmap value (gset value)) :
  heap w !! addr = Some m ->
  get_capabilities (S fuel) w (VMacro addr) = Ok caps ->
  caps_le (capabilities m) caps /\
  forall child, child ∈ child_macros m ->
    exists child_caps,
      get_capabilities fuel w child = Ok child_caps /\ caps_le child_caps caps.
Proof.
  intros Hm H. cbn [get_capabilities] in H. rewrite Hm in H.
  destruct (get_capabilities_loop _ _ _ _ _ H) as (start & Hs & Hle & Hch).
  inversion Hs; subst. auto.
Qed.

(** What [get_capabilities] returns for a macro holds the capabilities
    of each of its descendants. *)
Lemma get_capabilities_reaches (w : World) (root addr : nat) :
  reaches w root addr ->
  forall depth caps m,
    get_capabilities depth w (VMacro root) = Ok caps ->
    heap w !! addr = Some m ->
    caps_le (capabilities m) caps.
Proof.
  induction 1 as [root | root mr child addr Hr Hin _ IH]; intros depth caps m Hg Hm.
  - destruct depth as [| depth]; [discriminate |].
    eapply get_capabilities_children; eassumption.
  - destruct depth as [| depth]; [discriminate |].
    destruct (get_capabilities_children _ _ _ _ _ Hr Hg) as [_ Hch].
    destruct (Hch _ Hin) as (cc & Hcc & Hle).
    etransitivity; [eapply IH; eassumption | exact Hle].
Qed.

Lemma reaches_snoc (w : World) (root self child : nat) (m : Macro) :
  reaches w root self -> heap w !! self = Some m -> VMacro child ∈ child_macros m ->
  reaches w root child.
Proof.
  induction 1 as [root | root mr c addr Hr Hin _ IH]; intros Hm Hc.
  - eapply reaches_child; [exact Hm | exact Hc | constructor].
  - eapply reaches_child; [exact Hr | exact Hin | auto].
Qed.

Lemma persistent_reaches (root addr : nat) : persistent (fun w => reaches w root addr).
Proof.
  intros w w' Hle H. induction H as [root | root m child addr Hm Hin _ IH].
  - constructor.
  - destruct (world_le_lookup _ _ _ _ Hle Hm) as (m' & Hm' & Hmm).
    eapply reaches_child; [exact Hm' | | exact IH].
    now rewrite (le_child_macros _ _ Hmm).
Qed.

Lemma persistent_covered (root : nat) (e : emission) : persistent (fun w => covered root w e).
Proof.
  intros w w' Hle H ty c Hty Hc.
  destruct (H ty c Hty Hc) as (addr & m & Hr & Hm & Hd).
  destruct (world_le_lookup _ _ _ _ Hle Hm) as (m' & Hm' & Hmm).
  exists addr, m'. split; [eapply persistent_reaches; eassumption |].
  split; [exact Hm' |]. eapply caps_le_declares; [apply Hmm | exact Hd].
Qed.

Lemma persistent_task_built (addr : nat) (t : task) :
  persistent (fun w => exists m, heap w !! addr = Some m /\ task_built m t).
Proof.
  intros w w' Hle (m & Hm & Hb).
  destruct (world_le_lookup _ _ _ _ Hle Hm) as (m' & Hm' & Hmm).
  exists m'. split; [exact Hm' |].
  eapply task_built_mono; [apply Hmm | now rewrite (le_child_macros _ _ Hmm) | exact Hb].
Qed.

(** Whatever a run of well built macros emits is covered by what the
    macro that runs and its descendants declare when the run ends. *)
Lemma run_emits_covered (env : Environment) (fuel : nat) (handler : Handler) (root : nat)
    (w w' : World) (r : result unit) :
  well_built w ->
  run env fuel handler (VMacro root) w = (r, w') ->
  world_le w w' /\ forall e, e ∈ emitted_since w w' -> covered root w' e.
Proof.
  intros Hw H.
  assert (Hres : respects (covered root)
                   (may_run (fun w addr => reaches w root addr)
                      (fun w addr t => exists m, heap w !! addr = Some m /\ task_built m t)
                      (VMacro root))
                   (run env fuel handler (VMacro root))).
  { apply run_respects.
    - apply persistent_covered.
    - apply persistent_reaches.
    - apply persistent_task_built.
    - intros w0 self code v Hr (m & Hm & [Hd _]) ty c Hty Hc. simpl in *.
      inversion Hty; subst. exists self, m. auto.
    - intros w0 self type_ code v Hr (m & Hm & [Hd _]) ty c Hty Hc. simpl in *.
      subst. exists self, m. auto.
    - intros w0 self code value_ speed v Hr (m & Hm & [Hd _]) ty c Hty Hc. simpl in *.
      inversion Hty; inversion Hc; subst. exists self, m. auto.
    - intros w0 self code value_ speed v Hr (m & Hm & [Hd _]) ty c Hty Hc. simpl in *.
      inversion Hty; inversion Hc; subst. exists self, m. auto.
    - intros w0 self t m code v Hr _ _ Hm Hd ty c Hty Hc. simpl in *.
      inversion Hty; subst. exists self, m. auto.
    - intros w0 self t child Hr (m & Hm & [_ Hch]) Hruns.
      eapply reaches_snoc; [exact Hr | exact Hm | auto]. }
  eapply Hres; [| exact H]. split; [| constructor].
  intros addr m t Hm Ht. exists m. split; [exact Hm | eapply Hw; eassumption].
Qed.

(** ** Comparisons *)

Lemma with_lines_nil (w : World) : with_lines [] w = w.
Proof. unfold with_lines. rewrite app_nil_r. now destruct w. Qed.

Lemma with_lines_app (l1 l2 : list log_line) (w : World) :
  with_lines l2 (with_lines l1 w) = with_lines (l1 ++ l2) w.
Proof. unfold with_lines. simpl. now rewrite app_assoc. Qed.

(** Resolving an operand without allowed types gives what it stands
    for, and writes its debug line. *)
Lemma resolve_operand (env : Environment) (v : value) (w : World) :
  _resolve env v [] w = (Ok (operand_value w v), with_lines (resolve_lines w v) w).
Proof.
  destruct v; simpl; try (unfold ret; now rewrite with_lines_nil).
  reflexivity.
Qed.

Lemma float_eqb_refl (f : spec_float) : float_is_nan f = false -> float_eqb f f = true.
Proof.
  destruct f as [s | s | | s m e]; simpl; intros H; try reflexivity; try discriminate.
  - now destruct s.
  - rewrite Z.eqb_refl. now destruct s.
Qed.

Lemma py_eq_literal (v : value) : is_literal v = true -> py_eq v v = true.
Proof.
  destruct v; simpl; intros H; try discriminate.
  - apply Z.eqb_refl.
  - apply float_eqb_refl. now apply negb_true_iff.
  - apply String.eqb_refl.
Qed.

(** The task of [if_eq] compares what its operands stand for. *)
Lemma if_eq_task_runs (env : Environment) (run_child : value -> M unit) (k self : nat)
    (handler : Handler) (value_1 value_2 then_ else_ : value) (w : World) :
  run_task env run_child k self handler (if_eq_task value_1 value_2 then_ else_) w =
  run_unless_None run_child
    (if py_eq (operand_value w value_1) (operand_value w value_2) then then_ else else_)
    (with_lines (resolve_lines w value_1 ++ resolve_lines w value_2) w).
Proof.
  cbn [run_task]. unfold bind. rewrite resolve_operand, resolve_operand.
  rewrite with_lines_app.
  assert (E : operand_value (with_lines (resolve_lines w value_1) w) value_2
              = operand_value w value_2) by (destruct value_2; reflexivity).
  assert (E' : resolve_lines (with_lines (resolve_lines w value_1) w) value_2
               = resolve_lines w value_2) by (destruct value_2; reflexivity).
  rewrite E, E'.
  now destruct (py_eq (operand_value w value_1) (operand_value w value_2)).
Qed.

(** The task of [ifeq] compares what the store holds under its first
    operand with its second operand as it is. *)
Lemma ifeq_task_runs (env : Environment) (run_child : value -> M unit) (k self : nat)
    (handler : Handler) (variable value_ then_ else_ : value) (w : World) :
  run_task env run_child k self handler (ifeq_task variable value_ then_ else_) w =
  run_unless_None run_child
    (if py_eq (stored_value w variable) value_ then then_ else else_)
    (with_lines [log_is variable (stored_value w variable)] w).
Proof.
  cbn [run_task]. unfold bind, gets, logger, modify. simpl.
  now destruct (py_eq (stored_value w variable) value_).
Qed.

(** Both branches of a conditional are children once it is built. *)
Lemma branches_registered (self : nat) (then_ else_ : value) (t : task) (w w' : World) :
  (child_macros_append_if_Macro self then_ ;;;
   child_macros_append_if_Macro self else_ ;;;
   tasks_append self t) w = (Ok tt, w') ->
  exists m',
    heap w' !! self = Some m' /\
    forall branch addr,
      branch = then_ \/ branch = else_ -> branch = VMacro addr -> branch ∈ child_macros m'.
Proof.
  intros H.
  apply bind_ok_inv in H as ([] & w1 & H1 & H).
  apply bind_ok_inv in H as ([] & w2 & H2 & H).
  destruct (update_macro_is_Some _ _ _ _ H) as [m2 Hm2].
  assert (Hm : is_Some (heap w !! self)).
  { eapply child_macros_append_if_Macro_is_Some; [exact H1 |].
    eapply child_macros_append_if_Macro_is_Some; [exact H2 | eauto]. }
  destruct Hm as [m Hm].
  destruct (chain_child_macros_append_if_Macro _ _ _ _ _ _ (rewrites_start _ _ _ Hm) H1)
    as (ma & Ra & Hca & Hta & Hcha & Hthen).
  destruct (chain_child_macros_append_if_Macro _ _ _ _ _ _ Ra H2)
    as (mb & Rb & Hcb & Htb & Hchb & Helse).
  pose proof (chain_tasks_append _ _ _ _ _ _ Rb H) as R.
  eexists. split; [rewrite R; simpl; apply lookup_insert_eq |].
  simpl. intros branch addr [-> | ->] E.
  - apply Hchb. eapply Hthen. exact E.
  - eapply Helse. exact E.
Qed.

Lemma add_if_eq_registers (env : Environment) (self : nat)
    (value_1 value_2 then_ else_ : value) (w w' : World) :
  add_if_eq env self value_1 value_2 then_ else_ w = (Ok tt, w') ->
  exists m',
    heap w' !! self = Some m' /\
    forall branch addr,
      branch = then_ \/ branch = else_ -> branch = VMacro addr -> branch ∈ child_macros m'.
Proof.
  intros H. unfold add_if_eq in H.
  apply bind_ok_inv in H as (x & w1 & H1 & H). apply type_check_same in H1 as ->.
  apply bind_ok_inv in H as (y & w1 & H1 & H). apply type_check_same in H1 as ->.
  eapply branches_registered. exact H.
Qed.

Lemma add_ifeq_registers (env : Environment) (self : nat)
    (variable value_ then_ else_ : value) (w w' : World) :
  add_ifeq env self variable value_ then_ else_ w = (Ok tt, w') ->
  exists m',
    heap w' !! self = Some m' /\
    forall branch addr,
      branch = then_ \/ branch = else_ -> branch = VMacro addr -> branch ∈ child_macros m'.
Proof.
  intros H. unfold add_ifeq in H.
  apply bind_ok_inv in H as (x & w1 & H1 & H). apply type_check_same in H1 as ->.
  apply bind_ok_inv in H as (y & w1 & H1 & H). apply type_check_same in H1 as ->.
  eapply branches_registered. exact H.
Qed.

(** The capabilities of a registered child are part of those of the
    macro. *)
Lemma registered_capabilities_aggregate (w : World) (self : nat) (m : Macro)
    (branch : value) (depth : nat) (caps : gmap value (gset value)) :
  heap w !! self = Some m ->
  branch ∈ child_macros m ->
  get_capabilities (S depth) w (VMacro self) = Ok caps ->
  exists branch_caps,
    get_capabilities depth w branch = Ok branch_caps /\ caps_le branch_caps caps.
Proof.
  intros Hm Hin Hg. destruct (get_capabilities_children _ _ _ _ _ Hm Hg) as [_ H]. auto.
Qed.

(** * The claims *)

(** ** Re-entry *)

(** C7. A call of [run] on a macro that is already running, with a
    handler that can be called, returns without raising; it runs no task
    and changes no object, no variable, no emission and nothing of the
    schedule: the world is the one before, with one more line in the
    log. *)
Theorem run_rejects_running_macro (env : Environment) (fuel : nat)
    (raises : list emission -> emission -> option exn) (addr : nat) (m : Macro) (w : World) :
  heap w !! addr = Some m ->
  running m = true ->
  run env (S fuel) (callable raises) (VMacro addr) w =
    (Ok tt, set_logged (logged w ++ [log_already_running (code m)]) w).
Proof.
  intros Hm Hr. simpl. step_macro. rewrite Hr. reflexivity.
Qed.

(** The theorem at a macro [k(KEY_A)] that is running. *)
Lemma run_rejects_running_macro_witness :
  heap running_world !! 0%nat = Some running_macro /\
  running running_macro = true /\
  run example_env 1 silent (VMacro 0) running_world =
    (Ok tt, set_logged [log_already_running (Some "k(KEY_A)")] running_world).
Proof.
  split; [reflexivity | split; [reflexivity |]].
  exact (run_rejects_running_macro example_env 0 (fun _ _ => None) 0
           running_macro running_world eq_refl eq_refl).
Defined.

(** ** Variables *)

(** The task of [add_set] stores its argument as it was given: for a
    variable the reference, not what it resolves to. *)
Lemma set_task_stores_its_argument (env : Environment) (run_child : value -> M unit)
    (k self : nat) (handler : Handler) (x : string) (v : value) (w : World) :
  exists w',
    run_task env run_child k self handler (set_task x v) w = (Ok tt, w') /\
    macro_variables w' = <[x := v]> (macro_variables w) /\
    heap w' = heap w /\ emitted w' = emitted w /\ schedule w' = schedule w.
Proof.
  destruct v; simpl; step_macro; eauto 10.
Qed.

(** C3. Where the claim fails: after [set(a, $b)] has run in a process
    where [b] holds 5, the store maps [a] to the reference [$b], not to
    5, although the task did resolve the reference (the log shows 5). *)
Lemma set_copies_the_reference_not_the_value :
  let r := run example_env 2 silent (VMacro 0) copy_world in
  fst r = Ok tt /\
  macro_variables (snd r) !! "a" = Some (VVariable 0 "b") /\
  macro_variables (snd r) !! "b" = Some (VInt 5) /\
  logged (snd r) = [log_is (VVariable 0 "b") (VInt 5); log_set_to "a" (VInt 5)].
Proof. vm_compute. repeat split. Qed.

(** ** Capabilities of a raw event *)

(** C9. Where the claim fails: [e(EV_REL, REL_X, 1)], with the type given
    as a number or by name, declares [REL_X], [REL_Y] and [REL_WHEEL]
    but not [REL_HWHEEL], which [add_mouse_capabilities] does declare. *)
Lemma add_event_EV_REL_omits_REL_HWHEEL :
  let by_number :=
    add_event example_env 0 (VInt EV_REL) (VInt REL_X) (VInt 1)
      (one_macro_world "e(2, 0, 1)") in
  let by_name :=
    add_event example_env 0 (VStr "EV_REL") (VStr "REL_X") (VInt 1)
      (one_macro_world "e(EV_REL, REL_X, 1)") in
  let mouse := add_mouse_capabilities 0 (one_macro_world "mouse(up, 1)") in
  fst by_number = Ok tt /\ fst by_name = Ok tt /\ fst mouse = Ok tt /\
  own_codes EV_REL 0 (snd by_number) = Some {[ VInt REL_X; VInt REL_Y; VInt REL_WHEEL ]} /\
  own_codes EV_REL 0 (snd by_name) = Some {[ VInt REL_X; VInt REL_Y; VInt REL_WHEEL ]} /\
  (VInt REL_HWHEEL ∉ ({[ VInt REL_X; VInt REL_Y; VInt REL_WHEEL ]} : gset value)) /\
  own_codes EV_REL 0 (snd mouse) =
    Some {[ VInt REL_X; VInt REL_Y; VInt REL_WHEEL; VInt REL_HWHEEL ]}.
Proof.
  repeat split; try (vm_compute; reflexivity).
  intros H. apply elem_of_union in H as [H | H].
  - apply elem_of_union in H as [H | H]; apply elem_of_singleton in H; discriminate.
  - apply elem_of_singleton in H. discriminate.
Qed.

(** ** Floats where an int is expected *)

(** C10, as stated, fails: NaN is a float that [_type_check] refuses
    where an int is expected, because [int] refuses it with a
    [ValueError]. *)
Lemma type_check_refuses_nan :
  ~ (forall (env : Environment) (w : World) (f : spec_float)
            (display_name : option string) (position : option Z),
       exists n, _type_check env w (VFloat f) [KInt] display_name position = inr (VInt n)).
Proof.
  intros H.
  destruct (H example_env empty_world S754_nan (Some "r (repeat)") (Some 1)) as [n Hn].
  discriminate Hn.
Qed.

(** C10, amended. A float that is a number passes [_type_check] where
    only an int is allowed and comes back truncated toward zero;
    [add_repeat] with such a count builds a task with the truncated
    count, and the task runs the child that many times. *)
Theorem type_check_truncates_finite_float (env : Environment) (w : World)
    (self child : nat) (m : Macro) (f : spec_float)
    (display_name : option string) (position : option Z) :
  is_finite f = true ->
  heap w !! self = Some m ->
  _type_check env w (VFloat f) [KInt] display_name position = inr (VInt (int_of_float f)) /\
  add_repeat env self (VFloat f) (VMacro child) w =
    (Ok tt,
     set_heap
       (<[self := with_child_macros (child_macros m ++ [VMacro child])
                    (with_tasks
                       (tasks m ++ [repeat_task (VInt (int_of_float f)) (VMacro child)]) m)]>
          (heap w)) w) /\
  forall (run_child : value -> M unit) (k : nat) (handler : Handler) (w' : World),
    run_task env run_child k self handler
      (repeat_task (VInt (int_of_float f)) (VMacro child)) w' =
    repeat_times (Z.to_nat (int_of_float f)) (run_child (VMacro child)) w'.
Proof.
  intros Hf Hm. split; [| split].
  - now apply type_check_finite_float.
  - unfold add_repeat, type_check, bind.
    rewrite type_check_finite_float by assumption. simpl.
    unfold tasks_append, child_macros_append.
    erewrite update_macro_lookup by eassumption.
    erewrite update_macro_lookup by (simpl; apply lookup_insert_eq).
    simpl. rewrite insert_insert_eq. reflexivity.
  - intros. reflexivity.
Qed.

(** The theorem at [r(2.9, k(KEY_A))]: the count becomes 2, and the task
    runs the child twice. *)
Lemma type_check_truncates_finite_float_witness :
  is_finite float_2_9 = true /\
  heap repeat_world !! 1%nat = Some repeat_macro /\
  int_of_float float_2_9 = 2 /\
  _type_check example_env repeat_world (VFloat float_2_9) [KInt] (Some "r (repeat)") (Some 1)
    = inr (VInt 2) /\
  forall run_child k handler w',
    run_task example_env run_child k 1 handler (repeat_task (VInt 2) (VMacro 0)) w' =
    (run_child (VMacro 0) ;;; run_child (VMacro 0) ;;; ret tt) w'.
Proof.
  pose proof (type_check_truncates_finite_float example_env repeat_world 1 0 repeat_macro
                float_2_9 (Some "r (repeat)") (Some 1) eq_refl eq_refl) as [H1 [_ H3]].
  split; [reflexivity |]. split; [reflexivity |]. split; [reflexivity |].
  split; [exact H1 | exact H3].
Defined.

(** ** A wheel of speed 0 *)

(** C8, as stated, fails: [wheel(up, 0)] is built. *)
Lemma wheel_of_speed_zero_is_built :
  ~ rejected (add_wheel example_env 0 (VStr "up") (VInt 0) (one_macro_world "wheel(up, 0)")).
Proof. intros [e He]. vm_compute in He. discriminate He. Qed.

(** C8, amended. [add_wheel] accepts the speed 0, literal or variable:
    it checks that the speed is an int, not its range.  The division by
    zero happens when the task runs, for both: while the trigger is
    held, the task emits one wheel event and raises
    [ZeroDivisionError]; when the trigger is not held, it emits nothing
    and returns. *)
Theorem wheel_of_speed_zero_fails_when_run (env : Environment) (self : nat) (m : Macro)
    (d d' : string) (cv : Z * Z) (speed : value) (w : World) :
  heap w !! self = Some m ->
  is_Some (capabilities m !! VInt EV_REL) ->
  List.find (fun entry => String.eqb (fst entry) (lower env d)) wheel_directions
    = Some (d', cv) ->
  (speed = VInt 0 \/ exists oid name, speed = VVariable oid name) ->
  (exists w',
     add_wheel env self (VStr d) speed w = (Ok tt, w') /\
     field tasks self w' = Some (tasks m ++ [wheel_task (fst cv) (snd cv) speed])) /\
  forall (run_child : value -> M unit) (k : nat)
         (raises : list emission -> emission -> option exn) (w1 : World) (m1 : Macro),
    heap w1 !! self = Some m1 ->
    resolves_to_zero speed w1 ->
    raises (emitted w1) (VInt EV_REL, VInt (fst cv), VInt (snd cv)) = None ->
    let r := run_task env run_child (S k) self (callable raises)
               (wheel_task (fst cv) (snd cv) speed) w1 in
    if is_holding m1
    then fst r = Raise PyZeroDivisionError /\
         emitted (snd r) = emitted w1 ++ [(VInt EV_REL, VInt (fst cv), VInt (snd cv))]
    else fst r = Ok tt /\ emitted (snd r) = emitted w1.
Proof.
  intros Hm [codes Hc] Hd Hspeed. split.
  - assert (Hty : forall w0, type_check env speed [KInt] (Some "wheel") (Some 2) w0
                             = (Ok speed, w0)).
    { intros w0. destruct Hspeed as [-> | (oid & name & ->)]; reflexivity. }
    assert (Hdir : forall w0, type_check env (VStr d) [KStr] (Some "wheel") (Some 1) w0
                              = (Ok (VStr d), w0)) by reflexivity.
    assert (Hcv : forall w0, direction_lookup env wheel_directions (VStr d) w0 = (Ok cv, w0)).
    { intros w0. unfold direction_lookup. now rewrite Hd. }
    eexists. unfold add_wheel, bind.
    split.
    + rewrite Hdir, Hty, Hcv.
      erewrite add_mouse_capabilities_lookup by eassumption.
      unfold tasks_append.
      erewrite update_macro_lookup by (simpl; apply lookup_insert_eq).
      reflexivity.
    + unfold field. simpl. rewrite insert_insert_eq, lookup_insert_eq. reflexivity.
  - intros run_child k raises w1 m1 Hm1 Hz Hr.
    destruct Hz as [-> | (oid & name & -> & Hv)].
    + simpl. unfold bind, ret. simpl.
      rewrite (the_macro_lookup _ _ _ Hm1).
      destruct (is_holding m1); simpl; [| auto].
      rewrite Hr. simpl. auto.
    + simpl. unfold bind, ret, Variable_resolve, gets, logger, modify, type_check. simpl.
      rewrite Hv. simpl.
      unfold the_macro. simpl. rewrite Hm1.
      destruct (is_holding m1); simpl; [| auto].
      rewrite Hr. simpl. auto.
Qed.

(** ** A task that raises *)

(** C6, as stated, fails: the task of [h(KEY_A)] waits for the trigger
    to be released; when the task of the macro is cancelled during the
    wait, the [CancelledError] leaves [run], which has no [finally]:
    nothing is logged and [running] stays true. *)
Lemma cancelled_run_leaves_running_set :
  let r := run example_env 2 silent (VMacro 0) cancelled_hold_world in
  field running 0 cancelled_hold_world = Some false /\
  fst r = Raise CancelledError /\
  logged (snd r) = [] /\
  field running 0 (snd r) = Some true /\
  ~ running_is_cleared_on_every_exit example_env cancelled_hold_world 0.
Proof.
  cbv zeta.
  assert (Hr : fst (run example_env 2 silent (VMacro 0) cancelled_hold_world)
               = Raise CancelledError) by (vm_compute; reflexivity).
  assert (Hf : field running 0 (snd (run example_env 2 silent (VMacro 0)
                                       cancelled_hold_world)) = Some true)
    by (vm_compute; reflexivity).
  split; [vm_compute; reflexivity |]. split; [exact Hr |].
  split; [vm_compute; reflexivity |]. split; [exact Hf |].
  intros H.
  specialize (H 2%nat silent _ _ (surjective_pairing _)). rewrite Hr, Hf in H.
  assert (Hfalse : Some true = Some false) by (apply H; discriminate).
  discriminate Hfalse.
Qed.

(** C6, amended. A macro that is not running is run with a handler that
    can be called.  Whenever [run] returns, [running] is false.  When
    the tasks before the task [t] return and [t] raises an [Exception],
    then [run] returns: in the world [t] left, so that no later task has
    run, with one more line in the log, which holds the code of the
    macro and the exception, and with [running] false.  When [t] raises
    what is no [Exception], the [CancelledError] of a cancelled task,
    then [run] does not return: it raises the same, in the world [t]
    left, so that no later task has run, nothing is logged and [running]
    is not cleared. *)
Theorem run_logs_a_failing_task_and_stops (env : Environment) (fuel : nat)
    (raises : list emission -> emission -> option exn) (addr : nat) (m : Macro)
    (sleep_ms : value) (w : World) :
  heap w !! addr = Some m ->
  running m = false ->
  context m = Some sleep_ms ->
  let handler := callable raises in
  let run_one := run_task env (run env fuel handler) fuel addr handler in
  (forall w', run env (S fuel) handler (VMacro addr) w = (Ok tt, w') ->
     field running addr w' = Some false) /\
  (forall pre t post e w1 w2,
     tasks m = pre ++ t :: post ->
     for_each pre run_one (started addr m sleep_ms w) = (Ok tt, w1) ->
     run_one t w1 = (Raise e, w2) ->
     is_Exception e = true ->
     exists m2,
       heap w2 !! addr = Some m2 /\
       run env (S fuel) handler (VMacro addr) w =
         (Ok tt,
          set_heap (<[addr := with_running false m2]> (heap w2))
            (set_logged (logged w2 ++ [log_macro_failed (code m) e]) w2))) /\
  (forall pre t post e w1 w2,
     tasks m = pre ++ t :: post ->
     for_each pre run_one (started addr m sleep_ms w) = (Ok tt, w1) ->
     run_one t w1 = (Raise e, w2) ->
     is_Exception e = false ->
     run env (S fuel) handler (VMacro addr) w = (Raise e, w2)).
Proof.
  intros Hm Hr Hc handler run_one. split; [| split].
  - intros w' H. unfold handler in H. rewrite (run_unfold _ _ _ _ _ _ _ Hm Hr Hc) in H.
    apply bind_ok_inv in H as ([] & w1 & _ & H).
    unfold update_macro in H. destruct (heap w1 !! addr) as [m1 |]; [| discriminate].
    inversion H; subst. unfold field. simpl. now rewrite lookup_insert_eq.
  - intros pre t post e w1 w2 Hts Hpre Ht He.
    assert (Hle : world_le (started addr m sleep_ms w) w2).
    { etransitivity.
      - eapply for_each_world_le; [| exact Hpre].
        intros x wa wb r E. eapply run_task_world_le. exact E.
      - eapply run_task_world_le. exact Ht. }
    destruct (world_le_lookup _ _ addr _ Hle ltac:(simpl; apply lookup_insert_eq))
      as (m2 & Hm2 & _).
    exists m2. split; [exact Hm2 |].
    unfold handler. rewrite (run_unfold _ _ _ _ _ _ _ Hm Hr Hc), Hts.
    unfold bind. fold handler. fold run_one.
    rewrite (run_tasks_failure run_one (code m) pre post t e _ w1 w2 Hpre Ht He).
    unfold update_macro. simpl. rewrite Hm2. reflexivity.
  - intros pre t post e w1 w2 Hts Hpre Ht He.
    unfold handler. rewrite (run_unfold _ _ _ _ _ _ _ Hm Hr Hc), Hts.
    unfold bind. fold handler. fold run_one.
    rewrite (run_tasks_escape run_one (code m) pre post t e _ w1 w2 Hpre Ht He).
    reflexivity.
Qed.

(** The theorem at [k(KEY_A).w($t).k(KEY_B)] with [t] unset: the key A is
    pressed and released, the wait raises, the key B is never pressed. *)
Lemma run_logs_a_failing_task_and_stops_witness :
  let r := run example_env 2 silent (VMacro 0) failing_world in
  fst r = Ok tt /\
  emitted (snd r) = [key_down (VInt 30); key_up (VInt 30)] /\
  logged (snd r) =
    [log_is (VVariable 0 "t") VNone;
     log_macro_failed (Some "k(KEY_A).w($t).k(KEY_B)") (ExpectedParameter None)] /\
  field running 0 (snd r) = Some false.
Proof.
  pose (m := default (Macro_init None None) (heap failing_world !! 0%nat)).
  pose (run_one := run_task example_env (run example_env 1 silent) 1 0 silent).
  pose (w1 := snd (for_each [key_task (VInt 30)] run_one
                     (started 0 m (VInt 10) failing_world))).
  pose (w2 := snd (run_one (wait_task (VVariable 0 "t")) w1)).
  destruct (run_logs_a_failing_task_and_stops example_env 1 (fun _ _ => None) 0 m
              (VInt 10) failing_world eq_refl eq_refl eq_refl) as [_ [H _]].
  destruct (H [key_task (VInt 30)] (wait_task (VVariable 0 "t")) [key_task (VInt 48)]
              (ExpectedParameter None) w1 w2 eq_refl eq_refl eq_refl eq_refl)
    as (m2 & Hm2 & Hrun).
  cbv zeta. unfold silent. rewrite Hrun. cbn [fst snd].
  assert (Hm2' : m2 = default (Macro_init None None) (heap w2 !! 0%nat))
    by (now rewrite Hm2).
  subst m2. vm_compute. repeat split.
Defined.

(** ** Keys pressed and released *)



(** ** Capabilities and emissions *)

(** [set(foo, 30).h($foo)] is built by the builders. *)
Lemma late_world_is_built : built example_env late_world.
Proof.
  eapply (built_more _ (build_hold 0 (VVariable 0 "foo"))).
  - eapply (built_more _ (build_set 0 (VStr "foo") (VInt 30))).
    + eapply (built_more _ (build_Macro (Some "set(foo, 30).h($foo)") (Some (VInt 10)))).
      * apply (built_nothing _ empty_world). reflexivity.
      * reflexivity.
    + reflexivity.
  - reflexivity.
Qed.

(** C2, as stated, fails: [set(foo, 30).h($foo)] is built by the
    builders; the capabilities it then has declare for [EV_KEY] the
    variable, not the key 30 that a run presses and releases. *)
Lemma late_bound_key_is_not_declared_when_built :
  built example_env late_world /\ ~ declared_when_built example_env late_world 0.
Proof.
  split; [exact late_world_is_built |]. intros H.
  assert (Hd : declares late_capabilities_built (VInt EV_KEY) (VInt 30)).
  { eapply (H 2%nat 1%nat silent late_capabilities_built _ _ EV_KEY 30 (VInt 1)).
    - apply is_Ok_returned. vm_compute. reflexivity.
    - apply surjective_pairing.
    - vm_compute. left. }
  apply declaresb_declares in Hd. vm_compute in Hd. discriminate Hd.
Qed.


(** The theorem at [wheel(up, 0)] with the trigger held. *)
Lemma wheel_of_speed_zero_fails_when_run_witness :
  heap (one_macro_world "wheel(up, 0)") !! 0%nat = Some (one_macro "wheel(up, 0)") /\
  is_holding (default (one_macro "wheel(up, 0)") (heap wheel_world !! 0%nat)) = true /\
  (let r := run_task example_env (run example_env 1 silent) 1 0 silent
              (wheel_task REL_WHEEL 1 (VInt 0)) wheel_world in
   fst r = Raise PyZeroDivisionError /\
   emitted (snd r) = emitted wheel_world ++ [(VInt EV_REL, VInt REL_WHEEL, VInt 1)]).
Proof.
  destruct (wheel_of_speed_zero_fails_when_run example_env 0 (one_macro "wheel(up, 0)")
              "up" "up" (REL_WHEEL, 1) (VInt 0) (one_macro_world "wheel(up, 0)")
              eq_refl (ex_intro _ ∅ eq_refl) eq_refl (or_introl eq_refl)) as [_ Hrun].
  assert (Hm1 : heap wheel_world !! 0%nat
                = Some (default (one_macro "wheel(up, 0)") (heap wheel_world !! 0%nat)))
    by (apply is_there_default; vm_compute; reflexivity).
  assert (Hh : is_holding (default (one_macro "wheel(up, 0)") (heap wheel_world !! 0%nat))
               = true) by (vm_compute; reflexivity).
  split; [reflexivity | split; [exact Hh |]].
  specialize (Hrun (run example_env 1 silent) 0%nat (fun _ _ => None) wheel_world _
                Hm1 (or_introl eq_refl) eq_refl).
  cbv zeta in Hrun. rewrite Hh in Hrun. exact Hrun.
Defined.

(** ** Comparing values *)

(** C4, as stated, fails: NaN is a float, and no float equals it, not
    even itself.  After [set(x, nan)], [if_eq($x, nan, then, else)] runs
    [else]: the macro below, whose branches are [k(KEY_A)] and
    [k(KEY_B)], presses the key B. *)
Lemma if_eq_of_nan_takes_else :
  ~ takes_then example_env "x" (VFloat S754_nan) /\
  (let r := run example_env 3 silent (VMacro 2) nan_world in
   fst r = Ok tt /\ emitted (snd r) = [key_down (VInt 48); key_up (VInt 48)]).
Proof.
  split; [| vm_compute; split; reflexivity].
  intros H.
  destruct (H telltale 0%nat 0%nat 0%nat silent (VMacro 0) (VMacro 1) empty_world)
    as [lines E].
  apply (f_equal (fun r => emitted (snd r))) in E.
  vm_compute in E. discriminate E.
Qed.

(** C4, amended. For a literal [v] that is an int, a string or a float
    other than NaN: [add_set(x, v)] followed by
    [add_if_eq($x, v, then, else)] appends the two tasks, and after the
    first has run the second runs [then], if there is one, and never
    [else]. *)
Theorem set_then_if_eq_takes_then (env : Environment) (x : string) (v : value)
    (self oid : nat) (m : Macro) (then_ else_ : value) (w : World) :
  is_literal v = true ->
  variable_name_matches x = true ->
  is_branch then_ -> is_branch else_ ->
  heap w !! self = Some m ->
  (exists w',
     (add_set env self (VStr x) v ;;;
      add_if_eq env self (VVariable oid x) v then_ else_) w = (Ok tt, w') /\
     field tasks self w' =
       Some (tasks m ++ [set_task x v; if_eq_task (VVariable oid x) v then_ else_])) /\
  takes_then env x v.
Proof.
  intros Hv Hx Hthen Helse Hm. split.
  - assert (Hty : forall b pos w0, is_branch b ->
              type_check env b [KMacro; KNone] (Some "if_eq") pos w0 = (Ok b, w0)).
    { intros b pos w0 [-> | [addr ->]]; reflexivity. }
    unfold add_set, add_if_eq, bind, lift, _type_check_variablename. rewrite Hx.
    unfold tasks_append. rewrite (update_macro_lookup _ _ _ _ Hm).
    rewrite (Hty _ _ _ Hthen), (Hty _ _ _ Helse).
    destruct Hthen as [-> | [a ->]]; destruct Helse as [-> | [b ->]];
      unfold child_macros_append_if_Macro, child_macros_append, ret;
      repeat (erewrite update_macro_lookup by (simpl; apply lookup_insert_eq));
      eexists; (split; [reflexivity |]);
      unfold field; simpl; rewrite lookup_insert_eq; simpl;
      now rewrite <- app_assoc.
  - intros run_child k self' oid' handler then' else' w0 w1.
    exists [log_is (VVariable oid' x) v].
    rewrite if_eq_task_runs.
    assert (Hw1 : macro_variables w1 !! x = Some v).
    { subst w1. destruct v; try discriminate Hv; simpl; apply lookup_insert_eq. }
    assert (E1 : operand_value w1 (VVariable oid' x) = v)
      by (simpl; now rewrite Hw1).
    assert (E2 : operand_value w1 v = v) by (destruct v; try discriminate Hv; reflexivity).
    assert (E3 : resolve_lines w1 v = []) by (destruct v; try discriminate Hv; reflexivity).
    rewrite E2, E3, E1, (py_eq_literal _ Hv), app_nil_r.
    unfold resolve_lines. now rewrite E1.
Qed.

(** The theorem at [set(x, 5)] and [if_eq($x, 5, k(KEY_A), k(KEY_B))]. *)
Lemma set_then_if_eq_takes_then_witness :
  is_literal (VInt 5) = true /\
  variable_name_matches "x" = true /\
  heap branches_world !! 2%nat = Some (one_macro "if_eq($x, 5, k(KEY_A), k(KEY_B))") /\
  takes_then example_env "x" (VInt 5).
Proof.
  split; [reflexivity | split; [reflexivity | split; [reflexivity |]]].
  exact (proj2 (set_then_if_eq_takes_then example_env "x" (VInt 5) 2 0
                  (one_macro "if_eq($x, 5, k(KEY_A), k(KEY_B))") (VMacro 0) (VMacro 1)
                  branches_world eq_refl eq_refl
                  (or_intror (ex_intro _ 0%nat eq_refl))
                  (or_intror (ex_intro _ 1%nat eq_refl)) eq_refl)).
Defined.

(** C5, as stated, fails for [ifeq]: its second operand is not
    dereferenced.  Where [a] and [b] both hold 1, [ifeq(a, $b, then,
    else)] compares 1 with the reference [$b] and runs [else]. *)
Lemma ifeq_compares_with_the_reference :
  ~ ifeq_dereferences example_env /\
  emitted (snd (run_task example_env telltale 0 0 silent
                  (ifeq_task (VStr "a") (VVariable 0 "b") (VMacro 0) (VMacro 1))
                  equal_variables_world))
    = [(VMacro 1, VMacro 1, VMacro 1)].
Proof.
  split; [| vm_compute; reflexivity].
  intros H.
  destruct (H telltale 0%nat 0%nat silent (VStr "a") (VVariable 0 "b") (VMacro 0) (VMacro 1)
              equal_variables_world) as [lines E].
  apply (f_equal (fun r => emitted (snd r))) in E.
  vm_compute in E. discriminate E.
Qed.

(** C5, amended. The task of [if_eq] resolves both operands and
    compares them by value; the task of [ifeq] looks up what the store
    holds under its first operand and compares it with its second
    operand as it is given, a reference staying a reference.  Either
    runs [then] when the two are equal and [else] otherwise, when the
    branch is there.  Both builders register the branches that are
    macros as children, so that the capabilities of the macro hold
    those of both branches. *)
Theorem conditionals_compare_and_register (env : Environment)
    (run_child : value -> M unit) (k self : nat) (handler : Handler)
    (value_1 value_2 then_ else_ : value) (w : World) :
  run_task env run_child k self handler (if_eq_task value_1 value_2 then_ else_) w =
    run_unless_None run_child
      (if py_eq (operand_value w value_1) (operand_value w value_2) then then_ else else_)
      (with_lines (resolve_lines w value_1 ++ resolve_lines w value_2) w) /\
  run_task env run_child k self handler (ifeq_task value_1 value_2 then_ else_) w =
    run_unless_None run_child
      (if py_eq (stored_value w value_1) value_2 then then_ else else_)
      (with_lines [log_is value_1 (stored_value w value_1)] w) /\
  forall w',
    add_if_eq env self value_1 value_2 then_ else_ w = (Ok tt, w') \/
    add_ifeq env self value_1 value_2 then_ else_ w = (Ok tt, w') ->
    exists m',
      heap w' !! self = Some m' /\
      forall branch addr,
        branch = then_ \/ branch = else_ -> branch = VMacro addr ->
        branch ∈ child_macros m' /\
        forall depth caps,
          get_capabilities (S depth) w' (VMacro self) = Ok caps ->
          exists branch_caps,
            get_capabilities depth w' branch = Ok branch_caps /\
            caps_le branch_caps caps.
Proof.
  split; [apply if_eq_task_runs | split; [apply ifeq_task_runs |]].
  intros w' H.
  assert (exists m', heap w' !! self = Some m' /\
            forall branch addr, branch = then_ \/ branch = else_ ->
              branch = VMacro addr -> branch ∈ child_macros m')
    as (m' & Hm' & Hreg).
  { destruct H as [H | H];
      [eapply add_if_eq_registers | eapply add_ifeq_registers]; exact H. }
  exists m'. split; [exact Hm' |].
  intros branch addr Hb Haddr. split; [eapply Hreg; eassumption |].
  intros depth caps Hg.
  eapply registered_capabilities_aggregate; [exact Hm' | | exact Hg].
  eapply Hreg; eassumption.
Qed.

(** The theorem at [if_eq($x, 5, k(KEY_A), k(KEY_B))]: the capabilities
    of the macro hold those of both branches. *)
Lemma conditionals_compare_and_register_witness :
  add_if_eq example_env 2 (VVariable 0 "x") (VInt 5) (VMacro 0) (VMacro 1) branches_world
    = (Ok tt, if_eq_world) /\
  get_capabilities 2 if_eq_world (VMacro 2) = Ok if_eq_capabilities /\
  exists caps_a caps_b,
    get_capabilities 1 if_eq_world (VMacro 0) = Ok caps_a /\
    get_capabilities 1 if_eq_world (VMacro 1) = Ok caps_b /\
    caps_le caps_a if_eq_capabilities /\ caps_le caps_b if_eq_capabilities.
Proof.
  assert (Hb : add_if_eq example_env 2 (VVariable 0 "x") (VInt 5) (VMacro 0) (VMacro 1)
                 branches_world = (Ok tt, if_eq_world))
    by (unfold if_eq_world; apply returns_in_snd; vm_compute; reflexivity).
  assert (Hg : get_capabilities 2 if_eq_world (VMacro 2) = Ok if_eq_capabilities)
    by (apply is_Ok_returned; vm_compute; reflexivity).
  split; [exact Hb | split; [exact Hg |]].
  destruct (conditionals_compare_and_register example_env telltale 0 2 silent
              (VVariable 0 "x") (VInt 5) (VMacro 0) (VMacro 1) branches_world)
    as (_ & _ & H).
  destruct (H if_eq_world (or_introl Hb)) as (m' & Hm' & Hreg).
  destruct (Hreg (VMacro 0) 0%nat (or_introl eq_refl) eq_refl) as [_ Ha].
  destruct (Hreg (VMacro 1) 1%nat (or_intror eq_refl) eq_refl) as [_ Hb'].
  destruct (Ha 1%nat _ Hg) as (ca & Hca & Lea).
  destruct (Hb' 1%nat _ Hg) as (cb & Hcb & Leb).
  exists ca, cb. auto.
Defined.

(** ** What is declared when the macro is built *)

Lemma persistent_foreseen (w : World) (root : nat) (e : emission) :
  persistent (fun w' => foreseen w root w' e).
Proof.
  intros w1 w2 Hle H ty c Hty Hc.
  destruct (H ty c Hty Hc) as [Hd | [Hkey (addr & m & m1 & Hr & Hm & Hlate & Hm1 & Hd)]];
    [now left | right].
  split; [exact Hkey |].
  destruct (world_le_lookup _ _ _ _ Hle Hm1) as (m2 & Hm2 & Hmm).
  exists addr, m, m2. repeat (split; [assumption |]).
  eapply caps_le_declares; [apply Hmm | exact Hd].
Qed.

(** Whatever a run of well built macros emits was declared when the run
    began by the macro that runs or by one of its descendants, unless it
    is a key that one of them has bound late. *)
Lemma run_emits_foreseen (env : Environment) (fuel : nat) (handler : Handler) (root : nat)
    (w w' : World) (r : result unit) :
  well_built w ->
  run env fuel handler (VMacro root) w = (r, w') ->
  forall e, e ∈ emitted_since w w' -> foreseen w root w' e.
Proof.
  intros Hw H.
  assert (Hres : respects (foreseen w root)
                   (may_run (fun _ addr => reaches w root addr)
                      (fun _ addr t =>
                         exists m, heap w !! addr = Some m /\ t ∈ tasks m /\ task_built m t)
                      (VMacro root))
                   (run env fuel handler (VMacro root))).
  { apply run_respects.
    - apply persistent_foreseen.
    - intros addr w1 w2 _ Hr. exact Hr.
    - intros addr t w1 w2 _ Hwf. exact Hwf.
    - intros w1 self code v Hr (m & Hm & _ & [Hd _]) ty c Hty Hc. simpl in *.
      inversion Hty; subst. left. exists self, m. auto.
    - intros w1 self type_ code v Hr (m & Hm & _ & [Hd _]) ty c Hty Hc. simpl in *.
      subst. left. exists self, m. auto.
    - intros w1 self code value_ speed v Hr (m & Hm & _ & [Hd _]) ty c Hty Hc. simpl in *.
      inversion Hty; inversion Hc; subst. left. exists self, m. auto.
    - intros w1 self code value_ speed v Hr (m & Hm & _ & [Hd _]) ty c Hty Hc. simpl in *.
      inversion Hty; inversion Hc; subst. left. exists self, m. auto.
    - intros w1 self t m1 code v Hr (m & Hm & Hin & [Hd _]) Hcode Hm1 Hd1 ty c Hty Hc.
      simpl in *. inversion Hty; subst.
      destruct t; try contradiction; simpl in Hcode.
      + destruct Hcode as [<- | (oid & name & ->)].
        * left. exists self, m. auto.
        * right. split; [reflexivity |].
          exists self, m, m1. repeat (split; [assumption |]).
          split; [now exists oid, name |]. split; assumption.
      + destruct Hd as [Hd Hint].
        destruct Hcode as [<- | (oid & name & ->)]; [| discriminate Hint].
        left. exists self, m. auto.
    - intros _ self t child Hr (m & Hm & _ & [_ Hch]) Hruns.
      eapply reaches_snoc; [exact Hr | exact Hm | auto]. }
  intros e He. eapply Hres; [| exact H | exact He]. split; [| constructor].
  intros addr m t Hm Ht. exists m. split; [exact Hm | split; [exact Ht |]].
  eapply Hw; eassumption.
Qed.

(** [k(KEY_A)] is built by the builders. *)
Lemma key_world_is_built : built example_env key_world.
Proof.
  eapply (built_more _ (build_key 0 (VStr "KEY_A"))).
  - eapply (built_more _ (build_Macro (Some "k(KEY_A)") (Some (VInt 10)))).
    + apply (built_nothing _ empty_world). reflexivity.
    + reflexivity.
  - reflexivity.
Qed.

Lemma key_macro_is_there : heap key_world !! 0%nat = Some key_macro.
Proof. apply is_there_default. vm_compute. reflexivity. Qed.

(** C2, amended. The macros are built by the builders, and one of them
    is run.  Whatever the run passes to the handler with an integer type
    and an integer code is declared for the type by the capabilities
    that [get_capabilities] returned for the macro before the run, as
    they were built, with one exception: the press and the release of a
    key that was bound late, that is, whose code a macro with a hold on
    a variable, the macro that runs or one of its descendants, has
    declared by the end of the run.  The capabilities that
    [get_capabilities] returns after the run declare that too: the task
    declares the key it has resolved before it presses it. *)
Theorem emissions_are_declared_unless_bound_late (env : Environment) (fuel depth : nat)
    (handler : Handler) (root : nat) (w w' : World) (r : result unit)
    (ty c : Z) (v : value) :
  built env w ->
  run env fuel handler (VMacro root) w = (r, w') ->
  (VInt ty, VInt c, v) ∈ emitted_since w w' ->
  (forall caps, get_capabilities depth w (VMacro root) = Ok caps ->
     declares caps (VInt ty) (VInt c) \/
     (ty = EV_KEY /\ bound_late w w' root (VInt c))) /\
  (forall caps', get_capabilities depth w' (VMacro root) = Ok caps' ->
     declares caps' (VInt ty) (VInt c)).
Proof.
  intros Hb Hrun Hin. pose proof (built_well_built _ _ Hb) as Hw. split.
  - intros caps Hcaps.
    destruct (run_emits_foreseen _ _ _ _ _ _ _ Hw Hrun _ Hin ty c eq_refl eq_refl)
      as [(addr & m & Hr & Hm & Hd) | Hlate]; [left | now right].
    eapply caps_le_declares; [| exact Hd].
    eapply get_capabilities_reaches; eassumption.
  - intros caps' Hcaps.
    destruct (run_emits_covered _ _ _ _ _ _ _ Hw Hrun) as [_ Hcov].
    destruct (Hcov _ Hin ty c eq_refl eq_refl) as (addr & m & Hr & Hm & Hd).
    eapply caps_le_declares; [| exact Hd].
    eapply get_capabilities_reaches; eassumption.
Qed.

(** The theorem at [k(KEY_A)]: the key 30 that a run presses is declared
    by the capabilities of the macro as it was built; and at
    [set(foo, 30).h($foo)]: the key 30 is declared after the run. *)
Lemma emissions_are_declared_unless_bound_late_witness :
  (built example_env key_world /\
   key_down (VInt 30) ∈
     emitted_since key_world (snd (run example_env 2 silent (VMacro 0) key_world)) /\
   declares key_capabilities_built (VInt EV_KEY) (VInt 30)) /\
  (built example_env late_world /\
   emitted_since late_world late_world_after = [key_down (VInt 30); key_up (VInt 30)] /\
   declares late_capabilities_after (VInt EV_KEY) (VInt 30)).
Proof.
  split.
  - assert (Hin : key_down (VInt 30) ∈
                    emitted_since key_world
                      (snd (run example_env 2 silent (VMacro 0) key_world)))
      by (vm_compute; left).
    split; [exact key_world_is_built |]. split; [exact Hin |].
    destruct (emissions_are_declared_unless_bound_late example_env 2 1 silent 0 key_world
                (snd (run example_env 2 silent (VMacro 0) key_world))
                (fst (run example_env 2 silent (VMacro 0) key_world))
                EV_KEY 30 (VInt 1) key_world_is_built (surjective_pairing _) Hin)
      as [Hbuilt _].
    destruct (Hbuilt key_capabilities_built)
      as [Hd | [_ (addr & m & m' & Hr & Hm & Hlate & _)]].
    + apply is_Ok_returned. vm_compute. reflexivity.
    + exact Hd.
    + exfalso.
      assert (Haddr : addr = 0%nat).
      { inversion Hr as [| ? m0 child ? Hm0 Hchild _]; subst; [reflexivity |].
        rewrite key_macro_is_there in Hm0. inversion Hm0; subst m0.
        vm_compute in Hchild. inversion Hchild. }
      subst addr. rewrite key_macro_is_there in Hm. inversion Hm; subst m.
      destruct Hlate as (oid & name & Hhold). vm_compute in Hhold.
      apply list_elem_of_singleton in Hhold. discriminate Hhold.
  - assert (Hin : key_down (VInt 30) ∈ emitted_since late_world late_world_after)
      by (vm_compute; left).
    split; [exact late_world_is_built |]. split; [vm_compute; reflexivity |].
    destruct (emissions_are_declared_unless_bound_late example_env 2 1 silent 0 late_world
                late_world_after (fst (run example_env 2 silent (VMacro 0) late_world))
                EV_KEY 30 (VInt 1) late_world_is_built (surjective_pairing _) Hin)
      as [_ Hafter].
    apply Hafter. apply is_Ok_returned. vm_compute. reflexivity.
Defined.

(** * More about the validators *)

(** What the loop of [_type_check] returns is [None] for an allowed
    [None], or an instance of an allowed type. *)
Lemma try_allowed_types_sound (env : Environment) (w : World) (v v' : value)
    (allowed_types : list kind) :
  try_allowed_types env w v allowed_types = Some (inr v') ->
  (v = VNone /\ v' = VNone /\ KNone ∈ allowed_types) \/
  exists k, k ∈ allowed_types /\ isinstance v' k = true.
Proof.
  induction allowed_types as [| k rest IH]; [discriminate |].
  assert (Hrest : try_allowed_types env w v rest = Some (inr v') ->
                  (v = VNone /\ v' = VNone /\ KNone ∈ k :: rest) \/
                  exists k', k' ∈ k :: rest /\ isinstance v' k' = true).
  { intros H. destruct (IH H) as [(? & ? & ?) | (k' & ? & ?)].
    - left. repeat split; try assumption. now apply list_elem_of_further.
    - right. exists k'. split; [now apply list_elem_of_further | assumption]. }
  assert (Hhere : forall x, isinstance x k = true ->
                   (v = VNone /\ x = VNone /\ KNone ∈ k :: rest) \/
                   exists k', k' ∈ k :: rest /\ isinstance x k' = true).
  { intros x Hx. right. exists k. split; [apply list_elem_of_here | exact Hx]. }
  destruct k; simpl.
  - destruct v as [| z | [s | s | | s m e] | s | o n | a]; simpl;
      try (intros [= <-]; now apply Hhere); try exact Hrest; try discriminate.
    destruct (int_of_str env s); [intros [= <-]; now apply Hhere | exact Hrest].
  - destruct v as [| z | f | s | o n | a]; simpl;
      try (intros [= <-]; now apply Hhere); try exact Hrest.
    + destruct (float_of_int env z); [intros [= <-]; now apply Hhere | discriminate].
    + destruct (float_of_str env s); [intros [= <-]; now apply Hhere | exact Hrest].
  - destruct (py_str env w v) as [s |] eqn:Hs.
    + intros [= <-]. now apply Hhere.
    + destruct v; try discriminate Hs. exact Hrest.
  - destruct v; simpl; try exact Hrest. intros [= <-]. now apply Hhere.
  - destruct v; try exact Hrest. intros [= <-]. left.
    repeat split. apply list_elem_of_here.
Qed.

Lemma type_check_sound (env : Environment) (w : World) (v v' : value)
    (allowed_types : list kind) (display_name : option string) (position : option Z) :
  _type_check env w v allowed_types display_name position = inr v' ->
  (exists oid name, v = VVariable oid name /\ v' = v) \/
  (v = VNone /\ v' = VNone /\ KNone ∈ allowed_types) \/
  (exists k, k ∈ allowed_types /\ isinstance v' k = true).
Proof.
  unfold _type_check. intros H.
  destruct v as [| z | f | s | o n | a];
    try (right; apply (try_allowed_types_sound env w);
         match type of H with
         | match ?x with _ => _ end = _ =>
             destruct x as [[e | x'] |];
             [discriminate | congruence
             | destruct (py_str _ _ _); [destruct display_name, position |];
               discriminate]
         end).
  left. exists o, n. split; [reflexivity | congruence].
Qed.

(** X5. Whatever [_type_check] returns is fit for the task that gets it:
    the argument itself when that is a variable (to be resolved when the
    task runs), [None] when the argument is [None] and [None] is
    allowed, and otherwise an instance of one of the allowed types. *)
Theorem type_check_returns_an_allowed_type (env : Environment) (w : World) (v v' : value)
    (allowed_types : list kind) (display_name : option string) (position : option Z) :
  _type_check env w v allowed_types display_name position = inr v' ->
  (exists oid name, v = VVariable oid name /\ v' = v) \/
  (v = VNone /\ v' = VNone /\ KNone ∈ allowed_types) \/
  (exists k, k ∈ allowed_types /\ isinstance v' k = true).
Proof. apply type_check_sound. Qed.

(** The theorem at the string "42" where an int or [None] is allowed. *)
Lemma type_check_returns_an_allowed_type_witness :
  _type_check example_env empty_world (VStr "42") [KNone; KInt] None None = inr (VInt 42) /\
  ((exists oid name, VStr "42" = VVariable oid name /\ VInt 42 = VStr "42") \/
   (VStr "42" = VNone /\ VInt 42 = VNone /\ KNone ∈ [KNone; KInt]) \/
   (exists k, k ∈ [KNone; KInt] /\ isinstance (VInt 42) k = true)).
Proof.
  split; [reflexivity |].
  exact (type_check_returns_an_allowed_type example_env empty_world (VStr "42") (VInt 42)
           [KNone; KInt] None None eq_refl).
Defined.

(** [None] against types that are neither [str] nor [None]. *)
Lemma try_allowed_types_None (env : Environment) (w : World) (allowed_types : list kind) :
  Forall (fun k => k <> KStr) allowed_types ->
  try_allowed_types env w VNone allowed_types =
    if bool_decide (KNone ∈ allowed_types) then Some (inr VNone) else None.
Proof.
  induction 1 as [| k rest Hk _ IH]; [reflexivity |].
  assert (Hcons : k <> KNone ->
                  bool_decide (KNone ∈ k :: rest) = bool_decide (KNone ∈ rest)).
  { intros Hne. apply bool_decide_ext. rewrite elem_of_cons. split; [| auto].
    intros [? | ?]; [congruence | assumption]. }
  destruct k; try congruence.
  - rewrite Hcons by discriminate. exact IH.
  - rewrite Hcons by discriminate. exact IH.
  - rewrite Hcons by discriminate. exact IH.
  - rewrite bool_decide_eq_true_2 by apply list_elem_of_here. reflexivity.
Qed.

(** X6. Resolving a variable that nothing has set gives [None] to
    [_type_check]: where [str] is not among the allowed types, the
    result is [None] if [None] is allowed and the [TypeError] without
    operation and position otherwise.  Either way the debug line is
    written first. *)
Theorem resolve_of_an_unset_variable (env : Environment) (oid : nat) (name : string)
    (allowed_types : list kind) (w : World) :
  macro_variables w !! name = None ->
  allowed_types <> [] ->
  Forall (fun k => k <> KStr) allowed_types ->
  _resolve env (VVariable oid name) allowed_types w =
    ((if bool_decide (KNone ∈ allowed_types) then Ok VNone
      else Raise (ExpectedParameter None)),
     set_logged (logged w ++ [log_is (VVariable oid name) VNone]) w).
Proof.
  intros Hname Hnil Hstr. unfold _resolve, Variable_resolve, bind, gets, logger, modify.
  rewrite Hname. simpl.
  destruct allowed_types as [| k rest]; [congruence |].
  unfold type_check, _type_check. rewrite (try_allowed_types_None env _ _ Hstr).
  now destruct (bool_decide _).
Qed.

(** The theorem at [$t] where an int or a float is wanted, as in
    [w($t)]. *)
Lemma resolve_of_an_unset_variable_witness :
  _resolve example_env (VVariable 0 "t") [KInt; KFloat] empty_world =
    (Raise (ExpectedParameter None),
     set_logged [log_is (VVariable 0 "t") VNone] empty_world).
Proof.
  refine (resolve_of_an_unset_variable example_env 0 "t" [KInt; KFloat] empty_world
            eq_refl _ _).
  - discriminate.
  - repeat constructor; discriminate.
Defined.

(** ** Names of variables *)

Lemma is_name_char_newline : is_name_char newline = false.
Proof. reflexivity. Qed.

Lemma is_name_tail_legit (s : string) :
  is_name_tail s = true <->
  exists body ending,
    s = body +:+ ending /\
    Forall (fun x => is_name_char x = true) (String.list_ascii_of_string body) /\
    (ending = EmptyString \/ ending = String newline EmptyString).
Proof.
  split.
  - induction s as [| c rest IH]; simpl.
    + intros _. exists EmptyString, EmptyString. simpl. auto.
    + destruct (is_name_char c) eqn:Hc.
      * intros H. destruct (IH H) as (body & ending & -> & Hbody & Hend).
        exists (String c body), ending. simpl. auto.
      * intros [H10 Hrest]%andb_true_iff. destruct rest; [| discriminate].
        exists EmptyString, (String newline EmptyString). simpl.
        split; [| auto]. f_equal.
        apply Nat.eqb_eq in H10. rewrite <- (Ascii.ascii_nat_embedding c), H10.
        reflexivity.
  - intros (body & ending & -> & Hbody & Hend). induction body as [| c body IH]; simpl.
    + destruct Hend as [-> | ->]; reflexivity.
    + simpl in Hbody. inversion Hbody as [| ? ? Hc Hrest]; subst.
      rewrite Hc. auto.
Qed.

(** X7. [_type_check_variablename] accepts exactly the strings that its
    pattern describes: a letter or an underscore, then letters, digits
    and underscores up to the end, or up to one last newline (which [$]
    lets through).  Anything that is not a string is refused. *)
Theorem variablename_is_accepted_iff_legit (env : Environment) (name : value)
    (s : string) :
  _type_check_variablename env name = inr s <-> name = VStr s /\ legit_name s.
Proof.
  unfold _type_check_variablename, legit_name. split.
  - destruct name as [| z | | s' | |]; try discriminate;
      [destruct (str_of_int env z); discriminate |].
    destruct (variable_name_matches s') eqn:Hs; [| discriminate].
    intros [= ->]. split; [reflexivity |].
    destruct s as [| c rest]; [discriminate |].
    apply andb_true_iff in Hs as [Hc Hrest].
    apply is_name_tail_legit in Hrest as (body & ending & -> & ? & ?).
    exists c, body, ending. auto.
  - intros [-> (c & body & ending & -> & Hc & Hbody & Hend)].
    simpl. rewrite Hc. simpl.
    rewrite (proj2 (is_name_tail_legit (body +:+ ending))); [reflexivity |].
    exists body, ending. auto.
Qed.

(** The theorem at the name [foo_1]. *)
Lemma variablename_is_accepted_iff_legit_witness :
  legit_name "foo_1" /\ _type_check_variablename example_env (VStr "foo_1") = inr "foo_1".
Proof.
  assert (H : legit_name "foo_1").
  { exists (Ascii.ascii_of_nat 102), "oo_1", EmptyString.
    split; [reflexivity |]. split; [reflexivity |].
    split; [repeat constructor | now left]. }
  split; [exact H |].
  exact (proj2 (variablename_is_accepted_iff_legit example_env (VStr "foo_1") "foo_1")
           (conj eq_refl H)).
Defined.

(** ** The errors of [_type_check] *)

Lemma try_allowed_types_escapes (env : Environment) (w : World) (v : value)
    (allowed_types : list kind) (e : exn) :
  try_allowed_types env w v allowed_types = Some (inl e) -> e = PyOverflowError.
Proof.
  induction allowed_types as [| k rest IH]; [discriminate |].
  destruct k; simpl.
  - destruct v as [| z | [s | s | | s m e'] | s | o n | a]; simpl;
      try exact IH; try discriminate; try (now intros [= <-]).
    destruct (int_of_str env s); [discriminate | exact IH].
  - destruct v as [| z | f | s | o n | a]; simpl; try exact IH; try discriminate.
    + destruct (float_of_int env z); [discriminate | now intros [= <-]].
    + destruct (float_of_str env s); [discriminate | exact IH].
  - destruct (py_str env w v) eqn:Hs; [discriminate |].
    destruct v; try discriminate Hs. exact IH.
  - destruct v; simpl; try exact IH; discriminate.
  - destruct v; try exact IH; discriminate.
Qed.

Lemma try_allowed_types_str (env : Environment) (w : World) (v : value)
    (allowed_types : list kind) :
  KStr ∈ allowed_types -> py_str env w v <> None ->
  try_allowed_types env w v allowed_types <> None.
Proof.
  intros Hin Hstr. revert Hin.
  induction allowed_types as [| k rest IH]; intros Hin; [now apply elem_of_nil in Hin |].
  assert (Hrest : k <> KStr -> try_allowed_types env w v rest <> None).
  { intros Hk. apply IH. apply elem_of_cons in Hin as [<- | Hin]; [congruence | exact Hin]. }
  destruct k; simpl; try specialize (Hrest ltac:(discriminate)).
  - destruct v as [| z | [s | s | | s m e'] | s | o n | a]; simpl;
      try exact Hrest; try discriminate.
    destruct (int_of_str env s); [discriminate | exact Hrest].
  - destruct v as [| z | f | s | o n | a]; simpl; try exact Hrest; try discriminate.
    + destruct (float_of_int env z); discriminate.
    + destruct (float_of_str env s); [discriminate | exact Hrest].
  - destruct (py_str env w v); [discriminate | congruence].
  - destruct v; simpl; try exact Hrest; discriminate.
  - destruct v; try exact Hrest; discriminate.
Qed.

(** X18. The errors of [_type_check] are three: the [OverflowError] of
    a conversion ([int] of an infinity, [float] of an int that is too
    large), which its [except] does not catch; the [ValueError] of an
    int with too many digits for [str], which the [except] swallows in
    the loop and which the f-string of the final [raise] meets again;
    and its own [TypeError], which names the operation and the position
    when both are given.  Where [str] is among the allowed types the
    [TypeError] is never raised: whatever [str] can print it takes. *)
Theorem type_check_errors (env : Environment) (w : World) (v : value)
    (allowed_types : list kind) (display_name : option string) (position : option Z)
    (e : exn) :
  _type_check env w v allowed_types display_name position = inl e ->
  e = PyOverflowError \/
  (e = PyValueError /\ exists z, v = VInt z /\ str_of_int env z = None) \/
  ((KStr ∉ allowed_types) /\
   e = ExpectedParameter
         (match display_name, position with
          | Some d, Some p => Some (d, p)
          | _, _ => None
          end)).
Proof.
  unfold _type_check. intros H.
  assert (Hloop : match try_allowed_types env w v allowed_types with
                  | Some r => r
                  | None =>
                      match py_str env w v with
                      | None => inl PyValueError
                      | Some _ =>
                          match display_name, position with
                          | Some d, Some p => inl (ExpectedParameter (Some (d, p)))
                          | _, _ => inl (ExpectedParameter None)
                          end
                      end
                  end = inl e) by (destruct v; try exact H; discriminate).
  clear H. destruct (try_allowed_types env w v allowed_types) as [r |] eqn:Hr.
  - subst r. left. exact (try_allowed_types_escapes _ _ _ _ _ Hr).
  - right. destruct (py_str env w v) as [s |] eqn:Hs.
    + right. split.
      * intros Hin. apply (try_allowed_types_str env w v _ Hin); [| exact Hr].
        now rewrite Hs.
      * destruct display_name, position; congruence.
    + left. split; [congruence |].
      destruct v as [| z | | | |]; try discriminate Hs. now exists z.
Qed.

(** The theorem at [None] where an int is wanted, as for the count of
    [r], and at an int of 4301 digits where a string is wanted. *)
Lemma type_check_errors_witness :
  (_type_check example_env empty_world VNone [KInt] (Some "r (repeat)") (Some 1)
     = inl (ExpectedParameter (Some ("r (repeat)", 1))) /\
   (ExpectedParameter (Some ("r (repeat)", 1)) = PyOverflowError \/
    (ExpectedParameter (Some ("r (repeat)", 1)) = PyValueError /\
     exists z, VNone = VInt z /\ str_of_int example_env z = None) \/
    ((KStr ∉ [KInt]) /\
     ExpectedParameter (Some ("r (repeat)", 1))
       = ExpectedParameter (Some ("r (repeat)", 1))))) /\
  (_type_check example_env empty_world (VInt (10 ^ 4300)) [KStr] (Some "mouse") (Some 1)
     = inl PyValueError /\
   (PyValueError = PyOverflowError \/
    (PyValueError = PyValueError /\
     exists z, VInt (10 ^ 4300) = VInt z /\ str_of_int example_env z = None) \/
    ((KStr ∉ [KStr]) /\ PyValueError = ExpectedParameter (Some ("mouse", 1))))).
Proof.
  split.
  - split; [reflexivity |].
    exact (type_check_errors example_env empty_world VNone [KInt] (Some "r (repeat)")
             (Some 1) _ eq_refl).
  - assert (Hstr : str_of_int example_env (10 ^ 4300) = None).
    { unfold example_env. cbv beta iota delta [str_of_int].
      rewrite Z.abs_eq by (apply Z.pow_nonneg; discriminate).
      now rewrite Z.ltb_irrefl. }
    assert (H : _type_check example_env empty_world (VInt (10 ^ 4300)) [KStr]
                  (Some "mouse") (Some 1) = inl PyValueError).
    { cbv beta iota delta [_type_check try_allowed_types construct py_str isinstance].
      now rewrite Hstr. }
    split; [exact H |].
    exact (type_check_errors example_env empty_world (VInt (10 ^ 4300)) [KStr]
             (Some "mouse") (Some 1) _ H).
Defined.

(** * More about the builders *)

(** ** A builder only extends its macro *)

#[global] Instance extends_preorder : PreOrder extends.
Proof.
  split.
  - intros m. split; reflexivity.
  - intros a b c [] []. split; try congruence; etrans; eassumption.
Qed.

Lemma extends_with_tasks (m : Macro) (t : task) : extends m (with_tasks (tasks m ++ [t]) m).
Proof. split; try reflexivity. simpl. apply prefix_app_r. reflexivity. Qed.

Lemma extends_with_child_macros (m : Macro) (c : value) :
  extends m (with_child_macros (child_macros m ++ [c]) m).
Proof. split; try reflexivity. simpl. apply prefix_app_r. reflexivity. Qed.

Lemma extends_with_capabilities (m : Macro) (caps : gmap value (gset value)) :
  caps_le (capabilities m) caps -> extends m (with_capabilities caps m).
Proof. intros H. split; try reflexivity. exact H. Qed.

Lemma rewrites_rewrites (self : nat) (m1 m2 : Macro) (w w1 w2 : World) :
  rewrites self m1 w w1 -> rewrites self m2 w1 w2 -> rewrites self m2 w w2.
Proof.
  unfold rewrites. intros -> ->. rewrite set_heap_set_heap, heap_set_heap.
  now rewrite insert_insert_eq.
Qed.

Lemma rewrites_lookup (self : nat) (m1 : Macro) (w w1 : World) :
  rewrites self m1 w w1 -> heap w1 !! self = Some m1.
Proof. intros ->. rewrite heap_set_heap. apply lookup_insert_eq. Qed.

Lemma grows_from_weaken {A} (self : nat) (P Q : World -> Prop) (c : M A) :
  (forall w, Q w -> P w) -> grows_from self P c -> grows_from self Q c.
Proof. intros HPQ H w r w' HQ. apply H, HPQ, HQ. Qed.

Lemma grows_unchanging {A} (self : nat) (P : World -> Prop) (c : M A) :
  unchanging c -> grows_from self P c.
Proof. intros H w r w' _ Hc. left. exact (H _ _ _ Hc). Qed.

Lemma grows_same {A} (self : nat) (c : M A) : unchanging c -> grows self c.
Proof. apply grows_unchanging. Qed.

Lemma grows_from_bind {A B} (self : nat) (P : World -> Prop) (c : M A) (k : A -> M B) :
  grows_from self P c -> (forall a, grows self (k a)) -> grows_from self P (bind c k).
Proof.
  intros Hc Hk w r w' HP Hbind.
  apply bind_inv in Hbind as [(a & w1 & Hm & Hka) | [(e & Hm & _) | (s & Hm & _)]];
    [| exact (Hc _ _ _ HP Hm) ..].
  destruct (Hc _ _ _ HP Hm) as [-> | (m & m1 & Hlook & Hrw & Hext)];
    [exact (Hk a _ _ _ I Hka) |].
  destruct (Hk a _ _ _ I Hka) as [-> | (m1' & m2 & Hlook1 & Hrw1 & Hext1)].
  - right. eauto.
  - right. exists m, m2. split; [exact Hlook |]. split.
    + eapply rewrites_rewrites; eassumption.
    + rewrite (rewrites_lookup _ _ _ _ Hrw) in Hlook1. injection Hlook1 as <-.
      etrans; eassumption.
Qed.

Lemma grows_bind {A B} (self : nat) (c : M A) (k : A -> M B) :
  grows self c -> (forall a, grows self (k a)) -> grows self (bind c k).
Proof. apply grows_from_bind. Qed.

(** After [the_macro self] the object that was read is the one at
    [self]. *)
Lemma grows_the_macro_bind {B} (self : nat) (k : Macro -> M B) :
  (forall m, grows_from self (fun w => heap w !! self = Some m) (k m)) ->
  grows self (bind (the_macro self) k).
Proof.
  intros Hk w r w' _ Hbind. unfold bind, the_macro in Hbind.
  destruct (heap w !! self) as [m |] eqn:Hlook.
  - specialize (Hk m _ _ _ Hlook Hbind). now rewrite Hlook in Hk.
  - left. now injection Hbind.
Qed.

Lemma grows_update_macro (self : nat) (P : World -> Prop) (f : Macro -> Macro) :
  (forall w m, P w -> heap w !! self = Some m -> extends m (f m)) ->
  grows_from self P (update_macro self f).
Proof.
  intros Hf w r w' HP Hc. unfold update_macro in Hc.
  destruct (heap w !! self) as [m |] eqn:Hlook; injection Hc as <- <-.
  - right. exists m, (f m). split; [reflexivity |]. split; [reflexivity | eauto].
  - now left.
Qed.

Lemma grows_capabilities_add (self : nat) (ty c : value) :
  grows self (capabilities_add self ty c).
Proof.
  apply grows_the_macro_bind. intros m.
  destruct (capabilities m !! ty) as [codes |] eqn:Hty.
  - apply grows_update_macro. intros w m0 Hm Hm0.
    assert (m0 = m) as -> by congruence.
    apply extends_with_capabilities, caps_le_insert with codes; [exact Hty | set_solver].
  - apply grows_unchanging. intros w r w' H. now injection H.
Qed.

Lemma unchanging_type_check (env : Environment) (v : value) (allowed_types : list kind)
    (display_name : option string) (position : option Z) :
  unchanging (type_check env v allowed_types display_name position).
Proof. intros w r w'. apply type_check_same. Qed.

Lemma unchanging_type_check_keyname (env : Environment) (v : value) :
  unchanging (type_check_keyname env v).
Proof. intros w r w'. apply type_check_keyname_same. Qed.

Lemma unchanging_lift {A} (x : exn + A) : unchanging (lift x).
Proof. intros w r w'. apply lift_same. Qed.

Lemma unchanging_ret {A} (a : A) : unchanging (ret a).
Proof. intros w r w' H. now injection H. Qed.

Lemma unchanging_raise {A} (e : exn) : unchanging (@raise A e).
Proof. intros w r w' H. now injection H. Qed.

Lemma unchanging_gets {A} (f : World -> A) : unchanging (gets f).
Proof. intros w r w' H. now injection H. Qed.

Lemma unchanging_str (env : Environment) (v : value) : unchanging (str env v).
Proof. intros w r w'. apply str_same. Qed.

Lemma unchanging_ecodes_of_name (env : Environment) (x : value) :
  unchanging (ecodes_of_name env x).
Proof. intros w r w'. apply ecodes_of_name_same. Qed.

Lemma unchanging_direction_lookup (env : Environment) (table : list (string * (Z * Z)))
    (direction : value) :
  unchanging (direction_lookup env table direction).
Proof. intros w r w'. apply direction_lookup_same. Qed.

Create HintDb grows discriminated.
#[global] Hint Resolve unchanging_type_check unchanging_type_check_keyname unchanging_lift
  unchanging_ret unchanging_raise unchanging_gets unchanging_str
  unchanging_ecodes_of_name
  unchanging_direction_lookup : grows.
#[global] Hint Resolve extends_with_tasks extends_with_child_macros : grows.

Lemma grows_tasks_append (self : nat) (t : task) : grows self (tasks_append self t).
Proof. apply grows_update_macro. auto with grows. Qed.

Lemma grows_child_macros_append (self : nat) (c : value) :
  grows self (child_macros_append self c).
Proof. apply grows_update_macro. auto with grows. Qed.

Lemma grows_child_macros_append_if_Macro (self : nat) (c : value) :
  grows self (child_macros_append_if_Macro self c).
Proof.
  destruct c; simpl; try solve [apply grows_same; auto with grows].
  apply grows_child_macros_append.
Qed.

#[global] Hint Resolve grows_tasks_append grows_child_macros_append
  grows_child_macros_append_if_Macro grows_capabilities_add : grows.

Ltac grows_tac :=
  repeat first
    [ solve [auto with grows]
    | solve [apply grows_same; auto with grows]
    | apply grows_bind; [| intros ?]
    | match goal with
      | |- grows _ (match ?x with _ => _ end) => destruct x
      | |- grows _ (if ?x then _ else _) => destruct x
      end ].

Lemma grows_add_mouse_capabilities (self : nat) : grows self (add_mouse_capabilities self).
Proof. unfold add_mouse_capabilities. grows_tac. Qed.

#[global] Hint Resolve grows_add_mouse_capabilities : grows.

Lemma grows_add_event (env : Environment) (self : nat) (type_ code value_ : value) :
  grows self (add_event env self type_ code value_).
Proof.
  unfold add_event.
  do 5 (apply grows_bind; [grows_tac | intros ?]).
  apply grows_the_macro_bind. intros m.
  apply grows_from_bind; [| intros ?; grows_tac].
  destruct (capabilities m !! _) eqn:Hty.
  - apply grows_unchanging. auto with grows.
  - apply grows_update_macro. intros w m0 Hm Hm0.
    assert (m0 = m) as -> by congruence.
    apply extends_with_capabilities, caps_le_insert_new, Hty.
Qed.

Lemma grows_build (env : Environment) (b : building) (self : nat) :
  builder_self b = Some self -> grows self (build env b).
Proof.
  destruct b; intros [= <-]; simpl; try apply grows_add_event.
  - unfold add_hold. grows_tac.
  - unfold add_modify. grows_tac.
  - unfold add_repeat. grows_tac.
  - unfold add_key. grows_tac.
  - unfold add_mouse. grows_tac.
  - unfold add_wheel. grows_tac.
  - unfold add_wait. grows_tac.
  - unfold add_set. grows_tac.
  - unfold add_ifeq. grows_tac.
  - unfold add_if_eq. grows_tac.
  - unfold add_if_tap. grows_tac.
  - unfold add_if_single. grows_tac.
Qed.

(** X3. A call of a builder on the macro at [self], whatever it returns,
    either leaves the world as it was or replaces the object at [self]
    by an extension of it: tasks and children are only appended,
    capabilities only added, and the other fields of the macro, the other
    macros, the variables, the emissions, the log and the schedule stay
    as they were. *)
Theorem builder_only_extends_its_macro (env : Environment) (b : building) (self : nat)
    (w w' : World) (r : result unit) :
  builder_self b = Some self ->
  build env b w = (r, w') ->
  w' = w \/
  exists m m',
    heap w !! self = Some m /\ w' = set_heap (<[self := m']> (heap w)) w /\ extends m m'.
Proof. intros Hb Hc. exact (grows_build env b self Hb w r w' I Hc). Qed.

(** The theorem at [k(KEY_A)] added to a new macro. *)
Lemma builder_only_extends_its_macro_witness :
  let w := one_macro_world "k(KEY_A)" in
  let w' := snd (build example_env (build_key 0 (VStr "KEY_A")) w) in
  builder_self (build_key 0 (VStr "KEY_A")) = Some 0%nat /\
  (w' = w \/
   exists m m',
     heap w !! 0%nat = Some m /\ w' = set_heap (<[0%nat := m']> (heap w)) w /\ extends m m').
Proof.
  split; [reflexivity |].
  apply (builder_only_extends_its_macro example_env (build_key 0 (VStr "KEY_A")) 0
           (one_macro_world "k(KEY_A)") _
           (fst (build example_env (build_key 0 (VStr "KEY_A")) (one_macro_world "k(KEY_A)")))
           eq_refl).
  apply surjective_pairing.
Defined.

(** ** A builder that fails changes nothing *)

Lemma settles_weaken {A} (self : nat) (P Q : Macro -> Prop) (c : M A) :
  (forall m, P m -> Q m) -> settles self P c -> settles self Q c.
Proof.
  intros HPQ Hc w r w' H. specialize (Hc _ _ _ H).
  destruct r; [| exact Hc ..]. destruct Hc as (m' & ? & ?). eauto.
Qed.

Lemma succeeds_bind {A B} (self : nat) (P Q R : Macro -> Prop) (c : M A) (k : A -> M B) :
  succeeds self P Q c -> (forall a, succeeds self Q R (k a)) ->
  succeeds self P R (bind c k).
Proof.
  intros Hc Hk w m Hm HP.
  destruct (Hc _ _ Hm HP) as (a & w1 & m1 & Hcw & Hm1 & HQ).
  destruct (Hk a _ _ Hm1 HQ) as (b & w2 & m2 & Hkw & Hm2 & HR).
  exists b, w2, m2. unfold bind. rewrite Hcw. auto.
Qed.

Lemma succeeds_ret {A} (self : nat) (P : Macro -> Prop) (a : A) :
  succeeds self P P (ret a).
Proof. intros w m Hm HP. exists a, w, m. auto. Qed.

Lemma succeeds_update_macro (self : nat) (P Q : Macro -> Prop) (f : Macro -> Macro) :
  (forall m, P m -> Q (f m)) -> succeeds self P Q (update_macro self f).
Proof.
  intros Hf w m Hm HP. exists tt, (set_heap (<[self := f m]> (heap w)) w), (f m).
  split; [now apply update_macro_lookup |].
  split; [apply lookup_after_update | auto].
Qed.

Lemma succeeds_capabilities_add (self : nat) (ty c : value) :
  succeeds self (has_key ty) (has_key ty) (capabilities_add self ty c).
Proof.
  intros w m Hm [codes Hty].
  eexists tt, _, _. split; [exact (capabilities_add_lookup _ _ _ c _ _ Hm Hty) |].
  split; [apply lookup_after_update |].
  unfold has_key. simpl. rewrite lookup_insert_eq. eauto.
Qed.

Lemma succeeds_child_macros_append_if_Macro (self : nat) (P : Macro -> Prop) (c : value) :
  (forall m x, P m -> P (with_child_macros x m)) ->
  succeeds self P P (child_macros_append_if_Macro self c).
Proof.
  intros HP. destruct c; simpl; try apply succeeds_ret.
  apply succeeds_update_macro. auto.
Qed.

Lemma settles_then {A B} (self : nat) (Q R : Macro -> Prop) (c : M A) (k : A -> M B) :
  settles self Q c -> (forall a, succeeds self Q R (k a)) -> settles self R (bind c k).
Proof.
  intros Hc Hk w r w' Hbind.
  apply bind_inv in Hbind as [(a & w1 & Hm & Hka) | [(e & Hm & ->) | (s & Hm & ->)]];
    [| exact (Hc _ _ _ Hm) ..].
  destruct (Hc _ _ _ Hm) as (m1 & Hm1 & HQ).
  destruct (Hk a _ _ Hm1 HQ) as (b & w2 & m2 & Hkw & Hm2 & HR).
  rewrite Hka in Hkw. injection Hkw as -> ->. eauto.
Qed.

(** After a step that changes nothing, with what the step returned
    known to be something it can return. *)
Lemma settles_after {A B} (self : nat) (Q : Macro -> Prop) (c : M A) (k : A -> M B) :
  unchanging c ->
  (forall a, (exists w, c w = (Ok a, w)) -> settles self Q (k a)) ->
  settles self Q (bind c k).
Proof.
  intros Hc Hk w r w' Hbind.
  apply bind_inv in Hbind as [(a & w1 & Hm & Hka) | [(e & Hm & ->) | (s & Hm & ->)]];
    [| exact (Hc _ _ _ Hm) ..].
  pose proof (Hc _ _ _ Hm) as ->.
  exact (Hk a (ex_intro _ w Hm) _ _ _ Hka).
Qed.

Lemma settles_the_macro_bind {B} (self : nat) (Q : Macro -> Prop) (k : Macro -> M B) :
  (forall m, succeeds self (eq m) Q (k m)) -> settles self Q (bind (the_macro self) k).
Proof.
  intros Hk w r w' Hbind. unfold bind, the_macro in Hbind.
  destruct (heap w !! self) as [m |] eqn:Hlook.
  - destruct (Hk m _ _ Hlook eq_refl) as (b & w2 & m2 & Hkw & Hm2 & HQ).
    rewrite Hbind in Hkw. injection Hkw as -> ->. eauto.
  - now injection Hbind as <- <-.
Qed.

Lemma settles_update_macro (self : nat) (Q : Macro -> Prop) (f : Macro -> Macro) :
  (forall m, Q (f m)) -> settles self Q (update_macro self f).
Proof.
  intros Hf w r w' Hc. unfold update_macro in Hc.
  destruct (heap w !! self) as [m |] eqn:Hlook; injection Hc as <- <-; [| reflexivity].
  exists (f m). split; [apply lookup_after_update | apply Hf].
Qed.

Lemma settles_capabilities_add (self : nat) (ty c : value) :
  settles self (has_key ty) (capabilities_add self ty c).
Proof.
  intros w r w' Hc. unfold capabilities_add, bind, the_macro in Hc.
  destruct (heap w !! self) as [m |] eqn:Hlook; [| now injection Hc as <- <-].
  destruct (capabilities m !! ty) as [codes |] eqn:Hty; [| now injection Hc as <- <-].
  rewrite (update_macro_lookup _ _ _ _ Hlook) in Hc. injection Hc as <- <-.
  eexists. split; [apply lookup_after_update |].
  unfold has_key. simpl. rewrite lookup_insert_eq. eauto.
Qed.

Lemma settles_atomic {A} (self : nat) (Q : Macro -> Prop) (c : M A) (w w' : World)
    (r : result A) :
  settles self Q c -> c w = (r, w') -> is_Ok r = false -> w' = w.
Proof. intros Hc H Hr. specialize (Hc _ _ _ H). now destruct r. Qed.

Lemma settles_raise {A} (self : nat) (Q : Macro -> Prop) (e : exn) :
  settles self Q (@raise A e).
Proof. intros w r w' H. now injection H as <- <-. Qed.

Lemma settles_then_keeping {A B} (self : nat) (Q : Macro -> Prop) (c : M A)
    (k : A -> M B) :
  settles self Q c -> (forall a, succeeds self Q Q (k a)) ->
  settles self (fun _ => True) (bind c k).
Proof.
  intros Hc Hk. apply settles_weaken with Q; [auto |]. now apply settles_then with Q.
Qed.

Create HintDb settles discriminated.
#[global] Hint Resolve succeeds_ret succeeds_capabilities_add : settles.
#[global] Hint Extern 1 (succeeds _ _ _ (update_macro _ _)) =>
  apply succeeds_update_macro; (let H := fresh in intros ? H; exact H) : settles.
#[global] Hint Extern 1 (succeeds _ _ _ (tasks_append _ _)) =>
  apply succeeds_update_macro; (let H := fresh in intros ? H; exact H) : settles.
#[global] Hint Extern 1 (succeeds _ _ _ (child_macros_append _ _)) =>
  apply succeeds_update_macro; (let H := fresh in intros ? H; exact H) : settles.
#[global] Hint Extern 1 (succeeds _ _ _ (child_macros_append_if_Macro _ _)) =>
  apply succeeds_child_macros_append_if_Macro; (let H := fresh in intros ? ? H; exact H) : settles.
#[global] Hint Extern 1 (settles _ (fun _ => True) (tasks_append _ _)) =>
  apply settles_update_macro; intros ?; exact I : settles.
#[global] Hint Extern 1 (settles _ (fun _ => True) (child_macros_append _ _)) =>
  apply settles_update_macro; intros ?; exact I : settles.
#[global] Hint Resolve settles_capabilities_add settles_raise : settles.

Ltac succeeds_tac :=
  repeat first
    [ solve [auto with settles]
    | match goal with
      | |- succeeds ?s ?P ?P (bind _ _) => apply (succeeds_bind s P P P); [| intros ?]
      end ].

Ltac settles_tac :=
  repeat first
    [ solve [auto with settles]
    | apply settles_after; [solve [auto with grows] | intros ? ?]
    | apply (settles_then_keeping _ (fun _ => True));
        [solve [auto with settles] | intros ?; solve [succeeds_tac]]
    | eapply settles_then_keeping;
        [apply settles_capabilities_add | intros ?; solve [succeeds_tac]]
    | match goal with
      | |- settles _ _ (match ?x with _ => _ end) => destruct x
      end ].

Lemma settles_add_hold (env : Environment) (self : nat) (macro : value) :
  settles self (fun _ => True) (add_hold env self macro).
Proof. unfold add_hold. settles_tac. Qed.

Lemma settles_add_modify (env : Environment) (self : nat) (modifier macro : value) :
  settles self (fun _ => True) (add_modify env self modifier macro).
Proof. unfold add_modify. settles_tac. Qed.

Lemma settles_add_repeat (env : Environment) (self : nat) (repeats macro : value) :
  settles self (fun _ => True) (add_repeat env self repeats macro).
Proof. unfold add_repeat. settles_tac. Qed.

Lemma settles_add_key (env : Environment) (self : nat) (symbol : value) :
  settles self (fun _ => True) (add_key env self symbol).
Proof. unfold add_key. settles_tac. Qed.

Lemma settles_add_wait (env : Environment) (self : nat) (time : value) :
  settles self (fun _ => True) (add_wait env self time).
Proof. unfold add_wait. settles_tac. Qed.

Lemma settles_add_set (env : Environment) (self : nat) (variable value_ : value) :
  settles self (fun _ => True) (add_set env self variable value_).
Proof. unfold add_set. settles_tac. Qed.

Lemma settles_add_mouse_capabilities (self : nat) :
  settles self (has_key (VInt EV_REL)) (add_mouse_capabilities self).
Proof.
  unfold add_mouse_capabilities.
  eapply settles_then; [apply settles_capabilities_add | intros ?; succeeds_tac].
Qed.

Lemma settles_add_mouse (env : Environment) (self : nat) (direction speed : value) :
  settles self (fun _ => True) (add_mouse env self direction speed).
Proof.
  unfold add_mouse. settles_tac.
  eapply settles_then_keeping; [apply settles_add_mouse_capabilities | intros ?; succeeds_tac].
Qed.

Lemma settles_add_wheel (env : Environment) (self : nat) (direction speed : value) :
  settles self (fun _ => True) (add_wheel env self direction speed).
Proof.
  unfold add_wheel. settles_tac.
  eapply settles_then_keeping; [apply settles_add_mouse_capabilities | intros ?; succeeds_tac].
Qed.

(** The branches of a conditional, then its task. *)
Lemma settles_branches (self : nat) (then_ else_ : value) (t : task) :
  settles self (fun _ => True)
    (child_macros_append_if_Macro self then_ ;;;
     child_macros_append_if_Macro self else_ ;;;
     tasks_append self t).
Proof. destruct then_, else_; simpl; settles_tac. Qed.

#[global] Hint Resolve settles_branches : settles.

Lemma settles_add_ifeq (env : Environment) (self : nat) (variable value_ then_ else_ : value) :
  settles self (fun _ => True) (add_ifeq env self variable value_ then_ else_).
Proof. unfold add_ifeq. settles_tac. Qed.

Lemma settles_add_if_eq (env : Environment) (self : nat)
    (value_1 value_2 then_ else_ : value) :
  settles self (fun _ => True) (add_if_eq env self value_1 value_2 then_ else_).
Proof. unfold add_if_eq. settles_tac. Qed.

Lemma settles_add_if_tap (env : Environment) (self : nat) (then_ else_ timeout : value) :
  settles self (fun _ => True) (add_if_tap env self then_ else_ timeout).
Proof. unfold add_if_tap. settles_tac. Qed.

Lemma settles_add_if_single (env : Environment) (self : nat) (then_ else_ timeout : value) :
  settles self (fun _ => True) (add_if_single env self then_ else_ timeout).
Proof. unfold add_if_single. settles_tac. Qed.

(** The type of an event, once [add_event] has checked it and looked
    its name up, is an int or a variable. *)
Lemma event_operand (env : Environment) (v a b : value) (display_name : option string)
    (position : option Z) :
  (exists w, type_check env v [KInt; KStr] display_name position w = (Ok a, w)) ->
  (exists w, ecodes_of_name env a w = (Ok b, w)) ->
  (exists z, b = VInt z) \/ (exists oid name, b = VVariable oid name).
Proof.
  intros [w Ha] [w1 Hb]. unfold type_check, lift in Ha.
  destruct (_type_check env w v [KInt; KStr] display_name position) as [| a'] eqn:Hcheck;
    [discriminate |].
  injection Ha as ->.
  apply type_check_sound in Hcheck
    as [(o & n & -> & ->) | [(_ & _ & Hin) | (k & Hin & Hk)]].
  - injection Hb as <-. eauto.
  - rewrite !elem_of_cons in Hin. destruct Hin as [? | [? | Hin]]; try discriminate.
    now apply elem_of_nil in Hin.
  - rewrite !elem_of_cons in Hin. destruct Hin as [-> | [-> | Hin]];
      [| | now apply elem_of_nil in Hin].
    + destruct a; try discriminate. injection Hb as <-. eauto.
    + destruct a; try discriminate. simpl in Hb.
      destruct (ecodes env (upper env s)); [| discriminate].
      injection Hb as <-. eauto.
Qed.

Lemma succeeds_weaken {A} (self : nat) (P Q R : Macro -> Prop) (c : M A) :
  (forall m, Q m -> R m) -> succeeds self P Q c -> succeeds self P R c.
Proof.
  intros HQR Hc w m Hm HP. destruct (Hc _ _ Hm HP) as (a & w' & m' & ? & ? & ?).
  exists a, w', m'. auto.
Qed.

Lemma settles_add_event (env : Environment) (self : nat) (type_ code value_ : value) :
  settles self (fun _ => True) (add_event env self type_ code value_).
Proof.
  unfold add_event.
  apply settles_after; [auto with grows | intros ty1 Hty1].
  apply settles_after; [auto with grows | intros c1 _].
  apply settles_after; [auto with grows | intros v1 _].
  apply settles_after; [auto with grows | intros ty Hty].
  apply settles_after; [auto with grows | intros c _].
  pose proof (event_operand _ _ _ _ _ _ Hty1 Hty) as Hshape.
  apply settles_the_macro_bind. intros m.
  apply succeeds_weaken with (has_key ty); [auto |].
  apply succeeds_bind with (has_key ty).
  - intros w m0 Hm0 <-. destruct (capabilities m !! ty) as [codes |] eqn:Hkey.
    + exists tt, w, m. unfold has_key. rewrite Hkey. eauto.
    + eexists tt, _, _. split; [apply update_macro_lookup; exact Hm0 |].
      split; [apply lookup_after_update |].
      unfold has_key. simpl. rewrite lookup_insert_eq. eauto.
  - intros _. apply (succeeds_bind self (has_key ty) (has_key ty)); [| intros _; succeeds_tac].
    destruct (py_eq ty (VInt EV_REL)) eqn:Heq; [| apply succeeds_ret].
    assert (ty = VInt EV_REL) as ->.
    { destruct Hshape as [[z ->] | (o & n & ->)]; [| discriminate].
      simpl in Heq. apply Z.eqb_eq in Heq. now subst. }
    succeeds_tac.
Qed.

Lemma settles_build (env : Environment) (b : building) (self : nat) :
  builder_self b = Some self -> settles self (fun _ => True) (build env b).
Proof.
  destruct b; intros [= <-]; simpl.
  - apply settles_add_hold.
  - apply settles_add_modify.
  - apply settles_add_repeat.
  - apply settles_add_key.
  - apply settles_add_event.
  - apply settles_add_mouse.
  - apply settles_add_wheel.
  - apply settles_add_wait.
  - apply settles_add_set.
  - apply settles_add_ifeq.
  - apply settles_add_if_eq.
  - apply settles_add_if_tap.
  - apply settles_add_if_single.
Qed.

(** X4. A call of a builder that does not return (it raises, or the
    macro it is called on does not exist) leaves the world exactly as it
    was: no task, child or capability has been added by the time the
    call fails. *)
Theorem failed_builder_changes_nothing (env : Environment) (b : building)
    (w w' : World) (r : result unit) :
  build env b w = (r, w') -> is_Ok r = false -> w' = w.
Proof.
  intros Hb Hr. destruct (builder_self b) as [self |] eqn:Hself.
  - exact (settles_atomic self _ _ _ _ _ (settles_build env b self Hself) Hb Hr).
  - destruct b; try discriminate. simpl in Hb. unfold bind, new_Macro, ret in Hb.
    injection Hb as <- <-. discriminate.
Qed.

(** The theorem at [mouse(sideways, 4)], which fails on the direction. *)
Lemma failed_builder_changes_nothing_witness :
  let w := one_macro_world "mouse(sideways, 4)" in
  let outcome := build example_env (build_mouse 0 (VStr "sideways") (VInt 4)) w in
  fst outcome = Raise PyKeyError /\ snd outcome = w.
Proof.
  assert (H : fst (build example_env (build_mouse 0 (VStr "sideways") (VInt 4))
                     (one_macro_world "mouse(sideways, 4)")) = Raise PyKeyError)
    by (vm_compute; reflexivity).
  split; [exact H |].
  apply (failed_builder_changes_nothing example_env
           (build_mouse 0 (VStr "sideways") (VInt 4)) _ _
           (fst (build example_env (build_mouse 0 (VStr "sideways") (VInt 4))
                   (one_macro_world "mouse(sideways, 4)")))).
  - apply surjective_pairing.
  - cbv zeta in H. rewrite H. reflexivity.
Defined.

(** ** The footprint of a mouse *)

Lemma footprint_then_task (self : nat) (t : task) (w w' : World) :
  (add_mouse_capabilities self ;;; tasks_append self t) w = (Ok tt, w') ->
  exists m',
    heap w' !! self = Some m' /\
    forall c, c ∈ [REL_X; REL_Y; REL_WHEEL; REL_HWHEEL] ->
      declares (capabilities m') (VInt EV_REL) (VInt c).
Proof.
  intros H. apply bind_ok_inv in H as ([] & w2 & H2 & H).
  assert (Hm : is_Some (heap w !! self)).
  { unfold add_mouse_capabilities in H2. apply bind_ok_inv in H2 as ([] & ? & Ha & _).
    eapply capabilities_add_is_Some; exact Ha. }
  destruct Hm as [m Hm].
  destruct (chain_add_mouse_capabilities _ _ _ _ _ (rewrites_start _ _ _ Hm) H2)
    as (m2 & R2 & _ & D2 & _ & _).
  pose proof (chain_tasks_append _ _ _ _ _ _ R2 H) as R.
  eexists. split; [exact (rewrites_lookup _ _ _ _ R) | exact D2].
Qed.

(** X21. After [add_mouse] or [add_wheel] has returned, the macro
    declares for [EV_REL] all four codes that make a device a mouse:
    [REL_X], [REL_Y], [REL_WHEEL] and [REL_HWHEEL], whatever the
    direction. *)
Theorem mouse_and_wheel_declare_the_footprint (env : Environment) (self : nat)
    (direction speed : value) (w w' : World) :
  add_mouse env self direction speed w = (Ok tt, w') \/
  add_wheel env self direction speed w = (Ok tt, w') ->
  exists m',
    heap w' !! self = Some m' /\
    forall c, c ∈ [REL_X; REL_Y; REL_WHEEL; REL_HWHEEL] ->
      declares (capabilities m') (VInt EV_REL) (VInt c).
Proof.
  intros [H | H]; [unfold add_mouse in H | unfold add_wheel in H];
    apply bind_ok_inv in H as (x & w1 & H1 & H); apply type_check_same in H1 as ->;
    apply bind_ok_inv in H as (s & w1 & H1 & H); apply type_check_same in H1 as ->;
    apply bind_ok_inv in H as (cv & w1 & H1 & H); apply direction_lookup_same in H1 as ->;
    exact (footprint_then_task _ _ _ _ H).
Qed.

(** The theorem at [wheel(up, 0)]. *)
Lemma mouse_and_wheel_declare_the_footprint_witness :
  exists m',
    heap (snd (add_wheel example_env 0 (VStr "up") (VInt 0) (one_macro_world "wheel(up, 0)")))
      !! 0%nat = Some m' /\
    forall c, c ∈ [REL_X; REL_Y; REL_WHEEL; REL_HWHEEL] ->
      declares (capabilities m') (VInt EV_REL) (VInt c).
Proof.
  apply (mouse_and_wheel_declare_the_footprint example_env 0 (VStr "up") (VInt 0)
           (one_macro_world "wheel(up, 0)")).
  right. apply returns_in_snd. vm_compute. reflexivity.
Defined.

(** * The trigger and the newest event of a family of macros *)

Lemma unchanging_the_macro (self : nat) : unchanging (the_macro self).
Proof.
  intros w r w' H. unfold the_macro in H.
  destruct (heap w !! self); now injection H.
Qed.

Lemma at_macro_update_here (addr : nat) (f : Macro -> Macro) (P : Macro -> Prop)
    (w w' : World) :
  (forall m, P (f m)) ->
  update_macro addr f w = (Ok tt, w') -> at_macro addr P w'.
Proof.
  intros Hf H. unfold update_macro in H.
  destruct (heap w !! addr) as [m |]; [| discriminate]. injection H as <-.
  exists (f m). split; [apply lookup_after_update | apply Hf].
Qed.

Lemma at_macro_update_keeps (addr a : nat) (f : Macro -> Macro) (P : Macro -> Prop)
    (w w' : World) (r : result unit) :
  (forall m, P m -> P (f m)) ->
  update_macro addr f w = (r, w') -> at_macro a P w -> at_macro a P w'.
Proof.
  intros Hf H (m & Hm & HP). unfold update_macro in H.
  destruct (heap w !! addr) as [m0 |] eqn:Hm0; injection H as <- <-; [| now exists m].
  destruct (decide (a = addr)) as [-> | Hne].
  - exists (f m0). split; [apply lookup_after_update |].
    apply Hf. congruence.
  - exists m. split; [| exact HP]. rewrite heap_set_heap. now rewrite lookup_insert_ne.
Qed.

Lemma at_macro_logger (a : nat) (P : Macro -> Prop) (l : log_line) (w w' : World)
    (r : result unit) :
  logger l w = (r, w') -> at_macro a P w -> at_macro a P w'.
Proof. intros H. injection H as <- <-. auto. Qed.

(** What every step of a loop keeps, the loop keeps. *)
Lemma for_each_keeps {A} (P : World -> Prop) (l : list A) (f : A -> M unit) :
  (forall x w r w', f x w = (r, w') -> P w -> P w') ->
  forall w r w', for_each l f w = (r, w') -> P w -> P w'.
Proof.
  intros Hf. induction l as [| x l IH]; intros w r w' H HP.
  - now injection H as <- <-.
  - simpl in H.
    apply bind_inv in H as [(a & w1 & Hx & Hrest) | [(e & Hx & _) | (s & Hx & _)]]; eauto.
Qed.

(** What the step for [x] brings about, and no step undoes, holds after
    a loop that has [x] in its list and returns. *)
Lemma for_each_brings {A} (P : World -> Prop) (Q : A -> World -> Prop) (l : list A)
    (f : A -> M unit) :
  (forall x w r w', f x w = (r, w') -> P w -> P w') ->
  (forall x y w r w', f y w = (r, w') -> Q x w -> Q x w') ->
  (forall x w w', f x w = (Ok tt, w') -> Q x w -> P w') ->
  forall w w' x, for_each l f w = (Ok tt, w') -> x ∈ l -> Q x w -> P w'.
Proof.
  intros Hkeep HQ Hbring. induction l as [| y l IH]; intros w w' x H Hin HQx.
  - now apply elem_of_nil in Hin.
  - simpl in H. apply bind_ok_inv in H as ([] & w1 & Hy & Hrest).
    apply elem_of_cons in Hin as [-> | Hin].
    + eapply for_each_keeps; [exact Hkeep | exact Hrest |]. eauto.
    + eapply IH; [exact Hrest | exact Hin |]. eauto.
Qed.

(** Reaching a macro is not undone by a computation that emits
    nothing. *)
Lemma quiet_keeps_reaches {A} (c : M A) (child a : nat) (w w' : World) (r : result A) :
  quiet c -> c w = (r, w') -> reaches w child a -> reaches w' child a.
Proof.
  intros Hq Hc. apply (persistent_reaches child a). exact (proj1 (Hq _ _ _ Hc)).
Qed.

(** ** Releasing *)

Lemma release_trigger_keeps (a : nat) (fuel : nat) :
  forall (self : value) (w w' : World) (r : result unit),
    release_trigger fuel self w = (r, w') ->
    at_macro a released w -> at_macro a released w'.
Proof.
  induction fuel as [| fuel IH]; intros self w w' r H Ha; simpl in H.
  - now injection H as <- <-.
  - destruct self; try (now injection H as <- <-).
    apply bind_inv in H as [(m & w1 & Hm & H) | [(e & Hm & _) | (s & Hm & _)]];
      try (apply unchanging_the_macro in Hm; now subst).
    apply the_macro_inv in Hm as [Hm ->].
    apply bind_inv in H as [([] & w1 & Hu & H) | [(e & Hu & _) | (s & Hu & _)]].
    + eapply for_each_keeps; [| exact H |].
      * intros x w2 r2 w3. apply IH.
      * eapply at_macro_update_keeps; [| exact Hu | exact Ha]. intros ? _. now split.
    + eapply at_macro_update_keeps; [| exact Hu | exact Ha]. intros ? _. now split.
    + eapply at_macro_update_keeps; [| exact Hu | exact Ha]. intros ? _. now split.
Qed.

Lemma release_trigger_reaches (a : nat) (fuel : nat) :
  forall (root : nat) (w w' : World),
    release_trigger fuel (VMacro root) w = (Ok tt, w') ->
    reaches w root a -> at_macro a released w'.
Proof.
  induction fuel as [| fuel IH]; intros root w w' H Hreach; simpl in H; [discriminate |].
  apply bind_ok_inv in H as (m & w0 & Hm & H). apply the_macro_inv in Hm as [Hm ->].
  apply bind_ok_inv in H as ([] & w1 & Hu & H).
  inversion Hreach as [| ? m0 child ? Hm0 Hin Hrest]; subst.
  - eapply for_each_keeps; [| exact H |].
    + intros x w2 r2 w3. apply release_trigger_keeps.
    + eapply at_macro_update_here; [| exact Hu]. intros ?. now split.
  - assert (m0 = m) as -> by congruence.
    eapply (for_each_brings (at_macro a released)
              (fun x w => exists c, x = VMacro c /\ reaches w c a));
      [| | | exact H | exact Hin |].
    + intros x w2 r2 w3. apply release_trigger_keeps.
    + intros x y w2 r2 w3 Hy (c & -> & Hc). exists c. split; [reflexivity |].
      exact (quiet_keeps_reaches _ _ _ _ _ _ (quiet_release_trigger fuel y) Hy Hc).
    + intros x w2 w3 Hx (c & -> & Hc). exact (IH _ _ _ Hx Hc).
    + exists child. split; [reflexivity |].
      refine (quiet_keeps_reaches _ _ _ _ _ _ _ Hu Hrest).
      apply quiet_update_macro. auto with quiet.
Qed.

(** X8. When [release_trigger] returns, the trigger of the macro and of
    every descendant of it (the children, their children and so on) is
    released: the release event is set, the press event is cleared, and
    [is_holding] is false. *)
Theorem release_trigger_releases_all_descendants (fuel root a : nat) (w w' : World) :
  release_trigger fuel (VMacro root) w = (Ok tt, w') ->
  reaches w root a ->
  exists m,
    heap w' !! a = Some m /\ _trigger_release_event m = true /\
    _trigger_press_event m = false /\ is_holding m = false.
Proof.
  intros H Hreach.
  destruct (release_trigger_reaches a fuel root w w' H Hreach) as (m & Hm & Hrel & Hpress).
  exists m. unfold is_holding. rewrite Hrel. auto.
Qed.

(** ** Pressing *)

Lemma press_trigger_keeps (a : nat) (fuel : nat) :
  forall (self : value) (w w' : World) (r : result unit),
    press_trigger fuel self w = (r, w') ->
    at_macro a held w -> at_macro a held w'.
Proof.
  induction fuel as [| fuel IH]; intros self w w' r H Ha; simpl in H.
  - now injection H as <- <-.
  - destruct self; try (now injection H as <- <-).
    apply bind_inv in H as [(m & w1 & Hm & H) | [(e & Hm & _) | (s & Hm & _)]];
      try (apply unchanging_the_macro in Hm; now subst).
    apply the_macro_inv in Hm as [Hm ->].
    destruct (is_holding m); [exact (at_macro_logger _ _ _ _ _ _ H Ha) |].
    apply bind_inv in H as [([] & w1 & Hu & H) | [(e & Hu & _) | (s & Hu & _)]].
    + eapply for_each_keeps; [| exact H |].
      * intros x w2 r2 w3. apply IH.
      * eapply at_macro_update_keeps; [| exact Hu | exact Ha]. reflexivity.
    + eapply at_macro_update_keeps; [| exact Hu | exact Ha]. reflexivity.
    + eapply at_macro_update_keeps; [| exact Hu | exact Ha]. reflexivity.
Qed.

Lemma press_trigger_holds (fuel root : nat) (w w' : World) :
  press_trigger fuel (VMacro root) w = (Ok tt, w') -> at_macro root held w'.
Proof.
  destruct fuel as [| fuel]; simpl; [discriminate |]. intros H.
  apply bind_ok_inv in H as (m & w0 & Hm & H). apply the_macro_inv in Hm as [Hm ->].
  destruct (is_holding m) eqn:Hheld.
  - eapply at_macro_logger; [exact H |]. now exists m.
  - apply bind_ok_inv in H as ([] & w1 & Hu & H).
    eapply for_each_keeps; [| exact H |].
    + intros x w2 r2 w3. apply press_trigger_keeps.
    + eapply at_macro_update_here; [| exact Hu]. reflexivity.
Qed.


(** ** Notifying *)

Lemma notify_keeps (event : InputEvent) (action : Action) (a : nat) (fuel : nat) :
  forall (self : value) (w w' : World) (r : result unit),
    notify fuel event action self w = (r, w') ->
    at_macro a (knows event action) w -> at_macro a (knows event action) w'.
Proof.
  induction fuel as [| fuel IH]; intros self w w' r H Ha; simpl in H.
  - now injection H as <- <-.
  - destruct self; try (now injection H as <- <-).
    apply bind_inv in H as [(m & w1 & Hm & H) | [(e & Hm & _) | (s & Hm & _)]];
      try (apply unchanging_the_macro in Hm; now subst).
    apply the_macro_inv in Hm as [Hm ->].
    assert (Hloop : forall w1 r1, for_each (child_macros m) (notify fuel event action) w = (r1, w1) ->
                      at_macro a (knows event action) w1).
    { intros w1 r1 Hl. eapply for_each_keeps; [| exact Hl | exact Ha].
      intros x w2 r2 w3. apply IH. }
    apply bind_inv in H as [([] & w1 & Hl & H) | [(e & Hl & _) | (s & Hl & _)]]; eauto.
    eapply at_macro_update_keeps; [| exact H | eauto]. intros ? _. now repeat split.
Qed.

Lemma notify_reaches (event : InputEvent) (action : Action) (a : nat) (fuel : nat) :
  forall (root : nat) (w w' : World),
    notify fuel event action (VMacro root) w = (Ok tt, w') ->
    reaches w root a -> at_macro a (knows event action) w'.
Proof.
  induction fuel as [| fuel IH]; intros root w w' H Hreach; simpl in H; [discriminate |].
  apply bind_ok_inv in H as (m & w0 & Hm & H). apply the_macro_inv in Hm as [Hm ->].
  apply bind_ok_inv in H as ([] & w1 & Hl & Hu).
  inversion Hreach as [| ? m0 child ? Hm0 Hin Hrest]; subst.
  - eapply at_macro_update_here; [| exact Hu]. intros ?. now repeat split.
  - assert (m0 = m) as -> by congruence.
    eapply at_macro_update_keeps; [| exact Hu |]; [intros ? _; now repeat split |].
    eapply (for_each_brings (at_macro a (knows event action))
              (fun x w => exists c, x = VMacro c /\ reaches w c a));
      [| | | exact Hl | exact Hin |].
    + intros x w2 r2 w3. apply notify_keeps.
    + intros x y w2 r2 w3 Hy (c & -> & Hc). exists c. split; [reflexivity |].
      exact (quiet_keeps_reaches _ _ _ _ _ _ (quiet_notify fuel event action y) Hy Hc).
    + intros x w2 w3 Hx (c & -> & Hc). exact (IH _ _ _ Hx Hc).
    + eauto.
Qed.

(** X10. When [notify] returns, the macro and every descendant of it
    hold the event and the action they were told about as their newest,
    and their [_new_event_arrived] is set. *)
Theorem notify_tells_all_descendants (fuel root a : nat) (event : InputEvent)
    (action : Action) (w w' : World) :
  notify fuel event action (VMacro root) w = (Ok tt, w') ->
  reaches w root a ->
  exists m,
    heap w' !! a = Some m /\ _newest_event m = Some event /\
    _newest_action m = Some action /\ _new_event_arrived m = true.
Proof. intros H Hreach. exact (notify_reaches event action a fuel root w w' H Hreach). Qed.

(** X11. Pressing or releasing the trigger and notifying of an event do
    not pass anything to the handler and do not touch what was built:
    every macro is still there with its code, context, tasks and
    children, and its capabilities have lost nothing. *)
Theorem trigger_and_notify_keep_what_was_built (fuel : nat) (self : value)
    (event : InputEvent) (action : Action) (w w' : World) (r : result unit) :
  press_trigger fuel self w = (r, w') \/
  release_trigger fuel self w = (r, w') \/
  notify fuel event action self w = (r, w') ->
  emitted w' = emitted w /\
  forall addr, option_Forall2 macro_le (heap w !! addr) (heap w' !! addr).
Proof.
  intros [H | [H | H]].
  - destruct (quiet_press_trigger fuel self _ _ _ H) as [[Hheap _] Hemitted]. auto.
  - destruct (quiet_release_trigger fuel self _ _ _ H) as [[Hheap _] Hemitted]. auto.
  - destruct (quiet_notify fuel event action self _ _ _ H) as [[Hheap _] Hemitted]. auto.
Qed.

(** ** The theorems at a macro with two children *)

Lemma family_macro_is_there : heap if_eq_world !! 2%nat = Some family_macro.
Proof. apply is_there_default. vm_compute. reflexivity. Qed.

Lemma pressed_family_macro_is_there :
  heap pressed_family_world !! 2%nat = Some pressed_family_macro.
Proof. apply is_there_default. vm_compute. reflexivity. Qed.

Lemma family_reaches_the_else_branch : reaches if_eq_world 2 1.
Proof.
  eapply reaches_child; [exact family_macro_is_there | | apply reaches_self].
  vm_compute. right. left.
Qed.

Lemma pressed_family_reaches_the_else_branch : reaches pressed_family_world 2 1.
Proof.
  eapply reaches_child; [exact pressed_family_macro_is_there | | apply reaches_self].
  vm_compute. right. left.
Qed.

Lemma release_trigger_releases_all_descendants_witness :
  reaches pressed_family_world 2 1 /\
  exists m,
    heap (snd (release_trigger 2 (VMacro 2) pressed_family_world)) !! 1%nat = Some m /\
    _trigger_release_event m = true /\ _trigger_press_event m = false /\
    is_holding m = false.
Proof.
  split; [exact pressed_family_reaches_the_else_branch |].
  apply (release_trigger_releases_all_descendants 2 2 1 pressed_family_world).
  - apply returns_in_snd. vm_compute. reflexivity.
  - exact pressed_family_reaches_the_else_branch.
Defined.


Lemma notify_tells_all_descendants_witness :
  reaches if_eq_world 2 1 /\
  exists m,
    heap (snd (notify 2 key_30_down PRESS (VMacro 2) if_eq_world)) !! 1%nat = Some m /\
    _newest_event m = Some key_30_down /\ _newest_action m = Some PRESS /\
    _new_event_arrived m = true.
Proof.
  split; [exact family_reaches_the_else_branch |].
  apply (notify_tells_all_descendants 2 2 1 key_30_down PRESS if_eq_world).
  - apply returns_in_snd. vm_compute. reflexivity.
  - exact family_reaches_the_else_branch.
Defined.

Lemma trigger_and_notify_keep_what_was_built_witness :
  let w' := snd (press_trigger 2 (VMacro 2) if_eq_world) in
  emitted w' = emitted if_eq_world /\
  forall addr, option_Forall2 macro_le (heap if_eq_world !! addr) (heap w' !! addr).
Proof.
  apply (trigger_and_notify_keep_what_was_built 2 (VMacro 2) key_30_down PRESS if_eq_world
           _ (fst (press_trigger 2 (VMacro 2) if_eq_world))).
  left. apply surjective_pairing.
Defined.

(** * More about running and about what was built *)

(** X1. Running a macro does not undo what the builders did: however
    the run ends, every macro that was there is still there with the
    same code, context, tasks and children, its capabilities have only
    grown, no macro has been created, and what had been passed to the
    handler before is still the beginning of what has been passed. *)
Theorem run_keeps_what_was_built (env : Environment) (fuel : nat) (handler : Handler)
    (macro : value) (w w' : World) (r : result unit) :
  run env fuel handler macro w = (r, w') ->
  emitted w `prefix_of` emitted w' /\
  forall addr,
    match heap w !! addr with
    | Some m =>
        exists m',
          heap w' !! addr = Some m' /\ code m' = code m /\ context m' = context m /\
          tasks m' = tasks m /\ child_macros m' = child_macros m /\
          caps_le (capabilities m) (capabilities m')
    | None => heap w' !! addr = None
    end.
Proof.
  intros H. destruct (run_world_le _ _ _ _ _ _ _ H) as [Hheap Hemitted].
  split; [exact Hemitted |]. intros addr. specialize (Hheap addr).
  destruct Hheap as [m m' [] |]; [| reflexivity].
  exists m'. auto 10.
Qed.

(** The theorem at a run of [set(foo, 30).h($foo)]. *)
Lemma run_keeps_what_was_built_witness :
  emitted late_world `prefix_of` emitted late_world_after /\
  forall addr,
    match heap late_world !! addr with
    | Some m =>
        exists m',
          heap late_world_after !! addr = Some m' /\ code m' = code m /\
          context m' = context m /\ tasks m' = tasks m /\
          child_macros m' = child_macros m /\
          caps_le (capabilities m) (capabilities m')
    | None => heap late_world_after !! addr = None
    end.
Proof.
  apply (run_keeps_what_was_built example_env 2 silent (VMacro 0) late_world late_world_after
           (fst (run example_env 2 silent (VMacro 0) late_world))).
  apply surjective_pairing.
Defined.

(** X2. In a world that the builders have made (and runs have
    changed), every task of every macro has what it needs: the macros it
    runs are among the children of its macro, and the code of a key,
    event, mouse or wheel task is declared in the capabilities of its
    macro. *)
Theorem built_tasks_are_declared_and_registered (env : Environment) (w : World)
    (addr : nat) (m : Macro) (t : task) :
  built env w ->
  heap w !! addr = Some m ->
  t ∈ tasks m ->
  (forall child, runs_macro t (VMacro child) -> VMacro child ∈ child_macros m) /\
  match t with
  | key_task code => declares (capabilities m) (VInt EV_KEY) code
  | event_task type_ code _ => declares (capabilities m) type_ code
  | mouse_task code _ _ | wheel_task code _ _ =>
      declares (capabilities m) (VInt EV_REL) (VInt code)
  | _ => True
  end.
Proof.
  intros Hb Hm Ht. destruct (built_well_built env w Hb addr m t Hm Ht) as [Hdecl Hreg].
  split; [exact Hreg | destruct t; try exact I; exact Hdecl].
Qed.

(** The theorem at [k(KEY_A)]: the key 30 is declared. *)
Lemma built_tasks_are_declared_and_registered_witness :
  built example_env key_world /\
  heap key_world !! 0%nat = Some key_macro /\
  key_task (VInt 30) ∈ tasks key_macro /\
  declares (capabilities key_macro) (VInt EV_KEY) (VInt 30).
Proof.
  assert (Ht : key_task (VInt 30) ∈ tasks key_macro) by (vm_compute; left).
  split; [exact key_world_is_built |]. split; [exact key_macro_is_there |].
  split; [exact Ht |].
  exact (proj2 (built_tasks_are_declared_and_registered example_env key_world 0
                  key_macro _ key_world_is_built key_macro_is_there Ht)).
Defined.

(** ** Capabilities of a family that is not a tree *)

Lemma on_a_cycle_child (w : World) (addr child : nat) (m : Macro) :
  heap w !! addr = Some m -> VMacro child ∈ child_macros m -> reaches w child addr ->
  on_a_cycle w child.
Proof.
  intros Hm Hin Hreach.
  inversion Hreach as [| ? mc d ? Hmc Hd Hrest]; subst.
  - exists m, addr. split; [exact Hm |]. split; [exact Hin | constructor].
  - exists mc, d. split; [exact Hmc |]. split; [exact Hd |].
    exact (reaches_snoc _ _ _ _ _ Hrest Hm Hin).
Qed.

(** X12. [get_capabilities] does not return for a macro that is its own
    descendant (as after [m.add_hold(m)]): the recursion over the
    children has no end, whatever depth it is given. *)
Theorem get_capabilities_of_a_cycle_never_returns (w : World) (addr : nat)
    (depth : nat) (caps : gmap value (gset value)) :
  on_a_cycle w addr -> get_capabilities depth w (VMacro addr) <> Ok caps.
Proof.
  revert addr caps. induction depth as [| depth IH]; intros addr caps Hcycle H;
    [discriminate |].
  destruct Hcycle as (m & child & Hm & Hin & Hreach).
  destruct (get_capabilities_children _ _ _ _ _ Hm H) as [_ Hchildren].
  destruct (Hchildren _ Hin) as (child_caps & Hchild & _).
  exact (IH child child_caps (on_a_cycle_child _ _ _ _ Hm Hin Hreach) Hchild).
Qed.

Lemma loop_macro_is_there : heap loop_world !! 0%nat = Some loop_macro.
Proof. apply is_there_default. vm_compute. reflexivity. Qed.

(** The theorem at a macro that holds itself. *)
Lemma get_capabilities_of_a_cycle_never_returns_witness :
  on_a_cycle loop_world 0 /\
  forall caps, get_capabilities 5 loop_world (VMacro 0) <> Ok caps.
Proof.
  assert (Hcycle : on_a_cycle loop_world 0).
  { exists loop_macro, 0%nat. split; [exact loop_macro_is_there |].
    split; [vm_compute; left | constructor]. }
  split; [exact Hcycle |]. intros caps.
  exact (get_capabilities_of_a_cycle_never_returns loop_world 0 5 caps Hcycle).
Defined.

(** ** A variable where a macro is expected *)

Lemma child_macros_append_registers (self : nat) (c : value) (w w' : World) :
  child_macros_append self c w = (Ok tt, w') ->
  at_macro self (fun m => c ∈ child_macros m) w'.
Proof.
  intros H. unfold child_macros_append, update_macro in H.
  destruct (heap w !! self) as [m |]; [| discriminate]. injection H as <-.
  eexists. split; [apply lookup_after_update |]. simpl.
  apply elem_of_app. right. apply list_elem_of_here.
Qed.

Lemma a_child_that_is_no_macro (w : World) (self : nat) (c : value) (depth : nat)
    (caps : gmap value (gset value)) :
  at_macro self (fun m => c ∈ child_macros m) w ->
  (forall addr, c <> VMacro addr) ->
  get_capabilities depth w (VMacro self) <> Ok caps.
Proof.
  intros (m & Hm & Hin) Hc H. destruct depth as [| depth]; [discriminate |].
  destruct (get_capabilities_children _ _ _ _ _ Hm H) as [_ Hchildren].
  destruct (Hchildren _ Hin) as (child_caps & Hchild & _).
  destruct depth; [discriminate |]. destruct c; try discriminate.
  now apply (Hc addr).
Qed.



(** X14. [add_key] checks the name of its key with
    [_type_check_keyname], which lets a variable through, and then looks
    up the code of [str(symbol)]: for a variable whose printed form
    names no key, the builder returns, declares the code [None] for
    [EV_KEY] and appends a task that passes the code [None] to the
    handler. *)
Theorem key_of_a_variable_has_the_code_None (env : Environment) (self oid : nat)
    (name : string) (m : Macro) (codes : gset value) (w : World) :
  heap w !! self = Some m ->
  capabilities m !! VInt EV_KEY = Some codes ->
  system_mapping env (Variable_repr name) = None ->
  add_key env self (VVariable oid name) w =
    (Ok tt,
     set_heap
       (<[self := with_tasks (tasks m ++ [key_task VNone])
                    (with_capabilities (<[VInt EV_KEY := codes ∪ {[VNone]}]> (capabilities m))
                       m)]> (heap w)) w).
Proof.
  intros Hm Hkey Hname. unfold add_key, type_check_keyname, bind, lift, gets. simpl.
  rewrite Hname. rewrite (capabilities_add_lookup _ _ _ VNone _ _ Hm Hkey).
  unfold tasks_append. erewrite update_macro_lookup by apply lookup_after_update.
  unfold set_heap. simpl. rewrite insert_insert_eq. reflexivity.
Qed.

(** The theorem at [k($foo)]. *)
Lemma key_of_a_variable_has_the_code_None_witness :
  let w := one_macro_world "k($foo)" in
  let m := one_macro "k($foo)" in
  add_key example_env 0 (VVariable 0 "foo") w =
    (Ok tt,
     set_heap
       (<[0%nat := with_tasks (tasks m ++ [key_task VNone])
                     (with_capabilities (<[VInt EV_KEY := ∅ ∪ {[VNone]}]> (capabilities m))
                        m)]> (heap w)) w).
Proof.
  exact (key_of_a_variable_has_the_code_None example_env 0 0 "foo" (one_macro "k($foo)") ∅
           (one_macro_world "k($foo)") eq_refl eq_refl eq_refl).
Defined.

(** ** What leaves [run] *)

Lemma run_tasks_raises (run_one : task -> M unit) (code : option string) (ts : list task) :
  forall (w w' : World) (e : exn),
    run_tasks run_one code ts w = (Raise e, w') -> is_Exception e = false.
Proof.
  induction ts as [| t ts IH]; intros w w' e H; simpl in H; [discriminate |].
  destruct (run_one t w) as [[[] | e1 | s] w1]; [eauto | | discriminate].
  destruct (is_Exception e1) eqn:He1; [discriminate |]. now injection H as <- _.
Qed.

Lemma update_macro_raises_nothing (self : nat) (f : Macro -> Macro) (w w' : World) (e : exn) :
  update_macro self f w = (Raise e, w') -> False.
Proof. unfold update_macro. destruct (heap w !! self); discriminate. Qed.

(** X15. No [Exception] of a task leaves [run]: when [run] of a macro
    that has a context, with a handler that is callable, ends by raising,
    what it raises is not an [Exception] (it is the [CancelledError] of
    a cancelled task, which [except Exception] does not catch). *)
Theorem run_lets_no_Exception_out (env : Environment) (fuel : nat)
    (raises : list emission -> emission -> option exn) (addr : nat) (m : Macro)
    (w w' : World) (e : exn) :
  heap w !! addr = Some m ->
  context m <> None ->
  run env fuel (callable raises) (VMacro addr) w = (Raise e, w') ->
  is_Exception e = false.
Proof.
  intros Hm Hcontext H. destruct fuel as [| fuel]; [discriminate |]. simpl in H.
  unfold bind at 1 in H. rewrite (the_macro_lookup _ _ _ Hm) in H.
  destruct (running m); [discriminate |].
  destruct (context m) as [sleep_ms |]; [| congruence].
  do 3 (apply bind_inv in H as [([] & ? & _ & H) | [(e1 & H & _) | (s & _ & Hs)]];
          [| now apply update_macro_raises_nothing in H | discriminate Hs]).
  apply bind_inv in H as [([] & ? & _ & H) | [(e1 & H & He) | (s & _ & Hs)]];
    [now apply update_macro_raises_nothing in H | | discriminate Hs].
  injection He as ->. eapply run_tasks_raises. exact H.
Qed.

Lemma ends_in_snd {A} (x : result A * World) (r : result A) : fst x = r -> x = (r, snd x).
Proof. intros <-. apply surjective_pairing. Qed.

(** The theorem at [h(KEY_A)], cancelled while it waits for the
    release. *)
Lemma run_lets_no_Exception_out_witness :
  fst (run example_env 2 silent (VMacro 0) cancelled_hold_world) = Raise CancelledError /\
  is_Exception CancelledError = false.
Proof.
  assert (H : fst (run example_env 2 silent (VMacro 0) cancelled_hold_world)
              = Raise CancelledError) by (vm_compute; reflexivity).
  split; [exact H |].
  apply (run_lets_no_Exception_out example_env 2 (fun _ _ => None) 0
           (default (Macro_init None None) (heap cancelled_hold_world !! 0%nat))
           cancelled_hold_world
           (snd (run example_env 2 silent (VMacro 0) cancelled_hold_world))).
  - apply is_there_default. vm_compute. reflexivity.
  - vm_compute. discriminate.
  - apply ends_in_snd. exact H.
Defined.

(** ** What a mouse task writes *)

Lemma only_nothing_new (e : emission) (w w' : World) :
  emitted w' = emitted w -> only e (emitted_since w w').
Proof.
  intros H. unfold only, emitted_since. rewrite H, drop_all. constructor.
Qed.

Lemma mouse_loop_writes_one_event (k self : nat) (handler : Handler) (e : emission)
    (w w' : World) (r : result unit) :
  while_holding k self (call handler e ;;; _keycode_pause self) w = (r, w') ->
  only e (emitted_since w w').
Proof.
  intros H.
  assert (Hp : forall x, persistent (fun _ : World => x = e)) by (intros x ? ? _ ?; assumption).
  assert (Hr : respects (fun _ x => x = e) (fun _ => True)
                 (while_holding k self (call handler e ;;; _keycode_pause self))).
  { apply respects_while_holding; [exact Hp | apply persistent_True |].
    apply respects_bind; [exact Hp | apply persistent_True | |].
    - apply respects_call; [exact Hp | auto].
    - intros _. apply respects_quiet, quiet_keycode_pause. }
  destruct (Hr w I r w' H) as [_ Hall]. apply Forall_forall. exact Hall.
Qed.

Lemma nothing_new (w w' : World) : emitted w' = emitted w -> emitted_since w w' = [].
Proof. intros H. unfold emitted_since. rewrite H. apply drop_all. Qed.

(** What [_resolve] returns for the speed is what [speed_when_started]
    says. *)
Lemma resolve_speed (env : Environment) (speed sp : value) (w w1 : World) :
  _resolve env speed [KInt] w = (Ok sp, w1) ->
  speed_when_started env w speed = match sp with VInt z => Some z | _ => None end.
Proof.
  destruct speed as [| z | f | s | oid name | a]; simpl;
    try (intros [= <- _]; reflexivity).
  unfold bind, Variable_resolve, gets, logger, modify, type_check, lift, _type_check.
  destruct (default VNone (macro_variables w !! name)) as [| z | [] | s | o n | a];
    simpl; try discriminate; try (intros [= <- _]; reflexivity).
  destruct (int_of_str env s); simpl; [intros [= <- _]; reflexivity | discriminate].
Qed.

(** X16. Whatever a mouse task passes to the handler is one and the same
    event, [(EV_REL, code, value * speed)], with the speed of the world
    in which the task started: the literal speed, or what the variable
    of the speed held then, cast to an int.  Writing the variable while
    the task runs does not change what it writes.  Where there is no
    such speed, the variable unset or holding what is no int, the task
    writes nothing. *)
Theorem mouse_task_writes_one_event (env : Environment) (run_child : value -> M unit)
    (k self : nat) (handler : Handler) (code value_ : Z) (speed : value)
    (w w' : World) (r : result unit) :
  run_task env run_child k self handler (mouse_task code value_ speed) w = (r, w') ->
  match speed_when_started env w speed with
  | Some s => only (VInt EV_REL, VInt code, VInt (value_ * s)) (emitted_since w w')
  | None => emitted_since w w' = []
  end.
Proof.
  intros H. unfold run_task in H.
  assert (Hquiet : emitted w' = emitted w ->
            match speed_when_started env w speed with
            | Some s => only (VInt EV_REL, VInt code, VInt (value_ * s)) (emitted_since w w')
            | None => emitted_since w w' = []
            end).
  { intros Hem. destruct (speed_when_started env w speed);
      [now apply only_nothing_new | now apply nothing_new]. }
  apply bind_inv in H as [(sp & w1 & Hres & H) | [(e & Hres & _) | (s & Hres & _)]].
  - pose proof (quiet_emitted _ _ _ _ (quiet_resolve env speed [KInt]) Hres) as Hem.
    destruct sp as [| s | f | str | o n | a];
      try (apply Hquiet; injection H as _ <-; exact Hem).
    rewrite (resolve_speed _ _ _ _ _ Hres).
    assert (Hsince : emitted_since w w' = emitted_since w1 w')
      by (unfold emitted_since; now rewrite Hem).
    rewrite Hsince. exact (mouse_loop_writes_one_event _ _ _ _ _ _ _ H).
  - apply Hquiet. exact (quiet_emitted _ _ _ _ (quiet_resolve env speed [KInt]) Hres).
  - apply Hquiet. exact (quiet_emitted _ _ _ _ (quiet_resolve env speed [KInt]) Hres).
Qed.

(** The theorem at [mouse(up, $s)] where [s] holds 4 when the task
    starts: the pointer moves by -4, twice. *)
Lemma mouse_task_writes_one_event_witness :
  let w' := snd (run_task example_env (run example_env 1 silent) 3 0 silent
                   (mouse_task REL_Y (-1) (VVariable 0 "s")) mouse_variable_world) in
  emitted_since mouse_variable_world w' =
    [(VInt EV_REL, VInt REL_Y, VInt (-4)); (VInt EV_REL, VInt REL_Y, VInt (-4))] /\
  only (VInt EV_REL, VInt REL_Y, VInt (-1 * 4)) (emitted_since mouse_variable_world w').
Proof.
  cbv zeta. split; [vm_compute; reflexivity |].
  pose proof (mouse_task_writes_one_event example_env (run example_env 1 silent) 3 0 silent
                REL_Y (-1) (VVariable 0 "s") mouse_variable_world _ _
                (surjective_pairing _)) as H.
  assert (E : speed_when_started example_env mouse_variable_world (VVariable 0 "s") = Some 4)
    by (vm_compute; reflexivity).
  rewrite E in H. exact H.
Defined.

(** ** What [get_capabilities] returns *)

Lemma declares_merge (a b : gmap value (gset value)) (ty c : value) :
  declares (merge_capabilities a b) ty c -> declares a ty c \/ declares b ty c.
Proof.
  intros (codes & Hlook & Hin). unfold merge_capabilities in Hlook.
  rewrite lookup_union_with in Hlook.
  destruct (a !! ty) as [x |] eqn:Ha, (b !! ty) as [y |] eqn:Hb; simpl in Hlook;
    try discriminate; injection Hlook as <-.
  - apply elem_of_union in Hin as [Hin | Hin]; [left | right]; eexists; eauto.
  - left. eexists; eauto.
  - right. eexists; eauto.
Qed.

Lemma get_capabilities_loop_exact (fuel : nat) (w : World) (children : list value)
    (ty c : value) :
  forall (acc : result (gmap value (gset value))) (caps : gmap value (gset value)),
    foldl
      (fun acc macro =>
         match acc with
         | Ok caps =>
             match get_capabilities fuel w macro with
             | Ok macro_capabilities => Ok (merge_capabilities caps macro_capabilities)
             | Raise e => Raise e
             | Stop s => Stop s
             end
         | _ => acc
         end) acc children = Ok caps ->
    declares caps ty c ->
    (exists start, acc = Ok start /\ declares start ty c) \/
    exists child child_caps,
      child ∈ children /\ get_capabilities fuel w child = Ok child_caps /\
      declares child_caps ty c.
Proof.
  induction children as [| x rest IH]; intros acc caps H Hd; simpl in H.
  - left. eauto.
  - destruct (IH _ _ H Hd) as [(mid & Hmid & Hdmid) | (child & cc & Hin & Hc & Hdc)].
    + destruct acc as [start | |]; try discriminate.
      destruct (get_capabilities fuel w x) as [cx | |] eqn:Hx; try discriminate.
      injection Hmid as <-.
      apply declares_merge in Hdmid as [Hstart | Hcx]; [left; eauto |].
      right. exists x, cx. split; [apply list_elem_of_here | auto].
    + right. exists child, cc. split; [now apply list_elem_of_further | auto].
Qed.

Lemma get_capabilities_exact (w : World) (ty c : value) (depth : nat) :
  forall (root : nat) (caps : gmap value (gset value)),
    get_capabilities depth w (VMacro root) = Ok caps ->
    declares caps ty c -> declared_below w root ty c.
Proof.
  induction depth as [| depth IH]; intros root caps H Hd; [discriminate |].
  simpl in H. destruct (heap w !! root) as [m |] eqn:Hm; [| discriminate].
  destruct (get_capabilities_loop_exact _ _ _ _ _ _ _ H Hd)
    as [(start & [= <-] & Hown) | (child & cc & Hin & Hc & Hdc)].
  - exists root, m. split; [constructor | auto].
  - destruct child as [| | | | | a]; try (destruct depth; discriminate).
    destruct (IH _ _ Hc Hdc) as (addr & m' & Hreach & Hm' & Hdecl).
    exists addr, m'. split; [| auto]. eapply reaches_child; eassumption.
Qed.

(** X17. For event types and codes that are ints, what
    [get_capabilities] returns is the union of the capabilities of the
    macro and of all its descendants, no less and no more: it declares a
    code for an event type exactly when the macro or one of its
    descendants does.  (An int is its own deep copy; the variable that a
    hold has declared is copied as another object, of which this says
    nothing.) *)
Theorem get_capabilities_is_the_union (w : World) (root depth : nat)
    (caps : gmap value (gset value)) (ty c : Z) :
  get_capabilities depth w (VMacro root) = Ok caps ->
  (declares caps (VInt ty) (VInt c) <-> declared_below w root (VInt ty) (VInt c)).
Proof.
  intros H. split.
  - exact (get_capabilities_exact w (VInt ty) (VInt c) depth root caps H).
  - intros (addr & m & Hreach & Hm & Hd).
    exact (caps_le_declares _ _ _ _ (get_capabilities_reaches _ _ _ Hreach _ _ _ H Hm) Hd).
Qed.

(** The theorem at [if_eq($x, 5, k(KEY_A), k(KEY_B))]. *)
Lemma get_capabilities_is_the_union_witness :
  get_capabilities 2 if_eq_world (VMacro 2) = Ok if_eq_capabilities /\
  (declares if_eq_capabilities (VInt EV_KEY) (VInt 48) <->
   declared_below if_eq_world 2 (VInt EV_KEY) (VInt 48)).
Proof.
  assert (H : get_capabilities 2 if_eq_world (VMacro 2) = Ok if_eq_capabilities)
    by (apply is_Ok_returned; vm_compute; reflexivity).
  split; [exact H |].
  exact (get_capabilities_is_the_union if_eq_world 2 2 if_eq_capabilities EV_KEY 48 H).
Defined.

(** * Waiting *)

(** ** Waiting for an event *)

(** X19. When [_wait_for_event] returns, it has cleared
    [_new_event_arrived], so that the event that woke it up wakes nobody
    again, and the newest event and action of the macro are ones that
    its filter, if it has one, lets through. *)
Theorem wait_for_event_returns_cleared (k self : nat)
    (filter : option (option InputEvent -> option Action -> exn + bool)) (armed : bool)
    (w w' : World) :
  _wait_for_event k self filter armed w = (Ok tt, w') ->
  exists m,
    heap w' !! self = Some m /\ _new_event_arrived m = false /\
    forall f, filter = Some f -> f (_newest_event m) (_newest_action m) = inr true.
Proof.
  revert w. induction k as [| k IH]; intros w H; simpl in H; [discriminate |].
  apply bind_ok_inv in H as ([] & w1 & _ & H).
  apply bind_ok_inv in H as ([] & w2 & Hclear & H).
  assert (Hm : at_macro self (fun m => _new_event_arrived m = false) w2)
    by (eapply at_macro_update_here; [| exact Hclear]; reflexivity).
  destruct filter as [f |].
  - apply bind_ok_inv in H as (m & w3 & Hm3 & H). apply the_macro_inv in Hm3 as [Hm3 ->].
    apply bind_ok_inv in H as (pass & w4 & Hpass & H).
    pose proof (lift_same _ _ _ _ Hpass) as ->.
    destruct pass; [| exact (IH _ H)].
    injection H as <-. exists m. destruct Hm as (m' & Hm' & Hflag).
    assert (m' = m) as -> by congruence.
    split; [exact Hm3 |]. split; [exact Hflag |].
    intros f' [= <-]. unfold lift in Hpass.
    destruct (f (_newest_event m) (_newest_action m)) as [| []]; congruence.
  - injection H as <-. destruct Hm as (m & Hm & Hflag). exists m.
    split; [exact Hm |]. split; [exact Hflag | discriminate].
Qed.

(** The theorem at a macro that has been told about an event. *)
Lemma wait_for_event_returns_cleared_witness :
  exists m,
    heap (snd (_wait_for_event 1 2 None false notified_family_world)) !! 2%nat = Some m /\
    _new_event_arrived m = false /\
    forall f, @None (option InputEvent -> option Action -> exn + bool) = Some f ->
      f (_newest_event m) (_newest_action m) = inr true.
Proof.
  apply (wait_for_event_returns_cleared 1 2 None false notified_family_world).
  apply returns_in_snd. vm_compute. reflexivity.
Defined.

(** ** Tasks that last while the trigger is held *)

Lemma while_holding_ends_released (self : nat) (body : M unit) (k : nat) :
  forall w w',
    while_holding k self body w = (Ok tt, w') ->
    at_macro self (fun m => is_holding m = false) w'.
Proof.
  induction k as [| k IH]; intros w w' H; simpl in H;
    apply bind_ok_inv in H as (m & w1 & Hm & H); apply the_macro_inv in Hm as [Hm ->];
    (destruct (is_holding m) eqn:Hheld; [| injection H as <-; now exists m]).
  - discriminate.
  - apply bind_ok_inv in H as ([] & w2 & _ & H). exact (IH _ _ H).
Qed.

(** X20. The tasks that loop while the trigger is held, those of [h]
    with a macro, of [mouse] and of [wheel], last as long as it is held:
    when such a task returns, the trigger of its macro is released. *)
Theorem held_task_returns_when_released (env : Environment) (run_child : value -> M unit)
    (k self : nat) (handler : Handler) (t : task) (w w' : World) :
  loops_while_held t = true ->
  run_task env run_child k self handler t w = (Ok tt, w') ->
  exists m, heap w' !! self = Some m /\ is_holding m = false.
Proof.
  intros Ht H. destruct t; try discriminate; simpl in H.
  - exact (while_holding_ends_released _ _ _ _ _ H).
  - apply bind_ok_inv in H as (sp & w1 & _ & H).
    destruct sp; try discriminate. exact (while_holding_ends_released _ _ _ _ _ H).
  - apply bind_ok_inv in H as (sp & w1 & _ & H).
    exact (while_holding_ends_released _ _ _ _ _ H).
Qed.

(** The theorem at [mouse(up, 4)], released during its second pause. *)
Lemma held_task_returns_when_released_witness :
  exists m,
    heap (snd (run_task example_env (run example_env 1 silent) 3 0 silent
                 (mouse_task REL_Y (-1) (VInt 4)) mouse_world)) !! 0%nat = Some m /\
    is_holding m = false.
Proof.
  apply (held_task_returns_when_released example_env (run example_env 1 silent) 3 0 silent
           (mouse_task REL_Y (-1) (VInt 4)) mouse_world _ eq_refl).
  apply returns_in_snd. vm_compute. reflexivity.
Defined.
